(** * TikHub API docs: the specification-to-operation compiler, the URL
      builder and the network relay, embedded and verified.

    Sources embedded here:
    - [src/lib/openapi.ts]   (text normalisation, schema resolution, example
                              synthesis, operation normalisation, catalog sort)
    - [src/lib/snippets.ts]  ([buildUrl])
    - [src/types.ts]         (the data model)
    - [api/proxy.ts]         (both relay handlers)

    JavaScript strings are sequences of UTF-16 code units; they are modelled as
    lists of code units ([N]).  A [Record<string, T>] is modelled as an
    association list of its own properties, in the order in which
    [Object.keys] enumerates them (properties inherited from
    [Object.prototype] are not modelled); an optional field is an [option]; a
    value of type [unknown] that comes out of the parsed document is a JSON
    value.  What the platform provides and the sources only call
    ([localeCompare], [JSON.parse], [new URL], case mapping, [fetch]) is a
    parameter of the definitions that use it; [encodeURIComponent],
    [URLSearchParams], [trim], [split] and the regular expressions of the
    sources are written out. *)

From Stdlib Require Import Ascii String List NArith ZArith Bool Lia Permutation.
Import ListNotations.

Set Implicit Arguments.
Set Warnings "-register-all".

(* ================================================================== *)
(** * Part I: definitions                                              *)
(* ================================================================== *)

(** ** JavaScript strings *)

Definition codeUnit := N.
Definition jsstr := list codeUnit.

(** An ASCII literal of the source as a JavaScript string. *)
Definition lit (s : string) : jsstr := map N_of_ascii (list_ascii_of_string s).

Definition jsstr_eq_dec : forall a b : jsstr, {a = b} + {a <> b} :=
  list_eq_dec N.eq_dec.

Definition jsstr_eqb (a b : jsstr) : bool :=
  if jsstr_eq_dec a b then true else false.

(** [!value] on a string: only the empty string is falsy. *)
Definition str_truthy (s : jsstr) : bool :=
  match s with [] => false | _ :: _ => true end.

Definition in_range (lo hi c : N) : bool := (lo <=? c)%N && (c <=? hi)%N.

(** The character class [\s] of regular expressions, which is also the set
    that [String.prototype.trim] removes: WhiteSpace and LineTerminator. *)
Definition isWhitespace (c : codeUnit) : bool :=
  in_range 9 13 c || (c =? 32)%N || (c =? 160)%N || (c =? 5760)%N
  || in_range 8192 8202 c || (c =? 8232)%N || (c =? 8233)%N
  || (c =? 8239)%N || (c =? 8287)%N || (c =? 12288)%N || (c =? 65279)%N.

(** The class [[\u3400-\u9FFF\uF900-\uFAFF]] of the source. *)
Definition isCjk (c : codeUnit) : bool :=
  in_range 13312 40959 c || in_range 63744 64255 c.

(** [[A-Za-z]] *)
Definition isLatinLetter (c : codeUnit) : bool :=
  in_range 65 90 c || in_range 97 122 c.

Fixpoint dropWhile (p : codeUnit -> bool) (s : jsstr) : jsstr :=
  match s with
  | [] => []
  | c :: r => if p c then dropWhile p r else s
  end.

Definition trimStart (s : jsstr) : jsstr := dropWhile isWhitespace s.
Definition trimEnd (s : jsstr) : jsstr := rev (dropWhile isWhitespace (rev s)).
Definition trim (s : jsstr) : jsstr := trimEnd (trimStart s).

(** [s.split(sep)] for a one-code-unit separator: always at least one part. *)
Fixpoint split (sep : codeUnit) (s : jsstr) : list jsstr :=
  match s with
  | [] => [[]]
  | c :: r =>
      if (c =? sep)%N then [] :: split sep r
      else match split sep r with
           | [] => [[c]]
           | p :: ps => (c :: p) :: ps
           end
  end.

(** [s.replace(/[class]+/g, " ")]: every maximal run of code units of the
    class becomes one space.  [inRun] tells that the previous code unit was
    in the class, so that the space of this run is already written. *)
Fixpoint replaceRunsFrom (p : codeUnit -> bool) (inRun : bool) (s : jsstr) : jsstr :=
  match s with
  | [] => []
  | c :: r =>
      if p c then
        if inRun then replaceRunsFrom p true r
        else 32%N :: replaceRunsFrom p true r
      else c :: replaceRunsFrom p false r
  end.

Definition replaceRuns (p : codeUnit -> bool) (s : jsstr) : jsstr :=
  replaceRunsFrom p false s.

(** [englishOnlyText] of openapi.ts. *)
Definition hasCjk (text : jsstr) : bool := existsb isCjk text.
Definition hasLatin (text : jsstr) : bool := existsb isLatinLetter text.

Definition englishOnlyText (value : jsstr) : jsstr :=
  let trimmed := trim value in
  if negb (str_truthy trimmed) then []
  else
    let slashParts := filter str_truthy (map trim (split 47%N trimmed)) in
    let englishPart :=
      if (1 <? length slashParts)%nat then
        match find (fun part => hasLatin part && negb (hasCjk part)) slashParts with
        | Some part => Some part
        | None =>
            match find (fun part => negb (hasCjk part)) slashParts with
            | Some part => Some part
            | None => find hasLatin slashParts
            end
        end
      else None in
    match englishPart with
    | Some (c :: part) => c :: part
    | _ =>
        let stripped := trim (replaceRuns isWhitespace (replaceRuns isCjk trimmed)) in
        if str_truthy stripped then stripped else trimmed
    end.

(** ** Records and JSON values *)

(** [Record<string, T>]: the entries in [Object.keys] order. *)
Definition Record (T : Type) := list (jsstr * T).

(** [rec[key]], [undefined] when the key is absent. *)
Fixpoint lookup {T : Type} (key : jsstr) (rec : Record T) : option T :=
  match rec with
  | [] => None
  | (k, v) :: r => if jsstr_eqb k key then Some v else lookup key r
  end.

Definition keys {T : Type} (rec : Record T) : list jsstr := map fst rec.
Definition values {T : Type} (rec : Record T) : list T := map snd rec.

(** [a ?? b] *)
Definition orElse {T : Type} (a : option T) (b : T) : T :=
  match a with Some x => x | None => b end.

(** A value of type [unknown] read from the parsed document or produced by
    the synthesizer.  A number is kept as the text that [Number::toString]
    gives for it, so that the literal [1] is [JNum "1"]; [undefined] is the
    [None] of an [option Json]. *)
Inductive Json : Type :=
| JNull
| JBool (b : bool)
| JNum (text : jsstr)
| JStr (s : jsstr)
| JArr (items : list Json)
| JObj (entries : list (jsstr * Json)).

Definition isDigit (c : codeUnit) : bool := in_range 48 57 c.

Definition decimalValue (s : jsstr) : N :=
  fold_left (fun acc c => (10 * acc + (c - 48))%N) s 0%N.

(** An own property key that is an array index (a canonical numeric string
    below 2^32 - 1): such keys are enumerated first, in ascending order. *)
Definition arrayIndex (k : jsstr) : option N :=
  match k with
  | [] => None
  | c :: r =>
      if forallb isDigit k
         && ((negb (c =? 48)%N) || match r with [] => true | _ => false end)
         && (length k <=? 10)%nat
         && (decimalValue k <? 4294967295)%N
      then Some (decimalValue k) else None
  end.

(** Where a new array-index key [n] goes among the entries of an object. *)
Fixpoint insertIndexKey {T : Type} (n : N) (k : jsstr) (v : T)
    (entries : list (jsstr * T)) : list (jsstr * T) :=
  match entries with
  | [] => [(k, v)]
  | (k', v') :: r =>
      match arrayIndex k' with
      | Some m => if (m <? n)%N then (k', v') :: insertIndexKey n k v r
                  else (k, v) :: entries
      | None => (k, v) :: entries
      end
  end.

Fixpoint replaceEntry {T : Type} (k : jsstr) (v : T)
    (entries : list (jsstr * T)) : list (jsstr * T) :=
  match entries with
  | [] => []
  | (k', v') :: r =>
      if jsstr_eqb k' k then (k', v) :: r else (k', v') :: replaceEntry k v r
  end.

(** [obj[k] = v] on an ordinary object: an existing key keeps its place, a new
    array-index key is placed among the array-index keys, any other new key
    goes last. *)
Definition objSet {T : Type} (entries : list (jsstr * T)) (k : jsstr) (v : T)
    : list (jsstr * T) :=
  match lookup k entries with
  | Some _ => replaceEntry k v entries
  | None =>
      match arrayIndex k with
      | Some n => insertIndexKey n k v entries
      | None => entries ++ [(k, v)]
      end
  end.

(** [Object.assign(acc, value)] *)
Definition objAssign {T : Type} (acc value : list (jsstr * T)) : list (jsstr * T) :=
  fold_left (fun o kv => objSet o (fst kv) (snd kv)) value acc.

(** [String(v)] *)
Fixpoint jsString (v : Json) : jsstr :=
  match v with
  | JNull => lit "null"
  | JBool true => lit "true"
  | JBool false => lit "false"
  | JNum text => text
  | JStr s => s
  | JArr items =>
      (fix join (l : list Json) : jsstr :=
         match l with
         | [] => []
         | x :: r =>
             let here := match x with JNull => [] | _ => jsString x end in
             match r with
             | [] => here
             | _ :: _ => here ++ 44%N :: join r
             end
         end) items
  | JObj _ => lit "[object Object]"
  end.

(** ** The data model of types.ts *)

Inductive HttpMethod : Type :=
| GET | POST | PUT | PATCH | DELETE | OPTIONS | HEAD | TRACE.

Definition methodName (m : HttpMethod) : jsstr :=
  match m with
  | GET => lit "get" | POST => lit "post" | PUT => lit "put"
  | PATCH => lit "patch" | DELETE => lit "delete" | OPTIONS => lit "options"
  | HEAD => lit "head" | TRACE => lit "trace"
  end.

(** [SchemaObject].  The fields [description] and [required] of the type are
    read by no function of the compiler and are left out. *)
Inductive SchemaObject : Type :=
  mkSchema {
    s_type : option jsstr;
    s_format : option jsstr;
    s_properties : option (list (jsstr * SchemaObject));
    s_items : option SchemaObject;
    s_enum : option (list Json);
    s_default : option Json;
    s_example : option Json;
    s_oneOf : option (list SchemaObject);
    s_anyOf : option (list SchemaObject);
    s_allOf : option (list SchemaObject);
    s_additionalProperties : option (bool + SchemaObject);
    s_ref : option jsstr
  }.

Inductive ParamLocation : Type := InQuery | InHeader | InPath | InCookie.

Definition location_eqb (a b : ParamLocation) : bool :=
  match a, b with
  | InQuery, InQuery | InHeader, InHeader | InPath, InPath | InCookie, InCookie => true
  | _, _ => false
  end.

Record ParameterObject : Type :=
  mkParameter {
    p_name : jsstr;
    p_in : ParamLocation;
    p_required : option bool;
    p_description : option jsstr;
    p_schema : option SchemaObject;
    p_example : option Json
  }.

Record MediaTypeObject : Type :=
  mkMedia {
    m_schema : option SchemaObject;
    m_example : option Json;
    m_examples : option (Record (option Json))   (* name -> { value?: unknown } *)
  }.

Record ResponseObject : Type :=
  mkResponse {
    r_description : option jsstr;
    r_content : option (Record MediaTypeObject)
  }.

Record RequestBodyObject : Type :=
  mkRequestBody {
    rb_required : option bool;
    rb_content : option (Record MediaTypeObject)
  }.

Record OperationObject : Type :=
  mkOperation {
    o_operationId : option jsstr;
    o_tags : option (list jsstr);
    o_summary : option jsstr;
    o_description : option jsstr;
    o_parameters : option (list ParameterObject);
    o_requestBody : option RequestBodyObject;
    o_responses : Record ResponseObject;
    o_security : option (list (Record (list jsstr)))
  }.

(** [Partial<Record<HttpMethod, OperationObject>> & { parameters? }] *)
Record PathItemObject : Type :=
  mkPathItem {
    pi_parameters : option (list ParameterObject);
    pi_operation : HttpMethod -> option OperationObject
  }.

Record OpenApiSpec : Type :=
  mkSpec {
    spec_schemas : option (Record SchemaObject);   (* components?.schemas *)
    spec_paths : Record PathItemObject
  }.

Record ParsedParameter : Type :=
  mkParsedParameter {
    pp_name : jsstr;
    pp_required : bool;
    pp_location : ParamLocation;
    pp_description : jsstr;
    pp_type : jsstr;
    pp_defaultValue : jsstr
  }.

(** [ParsedOperation].  The fields [app] (which needs the Unicode lower-casing
    of the platform) and [requestBodyTemplate] (the [JSON.stringify] rendering
    of [requestBodyRaw]) are derived from the fields kept here and are not
    part of any property below; they are left out. *)
Record ParsedOperation : Type :=
  mkParsedOperation {
    po_id : jsstr;
    po_tag : jsstr;
    po_method : HttpMethod;
    po_path : jsstr;
    po_summary : jsstr;
    po_description : jsstr;
    po_requiresAuth : bool;
    po_parameters : list ParsedParameter;
    po_requestBodyType : option jsstr;
    po_requestBodyRaw : option Json;
    po_responseCodes : list jsstr;
    po_successExample : Json;
    po_errorExample : Json
  }.

(** ** Schema resolver and example synthesizer (openapi.ts) *)

Definition getRefName (ref : jsstr) : jsstr := last (split 47%N ref) [].

Definition resolveSchema (schema : option SchemaObject)
    (schemas : Record SchemaObject) : option SchemaObject :=
  match schema with
  | None => None
  | Some s =>
      match s_ref s with
      | Some (c :: r) => Some (orElse (lookup (getRefName (c :: r)) schemas) s)
      | _ => Some s                      (* [!schema.$ref] *)
      end
  end.

Definition schemaType (schema : option SchemaObject) : jsstr :=
  match schema with
  | None => lit "string"
  | Some s =>
      match s_enum s with
      | Some (_ :: _) => lit "enum"
      | _ => orElse (s_type s) (lit "string")
      end
  end.

(** Sequencing of results that may be missing: [None] is a fuel that ran
    out, an exception thrown, or the [undefined] of an optional chain. *)
Definition bind {A B : Type} (m : option A) (k : A -> option B) : option B :=
  match m with Some a => k a | None => None end.

Notation "x <- m ;; k" := (bind m (fun x => k))
  (at level 61, m at next level, right associativity).

(** The callback of the [allOf] reduction, on the value of one member. *)
Definition mergeMember (acc : list (jsstr * Json)) (value : Json)
    : list (jsstr * Json) :=
  match value with
  | JObj entries => objAssign acc entries
  | _ => acc
  end.

(** The [string]/[default] arm of the type switch. *)
Definition stringExample (format : option jsstr) : Json :=
  match format with
  | Some f =>
      if jsstr_eqb f (lit "date-time") then JStr (lit "2026-01-01T00:00:00Z")
      else if jsstr_eqb f (lit "date") then JStr (lit "2026-01-01")
      else JStr (lit "string")
  | None => JStr (lit "string")
  end.

Definition typeIs (t : option jsstr) (s : string) : bool :=
  match t with Some x => jsstr_eqb x (lit s) | None => false end.

(** The [switch (resolved.type)] of [buildExampleFromSchema]; [recur x] stands
    for the recursive call [buildExampleFromSchema(x, schemas, depth + 1)]. *)
Definition synthesizeByType (recur : option SchemaObject -> option Json)
    (resolved : SchemaObject) : option Json :=
  if typeIs (s_type resolved) "object" then
    obj <- fold_left
             (fun acc kv =>
                o <- acc ;; value <- recur (Some (snd kv)) ;;
                Some (objSet o (fst kv) value))
             (orElse (s_properties resolved) []) (Some []) ;;
    match obj, s_additionalProperties resolved with
    | [], Some (inr extra) =>
        value <- recur (Some extra) ;;
        Some (JObj (objSet obj (lit "example_key") value))
    | _, _ => Some (JObj obj)
    end
  else if typeIs (s_type resolved) "array" then
    value <- recur (s_items resolved) ;; Some (JArr [value])
  else if typeIs (s_type resolved) "integer"
          || typeIs (s_type resolved) "number" then Some (JNum (lit "1"))
  else if typeIs (s_type resolved) "boolean" then Some (JBool true)
  else Some (stringExample (s_format resolved)).

(** The chain of tests of [buildExampleFromSchema] on the resolved node, from
    [resolved.example] down to the type switch. *)
Definition synthesizeResolved (recur : option SchemaObject -> option Json)
    (resolved : SchemaObject) : option Json :=
  match s_example resolved with
  | Some e => Some e
  | None =>
  match s_default resolved with
  | Some d => Some d
  | None =>
  match s_enum resolved with
  | Some (v :: _) => Some v
  | _ =>
  match s_oneOf resolved with
  | Some (first :: _) => recur (Some first)
  | _ =>
  match s_anyOf resolved with
  | Some (first :: _) => recur (Some first)
  | _ =>
  match s_allOf resolved with
  | Some (m :: ms) =>
      merged <- fold_left
                  (fun acc item =>
                     a <- acc ;; value <- recur (Some item) ;;
                     Some (mergeMember a value))
                  (m :: ms) (Some []) ;;
      Some (JObj merged)
  | _ => synthesizeByType recur resolved
  end end end end end end.

(** The body of [buildExampleFromSchema] once the node is known to exist and
    the depth test has passed. *)
Definition synthesizeNode (recur : option SchemaObject -> option Json)
    (schemas : Record SchemaObject) (schema : SchemaObject) : option Json :=
  synthesizeResolved recur (orElse (resolveSchema (Some schema) schemas) schema).

(** [buildExampleFromSchema] with its [depth] argument as in the source.  The
    recursion of the source is on nothing structural (a reference leads back
    into the schema table), so the embedding counts the nested calls in
    [fuel] and answers [None] when they are used up. *)
Fixpoint buildExampleFromSchema_fuel (fuel : nat) (schema : option SchemaObject)
    (schemas : Record SchemaObject) (depth : nat) : option Json :=
  match fuel with
  | O => None
  | S fuel' =>
      match schema with
      | None => Some (JObj [])
      | Some s =>
          if (5 <? depth)%nat then Some (JObj [])
          else synthesizeNode
                 (fun x => buildExampleFromSchema_fuel fuel' x schemas (depth + 1))
                 schemas s
      end
  end.

(** The function as its callers use it.  Seven nested calls are the most the
    depth cap allows (see [buildExampleFromSchema_terminates] below), so the
    default value is never taken. *)
Definition buildExampleFromSchema (schema : option SchemaObject)
    (schemas : Record SchemaObject) (depth : nat) : Json :=
  orElse (buildExampleFromSchema_fuel (S (6 - depth)) schema schemas depth) (JObj []).

(** ** Operation normalizer and catalog builder (openapi.ts) *)

Definition SUPPORTED_METHODS : list HttpMethod :=
  [GET; POST; PUT; PATCH; DELETE; OPTIONS; HEAD; TRACE].

Definition getExampleFromMedia (content : option (Record MediaTypeObject))
    (schemas : Record SchemaObject) : option Json :=
  match content with
  | None => None
  | Some c =>
      match values c with
      | [] => None
      | firstMedia :: _ =>
          match m_example firstMedia with
          | Some e => Some e
          | None =>
              let examples :=
                match m_examples firstMedia with
                | Some ex => values ex
                | None => []
                end in
              match examples with
              | Some firstExample :: _ => Some firstExample
              | _ =>
                  Some (buildExampleFromSchema
                          (resolveSchema (m_schema firstMedia) schemas) schemas 0)
              end
          end
      end
  end.

Definition defaultValueForParameter (param : ParameterObject)
    (schemas : Record SchemaObject) : jsstr :=
  match p_example param with
  | Some e => jsString e
  | None =>
      let resolved := resolveSchema (p_schema param) schemas in
      match bind resolved s_example with
      | Some e => jsString e
      | None =>
      match bind resolved s_default with
      | Some d => jsString d
      | None =>
      match bind resolved s_enum with
      | Some (v :: _) => jsString v
      | _ =>
          let type := schemaType resolved in
          if jsstr_eqb type (lit "integer") || jsstr_eqb type (lit "number")
          then lit "1"
          else if jsstr_eqb type (lit "boolean") then lit "true"
          else []
      end end end
  end.

Definition responseExample (responses : Record ResponseObject)
    (preferredCode : jsstr) (schemas : Record SchemaObject) : Json :=
  let preferred := lookup preferredCode responses in
  match getExampleFromMedia (bind preferred r_content) schemas with
  | Some fromPreferred => fromPreferred
  | None =>
      let first := hd_error (values responses) in
      match getExampleFromMedia (bind first r_content) schemas with
      | Some fromFirst => fromFirst
      | None => JObj []
      end
  end.

(** [list.findIndex(pred)]: the index of the first match, or [-1]. *)
Fixpoint findIndexFrom {T : Type} (pred : T -> bool) (i : Z) (l : list T) : Z :=
  match l with
  | [] => (-1)%Z
  | x :: r => if pred x then i else findIndexFrom pred (i + 1)%Z r
  end.

Definition findIndex {T : Type} (pred : T -> bool) (l : list T) : Z :=
  findIndexFrom pred 0%Z l.

(** [list.filter((element, index) => keep element index)] *)
Fixpoint filterIndexedFrom {T : Type} (keep : T -> Z -> bool) (i : Z)
    (l : list T) : list T :=
  match l with
  | [] => []
  | x :: r =>
      if keep x i then x :: filterIndexedFrom keep (i + 1)%Z r
      else filterIndexedFrom keep (i + 1)%Z r
  end.

Definition sameParameter (param candidate : ParameterObject) : bool :=
  jsstr_eqb (p_name candidate) (p_name param)
  && location_eqb (p_in candidate) (p_in param).

Definition mergedParameters (pathItem : PathItemObject) (op : OperationObject)
    : list ParameterObject :=
  orElse (pi_parameters pathItem) [] ++ orElse (o_parameters op) [].

Definition uniqueParameters (merged : list ParameterObject) : list ParameterObject :=
  filterIndexedFrom
    (fun param index => (findIndex (sameParameter param) merged =? index)%Z)
    0%Z merged.

Definition parseParameter (schemas : Record SchemaObject) (param : ParameterObject)
    : ParsedParameter :=
  let resolved := resolveSchema (p_schema param) schemas in
  {| pp_name := p_name param;
     pp_required := orElse (p_required param) false;      (* [Boolean(..)] *)
     pp_location := p_in param;
     pp_description := englishOnlyText (orElse (p_description param) []);
     pp_type := schemaType resolved;
     pp_defaultValue := defaultValueForParameter param schemas |}.

Definition includes (codes : list jsstr) (code : jsstr) : bool :=
  existsb (jsstr_eqb code) codes.

Definition startsWith (c : codeUnit) (s : jsstr) : bool :=
  match s with x :: _ => (x =? c)%N | [] => false end.

Definition successCodeOf (responseCodes : list jsstr) : jsstr :=
  if includes responseCodes (lit "200") then lit "200"
  else orElse (hd_error responseCodes) (lit "200").

(** [code.startsWith("4") || code.startsWith("5")] *)
Definition isErrorCode (code : jsstr) : bool :=
  startsWith 52%N code || startsWith 53%N code.

Definition errorCodeOf (responseCodes : list jsstr) : jsstr :=
  if includes responseCodes (lit "422") then lit "422"
  else orElse (find isErrorCode responseCodes) (successCodeOf responseCodes).

(** [Boolean(op.security)]: an array, empty or not, is truthy. *)
Definition requiresAuthOf (security : option (list (Record (list jsstr)))) : bool :=
  match security with Some _ => true | None => false end.

(** The body of the inner loop of [parseOperations]: the record pushed for the
    operation [op] found under [pathItem[method]]. *)
Definition normalizeOperation (schemas : Record SchemaObject) (path : jsstr)
    (pathItem : PathItemObject) (method : HttpMethod) (op : OperationObject)
    : ParsedOperation :=
  let tag := orElse (hd_error (orElse (o_tags op) [])) (lit "Other") in
  let id := orElse (o_operationId op) (methodName method ++ lit "_" ++ path) in
  let parameters :=
    map (parseParameter schemas) (uniqueParameters (mergedParameters pathItem op)) in
  let content := bind (o_requestBody op) rb_content in
  let requestBodyType := bind content (fun c => hd_error (keys c)) in
  let requestBodyRaw := getExampleFromMedia content schemas in
  let responseCodes := keys (o_responses op) in
  let successCode := successCodeOf responseCodes in
  let errorCode := errorCodeOf responseCodes in
  {| po_id := id;
     po_tag := tag;
     po_method := method;
     po_path := path;
     po_summary := englishOnlyText (orElse (o_summary op) id);
     po_description := englishOnlyText (orElse (o_description op) []);
     po_requiresAuth := requiresAuthOf (o_security op);
     po_parameters := parameters;
     po_requestBodyType := requestBodyType;
     po_requestBodyRaw := requestBodyRaw;
     po_responseCodes := responseCodes;
     po_successExample := responseExample (o_responses op) successCode schemas;
     po_errorExample := responseExample (o_responses op) errorCode schemas |}.

(** The two nested loops: the operations in the order they are pushed. *)
Definition collectOperations (spec : OpenApiSpec) : list ParsedOperation :=
  let schemas := orElse (spec_schemas spec) [] in
  flat_map
    (fun entry =>
       flat_map
         (fun method =>
            match pi_operation (snd entry) method with
            | None => []
            | Some op => [normalizeOperation schemas (fst entry) (snd entry) method op]
            end)
         SUPPORTED_METHODS)
    (spec_paths spec).

Section Catalog.

(** [a.localeCompare(b)] is the collation of the host; it is a parameter. *)
Variable localeCompare : jsstr -> jsstr -> Z.

(** The comparison function handed to [sort]. *)
Definition compareOperations (a b : ParsedOperation) : Z :=
  if negb (jsstr_eqb (po_tag a) (po_tag b)) then localeCompare (po_tag a) (po_tag b)
  else if negb (jsstr_eqb (po_path a) (po_path b))
       then localeCompare (po_path a) (po_path b)
  else localeCompare (methodName (po_method a)) (methodName (po_method b)).

(** [Array.prototype.sort] is a stable sort; for a consistent comparison
    function its result is the one of stable insertion. *)
Fixpoint insertOperation (x : ParsedOperation) (sorted : list ParsedOperation)
    : list ParsedOperation :=
  match sorted with
  | [] => [x]
  | y :: r =>
      if (compareOperations x y <=? 0)%Z then x :: y :: r
      else y :: insertOperation x r
  end.

Definition sortOperations (l : list ParsedOperation) : list ParsedOperation :=
  fold_right insertOperation [] l.

Definition parseOperations (spec : OpenApiSpec) : list ParsedOperation :=
  sortOperations (collectOperations spec).

End Catalog.

(** ** URL construction (snippets.ts) *)

Definition isAlnum (c : codeUnit) : bool :=
  in_range 48 57 c || in_range 65 90 c || in_range 97 122 c.

(** The code units [encodeURIComponent] leaves alone: [A-Za-z0-9-_.!~*'()]. *)
Definition isUnreserved (c : codeUnit) : bool :=
  isAlnum c || existsb (N.eqb c) [45; 95; 46; 33; 126; 42; 39; 40; 41]%N.

Definition isLeadSurrogate (c : codeUnit) : bool := in_range 55296 56319 c.
Definition isTrailSurrogate (c : codeUnit) : bool := in_range 56320 57343 c.

Definition surrogatePair (lead trail : codeUnit) : N :=
  ((lead - 55296) * 1024 + (trail - 56320) + 65536)%N.

(** The octets of the UTF-8 encoding of a code point. *)
Definition utf8 (cp : N) : list N :=
  if (cp <? 128)%N then [cp]
  else if (cp <? 2048)%N then [192 + cp / 64; 128 + cp mod 64]%N
  else if (cp <? 65536)%N then
    [224 + cp / 4096; 128 + (cp / 64) mod 64; 128 + cp mod 64]%N
  else
    [240 + cp / 262144; 128 + (cp / 4096) mod 64; 128 + (cp / 64) mod 64;
     128 + cp mod 64]%N.

Definition hexDigit (d : N) : codeUnit :=
  if (d <? 10)%N then (48 + d)%N else (55 + d)%N.

(** An octet as [%XX], in upper-case hexadecimal. *)
Definition percentOctet (b : N) : jsstr :=
  [37%N; hexDigit (b / 16); hexDigit (b mod 16)].

Definition percentOctets (octets : list N) : jsstr := flat_map percentOctet octets.

(** [encodeURIComponent(s)]; [None] is the [URIError] that the function
    throws on an unpaired surrogate. *)
Fixpoint encodeURIComponent (s : jsstr) : option jsstr :=
  match s with
  | [] => Some []
  | c :: r =>
      if isUnreserved c then
        rest <- encodeURIComponent r ;; Some (c :: rest)
      else if isLeadSurrogate c then
        match r with
        | d :: r' =>
            if isTrailSurrogate d then
              rest <- encodeURIComponent r' ;;
              Some (percentOctets (utf8 (surrogatePair c d)) ++ rest)
            else None
        | [] => None
        end
      else if isTrailSurrogate c then None
      else
        rest <- encodeURIComponent r ;; Some (percentOctets (utf8 c) ++ rest)
  end.

(** [path.replace(/\{([^}]+)\}/g, (_, key) => callback key)], scanned from the
    left.  [pending = Some key] means that an opening brace was read and [key]
    is what follows it so far: a match ends at the first closing brace after
    at least one code unit; [{}] and an opening brace that is never closed
    match nothing and stay as they are. *)
Fixpoint replacePlaceholders (callback : jsstr -> option jsstr)
    (pending : option jsstr) (s : jsstr) : option jsstr :=
  match s, pending with
  | [], None => Some []
  | [], Some key => Some (123%N :: key)
  | c :: r, None =>
      if (c =? 123)%N then replacePlaceholders callback (Some []) r
      else rest <- replacePlaceholders callback None r ;; Some (c :: rest)
  | c :: r, Some key =>
      if (c =? 125)%N then
        match key with
        | [] =>
            rest <- replacePlaceholders callback None r ;;
            Some (123%N :: 125%N :: rest)
        | _ :: _ =>
            value <- callback key ;;
            rest <- replacePlaceholders callback None r ;;
            Some (value ++ rest)
        end
      else replacePlaceholders callback (Some (key ++ [c])) r
  end.

(** The replacement callback of [buildUrl]. *)
Definition pathParamValue (pathValues : Record jsstr) (key : jsstr) : option jsstr :=
  encodeURIComponent
    (orElse (lookup key pathValues) (lit "{" ++ key ++ lit "}")).

Definition withPathParams (path : jsstr) (pathValues : Record jsstr) : option jsstr :=
  replacePlaceholders (pathParamValue pathValues) None path.

(** Conversion of a string argument of [URLSearchParams.set] to scalar
    values: an unpaired surrogate becomes U+FFFD. *)
Fixpoint scalarValues (s : jsstr) : list N :=
  match s with
  | [] => []
  | c :: r =>
      if isLeadSurrogate c then
        match r with
        | d :: r' =>
            if isTrailSurrogate d then surrogatePair c d :: scalarValues r'
            else 65533%N :: scalarValues r
        | [] => [65533%N]
        end
      else if isTrailSurrogate c then 65533%N :: scalarValues r
      else c :: scalarValues r
  end.

(** The application/x-www-form-urlencoded serialisation of one octet. *)
Definition formOctet (b : N) : jsstr :=
  if (b =? 32)%N then [43%N]
  else if isAlnum b || existsb (N.eqb b) [42; 45; 46; 95]%N then [b]
  else percentOctet b.

Definition formEncode (s : jsstr) : jsstr :=
  flat_map formOctet (flat_map utf8 (scalarValues s)).

(** [query.set(name, value)] *)
Definition searchParamsSet (query : list (jsstr * jsstr)) (name value : jsstr)
    : list (jsstr * jsstr) :=
  match lookup name query with
  | None => query ++ [(name, value)]
  | Some _ =>
      (fix go (seen : bool) (l : list (jsstr * jsstr)) : list (jsstr * jsstr) :=
         match l with
         | [] => []
         | (k, v) :: r =>
             if jsstr_eqb k name then
               if seen then go true r else (k, value) :: go true r
             else (k, v) :: go seen r
         end) false query
  end.

(** [query.toString()] *)
Fixpoint searchParamsToString (query : list (jsstr * jsstr)) : jsstr :=
  match query with
  | [] => []
  | (k, v) :: r =>
      let pair := formEncode k ++ 61%N :: formEncode v in
      match r with
      | [] => pair
      | _ :: _ => pair ++ 38%N :: searchParamsToString r
      end
  end.

(** [baseUrl.replace(/\/$/, "")] *)
Definition dropTrailingSlash (baseUrl : jsstr) : jsstr :=
  match rev baseUrl with
  | c :: r => if (c =? 47)%N then rev r else baseUrl
  | [] => baseUrl
  end.

(** [buildUrl]; [None] is an exception thrown on the way. *)
Definition buildUrl (operation : ParsedOperation) (baseUrl : jsstr)
    (pathValues queryValues : Record jsstr) : option jsstr :=
  path <- withPathParams (po_path operation) pathValues ;;
  let query :=
    fold_left
      (fun q p =>
         match lookup (pp_name p) queryValues with
         | Some (c :: val) => searchParamsSet q (pp_name p) (c :: val)
         | _ => q
         end)
      (filter (fun p => location_eqb (pp_location p) InQuery)
         (po_parameters operation))
      [] in
  let queryString := searchParamsToString query in
  Some (dropTrailingSlash baseUrl ++ path
        ++ (if str_truthy queryString then 63%N :: queryString else [])).

(** ** The network relay (api/proxy.ts) *)

Definition ALLOWED_HOSTS : list jsstr := [lit "api.tikhub.io"; lit "api.tikhub.dev"].
Definition ALLOWED_METHODS : list jsstr :=
  [lit "GET"; lit "POST"; lit "PUT"; lit "PATCH"; lit "DELETE"].

(** [ProxyPayload]; a [body] that is [null] or absent is [None]. *)
Record ProxyPayload : Type :=
  mkPayload {
    url : option jsstr;
    method : option jsstr;
    headers : option (Record jsstr);
    body : option jsstr
  }.

(** What the handlers read of a parsed [URL]. *)
Record URL : Type :=
  mkURL { protocol : jsstr; hostname : jsstr; href : jsstr }.

Record RequestInit : Type :=
  mkInit {
    init_method : jsstr;
    init_headers : Record jsstr;
    init_body : option jsstr
  }.

(** How a call of [fetch] followed by [upstream.text()] ends. *)
Inductive FetchOutcome : Type :=
| Upstream (status : Z) (text : jsstr) (contentType : option jsstr)
| AbortError
| OtherError.

Record Response : Type :=
  mkResponseOut {
    resp_status : Z;
    resp_body : jsstr;
    resp_headers : list (jsstr * jsstr)
  }.

(** A handler run: the response and the upstream requests made, in order. *)
Definition Run : Type := Response * list (jsstr * RequestInit).

Definition reject (status : Z) (text : string) : Run :=
  ({| resp_status := status; resp_body := lit text; resp_headers := [] |}, []).

Section Relay.

(** The platform the handlers run on. *)
Variable JSON_parse : jsstr -> option ProxyPayload.   (* [None]: it throws *)
Variable parseURL : jsstr -> option URL.              (* [new URL(..)] *)
Variable toUpperCase : jsstr -> jsstr.
Variable toLowerCase : jsstr -> jsstr.
Variable fetch : jsstr -> RequestInit -> FetchOutcome.

Definition hostAllowed (targetUrl : URL) : bool :=
  jsstr_eqb (protocol targetUrl) (lit "https:")
  && existsb (jsstr_eqb (hostname targetUrl)) ALLOWED_HOSTS.

(** [normalizeHeaders].  The second handler also skips a value that is not a
    string; with the header map typed [Record<string, string>] that test is
    never taken. *)
Definition normalizeHeaders (input : option (Record jsstr)) : Record jsstr :=
  match input with
  | None => []
  | Some entries =>
      fold_left
        (fun output entry =>
           let key := toLowerCase (fst entry) in
           if jsstr_eqb key (lit "host") || jsstr_eqb key (lit "origin")
              || jsstr_eqb key (lit "content-length")
           then output
           else objSet output (fst entry) (snd entry))
        entries []
  end.

(** The part that both handlers share word for word: from the decoded payload
    to the request that is to be forwarded, or the rejection. *)
Definition validate (payload : ProxyPayload) : Run + (URL * RequestInit) :=
  match option_map trim (url payload) with
  | Some (c :: urlText) =>
      match parseURL (c :: urlText) with
      | None => inl (reject 400 "Invalid target URL")
      | Some targetUrl =>
          if negb (hostAllowed targetUrl)
          then inl (reject 403 "Target host is not allowed")
          else
            let method := toUpperCase (orElse (method payload) (lit "GET")) in
            if negb (existsb (jsstr_eqb method) ALLOWED_METHODS)
            then inl (reject 405 "Method is not allowed")
            else
              inr (targetUrl,
                   {| init_method := method;
                      init_headers := normalizeHeaders (headers payload);
                      init_body :=
                        match body payload with
                        | Some text =>
                            if negb (jsstr_eqb method (lit "GET")) then Some text
                            else None
                        | None => None
                        end |})
      end
  | _ => inl (reject 400 "Missing target URL")
  end.

Definition upstreamHeaders (contentType : option jsstr) : list (jsstr * jsstr) :=
  match contentType with
  | Some (c :: ct) => [(lit "content-type", c :: ct); (lit "cache-control", lit "no-store")]
  | _ => [(lit "cache-control", lit "no-store")]
  end.

(** [new Response(body, { status })] with a body that is a string throws
    unless the status is in 200..599 and is not a null-body status. *)
Definition responseConstructible (status : Z) : bool :=
  (200 <=? status)%Z && (status <=? 599)%Z
  && negb (existsb (Z.eqb status) [204; 205; 304]%Z).

(** The first handler of the file: a [Request] with its method and body text.
    The response is built inside the [try], so that a failure to build it is
    answered like a failed upstream request. *)
Definition handler_fetch_api (requestMethod : jsstr) (requestBody : jsstr) : Run :=
  if negb (jsstr_eqb requestMethod (lit "POST")) then reject 405 "Method Not Allowed"
  else
    match JSON_parse requestBody with
    | None => reject 400 "Invalid JSON payload"
    | Some payload =>
        match validate payload with
        | inl rejected => rejected
        | inr (targetUrl, init) =>
            let failed :=
              {| resp_status := 502; resp_body := lit "Upstream request failed";
                 resp_headers := [] |} in
            let response :=
              match fetch (href targetUrl) init with
              | Upstream status text contentType =>
                  if responseConstructible status then
                    {| resp_status := status; resp_body := text;
                       resp_headers := upstreamHeaders contentType |}
                  else failed
              | _ => failed
              end in
            (response, [(href targetUrl, init)])
        end
    end.

(** The body of the request of the second handler. *)
Inductive RequestBody : Type :=
| BodyText (text : jsstr)
| BodyObject (payload : ProxyPayload)
| BodyAbsent.

(** The second handler of the file: [(req, res)], with the time limit. *)
Definition handler (requestMethod : option jsstr) (requestBody : RequestBody) : Run :=
  if negb (match requestMethod with
           | Some m => jsstr_eqb m (lit "POST")
           | None => false
           end)
  then reject 405 "Method Not Allowed"
  else
    let parsed :=
      match requestBody with
      | BodyText text => JSON_parse text
      | BodyObject payload => Some payload
      | BodyAbsent => Some (mkPayload None None None None)
      end in
    match parsed with
    | None => reject 400 "Invalid JSON payload"
    | Some payload =>
        match validate payload with
        | inl rejected => rejected
        | inr (targetUrl, init) =>
            let response :=
              match fetch (href targetUrl) init with
              | Upstream status text contentType =>
                  {| resp_status := status; resp_body := text;
                     resp_headers := upstreamHeaders contentType |}
              | AbortError =>
                  {| resp_status := 504;
                     resp_body := lit "Upstream request timed out";
                     resp_headers := [] |}
              | OtherError =>
                  {| resp_status := 502; resp_body := lit "Upstream request failed";
                     resp_headers := [] |}
              end in
            (response, [(href targetUrl, init)])
        end
    end.

End Relay.

(** ** Vocabulary of the properties *)

(** The identity test on normalized parameters. *)
Definition hasIdentity (n : jsstr) (loc : ParamLocation) (q : ParsedParameter) : bool :=
  jsstr_eqb (pp_name q) n && location_eqb (pp_location q) loc.


(** [!list?.length]: the field is absent or the list is empty. *)
Definition noList {T : Type} (field : option (list T)) : Prop :=
  field = None \/ field = Some [].

(** The (path, method, operation) triples in the order of the walk. *)
Definition declaredOperations (spec : OpenApiSpec)
    : list (jsstr * HttpMethod * OperationObject) :=
  flat_map
    (fun entry =>
       flat_map
         (fun method =>
            match pi_operation (snd entry) method with
            | None => []
            | Some op => [(fst entry, method, op)]
            end)
         SUPPORTED_METHODS)
    (spec_paths spec).

(** [`${method}_${path}`] *)
Definition synthesizedId (method : HttpMethod) (path : jsstr) : jsstr :=
  methodName method ++ lit "_" ++ path.

(** The operation identifiers that the document declares, in walk order. *)
Definition explicitIds (spec : OpenApiSpec) : list jsstr :=
  flat_map
    (fun d => match o_operationId (snd d) with
              | Some id => [id]
              | None => []
              end)
    (declaredOperations spec).

(** The identifiers synthesized for the operations that declare none. *)
Definition synthesizedIds (spec : OpenApiSpec) : list jsstr :=
  flat_map
    (fun d => match o_operationId (snd d) with
              | Some _ => []
              | None => [synthesizedId (snd (fst d)) (fst (fst d))]
              end)
    (declaredOperations spec).

(** The identifiers synthesized under one path item. *)
Definition synthesizedUnder (entry : jsstr * PathItemObject)
    (methods : list HttpMethod) : list jsstr :=
  flat_map
    (fun method =>
       match pi_operation (snd entry) method with
       | Some op =>
           match o_operationId op with
           | Some _ => []
           | None => [synthesizedId method (fst entry)]
           end
       | None => []
       end)
    methods.

Section SortKey.

Variable localeCompare : jsstr -> jsstr -> Z.

(** [x] comes strictly before [y] in the collation. *)
Definition precedes (x y : jsstr) : Prop := (localeCompare x y < 0)%Z.

(** (a.tag, a.path, a.method) <= (b.tag, b.path, b.method), lexicographically
    on the triple, each component in the order of the collation: the first
    component in which the two differ puts [a] strictly before [b]. *)
Definition keyLe (a b : ParsedOperation) : Prop :=
  precedes (po_tag a) (po_tag b)
  \/ (po_tag a = po_tag b
      /\ (precedes (po_path a) (po_path b)
          \/ (po_path a = po_path b
              /\ (po_method a = po_method b
                  \/ precedes (methodName (po_method a))
                       (methodName (po_method b)))))).

(** The collation is a strict total order on the strings of a list: no two
    different strings tie, the sign of a comparison turns with its arguments,
    and the order is transitive.  (The collation of a host may tie different
    strings, canonically equivalent ones for instance; the sort callback then
    returns 0 without looking at the next component.) *)
Definition isTotalOrderOn (strings : list jsstr) : Prop :=
  (forall x y, In x strings -> In y strings -> localeCompare x y = 0%Z -> x = y)
  /\ (forall x y, In x strings -> In y strings ->
        ((localeCompare x y < 0)%Z <-> (0 < localeCompare y x)%Z))
  /\ (forall x y z, In x strings -> In y strings -> In z strings ->
        (localeCompare x y < 0)%Z -> (localeCompare y z < 0)%Z ->
        (localeCompare x z < 0)%Z).

End SortKey.

(** The strings that the sort of the catalog compares. *)
Definition catalogStrings (spec : OpenApiSpec) : list jsstr :=
  flat_map (fun o => [po_tag o; po_path o; methodName (po_method o)])
    (collectOperations spec).

(** The tag, the path and the method name of an operation are among the
    strings. *)
Definition keysIn (strings : list jsstr) (o : ParsedOperation) : Prop :=
  In (po_tag o) strings /\ In (po_path o) strings
  /\ In (methodName (po_method o)) strings.



(** ** Concrete inputs and a platform for the examples *)

(** The text of the spec's example, U+4EC5 U+4E2D U+6587. *)
Definition cjkOnlyText : jsstr := [20165; 20013; 25991]%N.

(** A parameter that declares a name, a location and perhaps [required]. *)
Definition parameterOf (n : string) (loc : ParamLocation) (req : option bool)
    : ParameterObject :=
  {| p_name := lit n; p_in := loc; p_required := req; p_description := None;
     p_schema := None; p_example := None |}.

(** An operation that declares only its identifier, its parameters, its
    responses and its security requirements. *)
Definition operationOf (operationId : option jsstr)
    (params : option (list ParameterObject)) (responses : Record ResponseObject)
    (security : option (list (Record (list jsstr)))) : OperationObject :=
  {| o_operationId := operationId; o_tags := None; o_summary := None;
     o_description := None; o_parameters := params; o_requestBody := None;
     o_responses := responses; o_security := security |}.

(** A path item with one operation, under [get]. *)
Definition pathItemOf (params : option (list ParameterObject)) (op : OperationObject)
    : PathItemObject :=
  {| pi_parameters := params;
     pi_operation := fun m => match m with GET => Some op | _ => None end |}.

(** The path and the operation of the spec's "parameter dedup" example. *)
Definition dedupOperation : OperationObject :=
  operationOf None (Some [parameterOf "id" InPath (Some true)]) [] None.

Definition dedupPathItem : PathItemObject :=
  pathItemOf (Some [parameterOf "id" InPath None]) dedupOperation.

(** An operation that declares an empty security-requirement list. *)
Definition emptySecurityOperation : OperationObject :=
  operationOf None None [] (Some []).

(** A schema that declares nothing. *)
Definition emptySchema : SchemaObject :=
  {| s_type := None; s_format := None; s_properties := None; s_items := None;
     s_enum := None; s_default := None; s_example := None; s_oneOf := None;
     s_anyOf := None; s_allOf := None; s_additionalProperties := None;
     s_ref := None |}.

Definition refTo (n : string) : SchemaObject :=
  {| s_type := None; s_format := None; s_properties := None; s_items := None;
     s_enum := None; s_default := None; s_example := None; s_oneOf := None;
     s_anyOf := None; s_allOf := None; s_additionalProperties := None;
     s_ref := Some (lit "#/components/schemas/" ++ lit n) |}.

Definition objectWith (props : list (jsstr * SchemaObject)) : SchemaObject :=
  {| s_type := Some (lit "object"); s_format := None; s_properties := Some props;
     s_items := None; s_enum := None; s_default := None; s_example := None;
     s_oneOf := None; s_anyOf := None; s_allOf := None;
     s_additionalProperties := None; s_ref := None |}.

(** A schema table with a self-referential schema and a cycle of two:
    [Node = { child: Node }], [Ping = { pong: Pong }], [Pong = { ping: Ping }]. *)
Definition cyclicSchemas : Record SchemaObject :=
  [ (lit "Node", objectWith [(lit "child", refTo "Node")]);
    (lit "Ping", objectWith [(lit "pong", refTo "Pong")]);
    (lit "Pong", objectWith [(lit "ping", refTo "Ping")]) ].

(** [n] nested objects under the key [key], around the empty object. *)
Fixpoint nested (key : jsstr) (n : nat) : Json :=
  match n with
  | O => JObj []
  | S m => JObj [(key, nested key m)]
  end.

(** A schema with an explicit example, a default and an enumeration. *)
Definition annotatedSchema : SchemaObject :=
  {| s_type := Some (lit "string"); s_format := None; s_properties := None;
     s_items := None; s_enum := Some [JStr (lit "c")];
     s_default := Some (JStr (lit "b")); s_example := Some (JStr (lit "a"));
     s_oneOf := None; s_anyOf := None; s_allOf := None;
     s_additionalProperties := None; s_ref := None |}.

(** A response whose first media entry carries an explicit example. *)
Definition responseWith (example : string) : ResponseObject :=
  {| r_description := None;
     r_content :=
       Some [(lit "application/json",
              {| m_schema := None; m_example := Some (JStr (lit example));
                 m_examples := None |})] |}.

(** The operation of the spec's "success/error example fallback" example:
    only ["201"] and ["500"] are declared. *)
Definition createdOrFailed : OperationObject :=
  operationOf None None
    [(lit "201", responseWith "created"); (lit "500", responseWith "failed")] None.

(** A collation to run the catalog with: code units compared in order. *)
Fixpoint codeUnitCompare (x y : jsstr) : Z :=
  match x, y with
  | [], [] => 0
  | [], _ :: _ => -1
  | _ :: _, [] => 1
  | c :: x', d :: y' =>
      if (c <? d)%N then -1 else if (d <? c)%N then 1 else codeUnitCompare x' y'
  end.

(** A document in which two operations declare the operation identifier
    ["dup"]. *)
Definition duplicateIdSpec : OpenApiSpec :=
  {| spec_schemas := None;
     spec_paths :=
       [ (lit "/a", pathItemOf None (operationOf (Some (lit "dup")) None [] None));
         (lit "/b", pathItemOf None (operationOf (Some (lit "dup")) None [] None)) ] |}.

(** A document with three operations under two paths, declared out of order. *)
Definition sampleSpec : OpenApiSpec :=
  {| spec_schemas := None;
     spec_paths :=
       [ (lit "/users",
          {| pi_parameters := None;
             pi_operation := fun m =>
               match m with
               | GET => Some (operationOf (Some (lit "listUsers")) None [] None)
               | POST => Some (operationOf None None [] None)
               | _ => None
               end |});
         (lit "/items", pathItemOf None (operationOf None None [] None)) ] |}.

(** The relay request of the spec's example, and a platform to run it on:
    the URL parser knows this one URL. *)
Definition evilPayload : ProxyPayload :=
  {| url := Some (lit "https://evil.example.com/x"); method := Some (lit "delete");
     headers := Some [(lit "Host", lit "api.tikhub.io")];
     body := Some (lit "{}") |}.

Definition evilUrl : URL :=
  {| protocol := lit "https:"; hostname := lit "evil.example.com";
     href := lit "https://evil.example.com/x" |}.

Definition parseEvilUrl (text : jsstr) : option URL :=
  if jsstr_eqb text (lit "https://evil.example.com/x") then Some evilUrl else None.

Definition disallowedHostResponse : Run :=
  ({| resp_status := 403; resp_body := lit "Target host is not allowed";
      resp_headers := [] |}, []).



(** ** Further functions of openapi.ts *)

(** [s.startsWith(prefix)] *)
Fixpoint startsWithText (prefix s : jsstr) : bool :=
  match prefix, s with
  | [], _ => true
  | _ :: _, [] => false
  | p :: prefix', c :: s' => (p =? c)%N && startsWithText prefix' s'
  end.

(** [s.includes(sub)] *)
Fixpoint includesText (sub s : jsstr) : bool :=
  startsWithText sub s
  || match s with
     | [] => false
     | _ :: r => includesText sub r
     end.

Definition BASE_URL_IO : jsstr := lit "https://api.tikhub.io".
Definition BASE_URL_DEV : jsstr := lit "https://api.tikhub.dev".
Definition DEFAULT_BASE_URLS : list jsstr := [BASE_URL_IO; BASE_URL_DEV].

(** [text.match(/https:\/\/api\.tikhub\.(?:io|dev)/g)]: the matches from left
    to right; after a match the scan goes on behind it, which [skip] counts. *)
Fixpoint matchBaseUrls (skip : nat) (s : jsstr) : list jsstr :=
  match s with
  | [] => []
  | _ :: r =>
      match skip with
      | S k => matchBaseUrls k r
      | O =>
          if startsWithText BASE_URL_IO s
          then BASE_URL_IO :: matchBaseUrls (length BASE_URL_IO - 1) r
          else if startsWithText BASE_URL_DEV s
          then BASE_URL_DEV :: matchBaseUrls (length BASE_URL_DEV - 1) r
          else matchBaseUrls 0 r
      end
  end.

(** [[...new Set(list)]]: the first occurrence of each string, in order. *)
Definition uniqueStrings (l : list jsstr) : list jsstr :=
  fold_left (fun seen x => if includes seen x then seen else seen ++ [x]) l [].

Definition parseBaseUrls (infoDescription : option jsstr) : list jsstr :=
  match infoDescription with
  | Some (c :: text) =>
      match uniqueStrings (matchBaseUrls 0 (c :: text)) with
      | [] => DEFAULT_BASE_URLS
      | u :: unique => u :: unique
      end
  | _ => DEFAULT_BASE_URLS
  end.

Definition APP_KEYWORDS : list (jsstr * list jsstr) :=
  [ (lit "TikTok", [lit "tiktok"]); (lit "Douyin", [lit "douyin"]);
    (lit "Instagram", [lit "instagram"]); (lit "Xiaohongshu", [lit "xiaohongshu"]);
    (lit "Lemon8", [lit "lemon8"]); (lit "YouTube", [lit "youtube"]);
    (lit "Twitter", [lit "twitter"]); (lit "Threads", [lit "threads"]);
    (lit "Reddit", [lit "reddit"]); (lit "Bilibili", [lit "bilibili"]);
    (lit "Kuaishou", [lit "kuaishou"]); (lit "Weibo", [lit "weibo"]);
    (lit "WeChat", [lit "wechat"]); (lit "Zhihu", [lit "zhihu"]);
    (lit "Sora2", [lit "sora2"]); (lit "Toutiao", [lit "toutiao"]);
    (lit "Xigua", [lit "xigua"]); (lit "Pipixia", [lit "pipixia"]);
    (lit "LinkedIn", [lit "linkedin"]);
    (lit "TikHub Core",
     [lit "tikhub"; lit "health"; lit "demo"; lit "temp_mail"; lit "temp-mail"]) ].

Section InferApp.

(** [String.prototype.toLowerCase] is the case mapping of the host. *)
Variable toLowerCase : jsstr -> jsstr.

Definition inferApp (tag path operationId : jsstr) : jsstr :=
  let raw := toLowerCase (tag ++ lit " " ++ path ++ lit " " ++ operationId) in
  match find (fun candidate => existsb (fun key => includesText key raw) (snd candidate))
          APP_KEYWORDS with
  | Some candidate => fst candidate
  | None => lit "Other"
  end.

End InferApp.

(** ** Further functions of snippets.ts *)

Definition authKey (globalApiKey : jsstr) (endpointApiKey : option jsstr) : jsstr :=
  match option_map trim endpointApiKey with
  | Some (c :: key) => c :: key
  | _ => trim globalApiKey
  end.

(** [list.map(f)] with a callback that may throw: the first exception ends
    the loop. *)
Fixpoint mapThrowing {A B : Type} (f : A -> option B) (l : list A) : option (list B) :=
  match l with
  | [] => Some []
  | x :: r => y <- f x ;; ys <- mapThrowing f r ;; Some (y :: ys)
  end.

(** [parts.join(sep)] *)
Fixpoint join (sep : jsstr) (parts : list jsstr) : jsstr :=
  match parts with
  | [] => []
  | p :: r =>
      match r with
      | [] => p
      | _ :: _ => p ++ sep ++ join sep r
      end
  end.

(** The callback of the [map] in [buildCookieHeader]. *)
Definition cookiePair (cookieValues : Record jsstr) (param : ParsedParameter)
    : option jsstr :=
  match option_map trim (lookup (pp_name param) cookieValues) with
  | Some (c :: value) =>
      n <- encodeURIComponent (pp_name param) ;;
      v <- encodeURIComponent (c :: value) ;;
      Some (n ++ lit "=" ++ v)
  | _ => Some []
  end.

Definition buildCookieHeader (operation : ParsedOperation)
    (cookieValues : Record jsstr) : option jsstr :=
  cookiePairs <- mapThrowing (cookiePair cookieValues)
                   (filter (fun param => location_eqb (pp_location param) InCookie)
                      (po_parameters operation)) ;;
  Some (join (lit "; ") (filter str_truthy cookiePairs)).

(** The loop of [buildHeaders] over the header parameters. *)
Definition addHeaderParameters (operation : ParsedOperation)
    (headerValues : Record jsstr) (headers : Record jsstr) : Record jsstr :=
  fold_left
    (fun acc param =>
       if negb (location_eqb (pp_location param) InHeader) then acc
       else match option_map trim (lookup (pp_name param) headerValues) with
            | Some (c :: value) => objSet acc (pp_name param) (c :: value)
            | _ => acc
            end)
    (po_parameters operation) headers.

Definition buildHeaders (operation : ParsedOperation) (key : jsstr)
    (headerValues cookieValues : Record jsstr) : option (Record jsstr) :=
  let headers := [(lit "accept", lit "application/json")] in
  let headers :=
    if po_requiresAuth operation
    then objSet headers (lit "Authorization")
           (lit "Bearer " ++ (if str_truthy key then key else lit "YOUR_API_KEY"))
    else headers in
  let headers :=
    match po_requestBodyType operation with
    | Some (c :: type) => objSet headers (lit "Content-Type") (c :: type)
    | _ => headers
    end in
  let headers := addHeaderParameters operation headerValues headers in
  cookieHeader <- buildCookieHeader operation cookieValues ;;
  Some (if str_truthy cookieHeader then objSet headers (lit "Cookie") cookieHeader
        else headers).

Definition hasJsonBody (operation : ParsedOperation) (bodyText : jsstr) : bool :=
  match po_requestBodyType operation with
  | Some type => includesText (lit "json") type && (0 <? length (trim bodyText))%nat
  | None => false
  end.

(** ** A caller of the compiler (App.tsx) *)

(** [initialParamValues]: the default values of the parameters of one
    location, by name. *)
Definition initialParamValues (operation : ParsedOperation) (loc : ParamLocation)
    : Record jsstr :=
  fold_left (fun acc param => objSet acc (pp_name param) (pp_defaultValue param))
    (filter (fun param => location_eqb (pp_location param) loc)
       (po_parameters operation))
    [].

(** ** Further vocabulary *)

(** The query that [buildUrl] hands to [URLSearchParams]: the [forEach] over
    the query parameters. *)
Definition queryOf (operation : ParsedOperation) (queryValues : Record jsstr)
    : list (jsstr * jsstr) :=
  fold_left
    (fun q p =>
       match lookup (pp_name p) queryValues with
       | Some (c :: val) => searchParamsSet q (pp_name p) (c :: val)
       | _ => q
       end)
    (filter (fun p => location_eqb (pp_location p) InQuery)
       (po_parameters operation))
    [].

(** How often a code unit occurs in a string. *)
Definition occurrences (c : codeUnit) (s : jsstr) : nat := count_occ N.eq_dec s c.

(** The first code unit is no white space. *)
Definition startsClean (s : jsstr) : Prop :=
  match s with
  | [] => True
  | c :: _ => isWhitespace c = false
  end.

(** [trim] would change nothing. *)
Definition isTrimmed (s : jsstr) : Prop := startsClean s /\ startsClean (rev s).

(** The non-empty, trimmed parts between the slashes of the trimmed text, as
    [englishOnlyText] computes them. *)
Definition slashPartsOf (value : jsstr) : list jsstr :=
  filter str_truthy (map trim (split 47%N (trim value))).

(** The identity of a parameter. *)
Definition parameterIdentity (q : ParsedParameter) : jsstr * ParamLocation :=
  (pp_name q, pp_location q).

(** A schema that is nothing but a reference. *)
Definition referenceNode (ref : jsstr) : SchemaObject :=
  {| s_type := None; s_format := None; s_properties := None; s_items := None;
     s_enum := None; s_default := None; s_example := None; s_oneOf := None;
     s_anyOf := None; s_allOf := None; s_additionalProperties := None;
     s_ref := Some ref |}.

(** The headers that the relay never forwards. *)
Definition isStrippedHeader (lowerKey : jsstr) : bool :=
  jsstr_eqb lowerKey (lit "host") || jsstr_eqb lowerKey (lit "origin")
  || jsstr_eqb lowerKey (lit "content-length").

(** ** Further inputs for the examples *)

(** A schema table in which [Alias] is nothing but a reference to [Node]. *)
Definition aliasSchemas : Record SchemaObject :=
  (lit "Alias", referenceNode (lit "#/components/schemas/Node")) :: cyclicSchemas.

(** An operation whose only response declares no content. *)
Definition deleteOperation : OperationObject :=
  operationOf None None
    [(lit "204", {| r_description := None; r_content := None |})] None.

(** ** Further vocabulary of snippets.ts *)

(** The loop of [query.set(name, value)] over a list that has the name: the
    first entry of that name takes the value, the later ones go. *)
Definition replaceFirst (name value : jsstr)
    : bool -> list (jsstr * jsstr) -> list (jsstr * jsstr) :=
  fix go (seen : bool) (l : list (jsstr * jsstr)) : list (jsstr * jsstr) :=
    match l with
    | [] => []
    | (k, v) :: r =>
        if jsstr_eqb k name then
          if seen then go true r else (k, value) :: go true r
        else (k, v) :: go seen r
    end.

(** What [buildUrl] puts behind the path: [?] and the query string, or
    nothing when the query string is empty. *)
Definition querySuffix (query : list (jsstr * jsstr)) : jsstr :=
  if str_truthy (searchParamsToString query) then 63%N :: searchParamsToString query
  else [].

(** One [name=value] item of a query string. *)
Definition queryItem (kv : jsstr * jsstr) : jsstr :=
  formEncode (fst kv) ++ 61%N :: formEncode (snd kv).

(** [values[name]?.trim()], the empty string when there is no value. *)
Definition suppliedValue (values : Record jsstr) (name : jsstr) : jsstr :=
  orElse (option_map trim (lookup name values)) [].

(** The cookie parameters for which a non-blank value is supplied. *)
Definition suppliedCookies (operation : ParsedOperation) (cookieValues : Record jsstr)
    : list ParsedParameter :=
  filter
    (fun param =>
       location_eqb (pp_location param) InCookie
       && str_truthy (suppliedValue cookieValues (pp_name param)))
    (po_parameters operation).

(** One [name=value] item of a cookie header, for a parameter with a supplied
    value. *)
Definition isCookieItem (cookieValues : Record jsstr) (param : ParsedParameter)
    (item : jsstr) : Prop :=
  exists n v,
    encodeURIComponent (pp_name param) = Some n
    /\ encodeURIComponent (suppliedValue cookieValues (pp_name param)) = Some v
    /\ item = n ++ lit "=" ++ v.

(** An operation that needs a key and takes two query parameters and a
    cookie. *)
Definition searchOperation : ParsedOperation :=
  {| po_id := lit "search"; po_tag := lit "Other"; po_method := GET;
     po_path := lit "/search"; po_summary := []; po_description := [];
     po_requiresAuth := true;
     po_parameters :=
       [ {| pp_name := lit "q"; pp_required := true; pp_location := InQuery;
            pp_description := []; pp_type := lit "string"; pp_defaultValue := [] |};
         {| pp_name := lit "page"; pp_required := false; pp_location := InQuery;
            pp_description := []; pp_type := lit "integer";
            pp_defaultValue := lit "1" |};
         {| pp_name := lit "sid"; pp_required := false; pp_location := InCookie;
            pp_description := []; pp_type := lit "string"; pp_defaultValue := [] |} ];
     po_requestBodyType := None; po_requestBodyRaw := None;
     po_responseCodes := []; po_successExample := JObj [];
     po_errorExample := JObj [] |}.

(** ** Further vocabulary of the relay *)

Section RelayRuns.

Variable JSON_parse : jsstr -> option ProxyPayload.
Variable parseURL : jsstr -> option URL.
Variable toUpperCase : jsstr -> jsstr.
Variable toLowerCase : jsstr -> jsstr.
Variable fetch : jsstr -> RequestInit -> FetchOutcome.

(** A run of one of the two handlers of proxy.ts, on any request. *)
Definition isRun (run : Run) : Prop :=
  (exists requestMethod requestBody,
     run = handler_fetch_api JSON_parse parseURL toUpperCase toLowerCase fetch
             requestMethod requestBody)
  \/ (exists requestMethod requestBody,
        run = handler JSON_parse parseURL toUpperCase toLowerCase fetch
                requestMethod requestBody).


End RelayRuns.

(** A relay request that is forwarded, and a platform to run it on: the URL
    parser knows this one URL, the case mappings are those of ASCII, and the
    upstream server answers 200. *)
Definition goodPayload : ProxyPayload :=
  {| url := Some (lit " https://api.tikhub.io/api/v1/health ");
     method := Some (lit "post");
     headers := Some [(lit "Host", lit "evil.example.com");
                      (lit "Authorization", lit "Bearer k")];
     body := Some (lit "{}") |}.

Definition goodUrl : URL :=
  {| protocol := lit "https:"; hostname := lit "api.tikhub.io";
     href := lit "https://api.tikhub.io/api/v1/health" |}.

Definition parseGoodUrl (text : jsstr) : option URL :=
  if jsstr_eqb text (lit "https://api.tikhub.io/api/v1/health") then Some goodUrl
  else None.

Definition asciiUpper (s : jsstr) : jsstr :=
  map (fun c => if in_range 97 122 c then (c - 32)%N else c) s.

Definition asciiLower (s : jsstr) : jsstr :=
  map (fun c => if in_range 65 90 c then (c + 32)%N else c) s.

Definition okFetch (target : jsstr) (init : RequestInit) : FetchOutcome :=
  Upstream 200 (lit "ok") (Some (lit "application/json")).

Definition goodInit : RequestInit :=
  {| init_method := lit "POST";
     init_headers := [(lit "Authorization", lit "Bearer k")];
     init_body := Some (lit "{}") |}.

Definition goodRun : Run :=
  handler_fetch_api (fun _ => Some goodPayload) parseGoodUrl asciiUpper asciiLower
    okFetch (lit "POST") (lit "{}").

(** The path item and the operation of a form with two parameters: [id] in
    the path, an integer, and [lang] in the query, with an example. *)
Definition itemOperation : OperationObject :=
  operationOf None
    (Some [ {| p_name := lit "id"; p_in := InPath; p_required := Some true;
               p_description := None;
               p_schema :=
                 Some {| s_type := Some (lit "integer"); s_format := None;
                         s_properties := None; s_items := None; s_enum := None;
                         s_default := None; s_example := None; s_oneOf := None;
                         s_anyOf := None; s_allOf := None;
                         s_additionalProperties := None; s_ref := None |};
               p_example := None |};
            {| p_name := lit "lang"; p_in := InQuery; p_required := None;
               p_description := None; p_schema := None;
               p_example := Some (JStr (lit "en")) |} ])
    [] None.

Definition idParameter : ParsedParameter :=
  {| pp_name := lit "id"; pp_required := true; pp_location := InPath;
     pp_description := []; pp_type := lit "integer"; pp_defaultValue := lit "1" |}.

(** ** Own keys and inherited names *)

(** The names that every object inherits from [Object.prototype].  When a
    record has no own key of such a name, [rec[key]] reads the inherited
    member instead of [undefined], and an assignment to [__proto__] makes no
    own key; [lookup] and [objSet] describe a record by its own keys, so the
    properties that depend on it leave these names aside. *)
Definition INHERITED_NAMES : list jsstr :=
  [ lit "constructor"; lit "__proto__"; lit "hasOwnProperty"; lit "isPrototypeOf";
    lit "propertyIsEnumerable"; lit "toLocaleString"; lit "toString"; lit "valueOf";
    lit "__defineGetter__"; lit "__defineSetter__"; lit "__lookupGetter__";
    lit "__lookupSetter__" ].

Definition isInherited (name : jsstr) : bool :=
  existsb (jsstr_eqb name) INHERITED_NAMES.

(** No parameter of the location has an inherited name. *)
Definition ownNames (loc : ParamLocation) (operation : ParsedOperation) : bool :=
  forallb
    (fun param =>
       negb (location_eqb (pp_location param) loc) || negb (isInherited (pp_name param)))
    (po_parameters operation).

(** ** The order of the spec's words, and a collation of the host's kind *)

(** Following the spec's words: the lexicographic order of strings, code
    units compared in order (the order of [<] on strings). *)
Definition stringLt (x y : jsstr) : Prop := (codeUnitCompare x y < 0)%Z.

(** Following the spec's words: (a.tag, a.path, a.method) <=
    (b.tag, b.path, b.method) in ascending lexicographic order. *)
Definition lexicographicLe (a b : ParsedOperation) : Prop :=
  stringLt (po_tag a) (po_tag b)
  \/ (po_tag a = po_tag b
      /\ (stringLt (po_path a) (po_path b)
          \/ (po_path a = po_path b
              /\ (codeUnitCompare (methodName (po_method a))
                    (methodName (po_method b)) <= 0)%Z))).

(** The collation of the host on words of ASCII letters: alphabetical order
    whatever the case, and lower case first between two words that differ in
    case only ([alpha] comes before [Beta], [a] before [A]). *)
Definition alphabeticalCompare (x y : jsstr) : Z :=
  let primary := codeUnitCompare (asciiLower x) (asciiLower y) in
  if (primary =? 0)%Z then (- codeUnitCompare x y)%Z else primary.

(** An operation that declares one tag and nothing else. *)
Definition taggedOperation (tag : string) : OperationObject :=
  {| o_operationId := None; o_tags := Some [lit tag]; o_summary := None;
     o_description := None; o_parameters := None; o_requestBody := None;
     o_responses := []; o_security := None |}.

(** A document with two operations, tagged [Beta] and [alpha]. *)
Definition caseSpec : OpenApiSpec :=
  {| spec_schemas := None;
     spec_paths :=
       [ (lit "/b", pathItemOf None (taggedOperation "Beta"));
         (lit "/a", pathItemOf None (taggedOperation "alpha")) ] |}.


(* ================================================================== *)
(** * Part II: properties                                              *)
(* ================================================================== *)

Unset Implicit Arguments.

(** ** Equality of strings *)

Lemma jsstr_eqb_eq (a b : jsstr) : jsstr_eqb a b = true <-> a = b.
Proof. unfold jsstr_eqb; destruct (jsstr_eq_dec a b); split; congruence. Qed.

Lemma jsstr_eqb_refl (a : jsstr) : jsstr_eqb a a = true.
Proof. now apply jsstr_eqb_eq. Qed.

Lemma jsstr_eqb_neq (a b : jsstr) : jsstr_eqb a b = false <-> a <> b.
Proof. unfold jsstr_eqb; destruct (jsstr_eq_dec a b); split; congruence. Qed.

Lemma jsstr_eqb_sym (a b : jsstr) : jsstr_eqb a b = jsstr_eqb b a.
Proof.
  destruct (jsstr_eqb b a) eqn:E.
  - apply jsstr_eqb_eq in E; subst; apply jsstr_eqb_refl.
  - apply jsstr_eqb_neq in E; apply jsstr_eqb_neq; congruence.
Qed.

(** ** Text normalisation *)

Example englishOnlyText_bilingual :
  englishOnlyText
    ([33719; 21462; 29992; 25143; 20449; 24687] ++ lit " / Get user info")%N
  = lit "Get user info".
Proof. reflexivity. Qed.

Lemma cjk_not_whitespace (c : codeUnit) : isCjk c = true -> isWhitespace c = false.
Proof.
  unfold isCjk, isWhitespace, in_range; intros H.
  repeat rewrite ?orb_true_iff, ?andb_true_iff, ?N.leb_le in H.
  repeat rewrite ?orb_false_iff, ?andb_false_iff, ?N.leb_gt, ?N.eqb_neq.
  repeat split; lia.
Qed.

Lemma cjk_not_slash (c : codeUnit) : isCjk c = true -> (c =? 47)%N = false.
Proof.
  unfold isCjk, in_range; intros H.
  repeat rewrite ?orb_true_iff, ?andb_true_iff, ?N.leb_le in H.
  apply N.eqb_neq; lia.
Qed.

Lemma dropWhile_head (p : codeUnit -> bool) (c : codeUnit) (s : jsstr) :
  p c = false -> dropWhile p (c :: s) = c :: s.
Proof. intros H; simpl; now rewrite H. Qed.

Lemma trim_cjk (s : jsstr) : forallb isCjk s = true -> trim s = s.
Proof.
  intros H. unfold trim, trimStart, trimEnd.
  destruct s as [|c s]; [reflexivity|].
  simpl in H; apply andb_true_iff in H as [Hc Hs].
  rewrite (dropWhile_head _ _ _ (cjk_not_whitespace _ Hc)).
  assert (Hall : forallb isCjk (rev (c :: s)) = true).
  { apply forallb_forall; intros x Hx; apply in_rev in Hx.
    destruct Hx as [<-|Hx]; [exact Hc|].
    exact (proj1 (forallb_forall _ _) Hs x Hx). }
  destruct (rev (c :: s)) as [|d t] eqn:E.
  - apply (f_equal (@rev _)) in E; rewrite rev_involutive in E; discriminate.
  - simpl in Hall; apply andb_true_iff in Hall as [Hd _].
    rewrite (dropWhile_head _ _ _ (cjk_not_whitespace _ Hd)).
    now rewrite <- E, rev_involutive.
Qed.

Lemma split_no_separator (sep : codeUnit) (s : jsstr) :
  forallb (fun c => negb (c =? sep)%N) s = true -> split sep s = [s].
Proof.
  induction s as [|c s IH]; simpl; [reflexivity|].
  intros H; apply andb_true_iff in H as [Hc Hs].
  apply negb_true_iff in Hc; rewrite Hc, (IH Hs); reflexivity.
Qed.

Lemma replaceRuns_inside_run (p : codeUnit -> bool) (s : jsstr) :
  forallb p s = true -> replaceRunsFrom p true s = [].
Proof.
  induction s as [|c s IH]; simpl; [reflexivity|].
  intros H; apply andb_true_iff in H as [Hc Hs]; now rewrite Hc, IH.
Qed.

Lemma replaceRuns_single_run (p : codeUnit -> bool) (c : codeUnit) (s : jsstr) :
  forallb p (c :: s) = true -> replaceRuns p (c :: s) = [32%N].
Proof.
  unfold replaceRuns; simpl; intros H; apply andb_true_iff in H as [Hc Hs].
  now rewrite Hc, replaceRuns_inside_run.
Qed.

(** C3, as stated, fails: the text that consists of CJK characters only has
    no slash-delimited structure, and [englishOnlyText] gives it back
    unchanged, not the empty string. *)
Lemma englishOnlyText_cjk_only_not_empty :
  forallb isCjk cjkOnlyText = true
  /\ existsb (N.eqb 47) cjkOnlyText = false
  /\ englishOnlyText cjkOnlyText = cjkOnlyText
  /\ englishOnlyText cjkOnlyText <> [].
Proof. repeat split; discriminate. Qed.

(** C3 (amended): for every input text that consists entirely of CJK
    characters, stripping the CJK runs, collapsing and trimming leaves
    nothing, and the function then falls back to the trimmed input: it
    returns the text unchanged. *)
Theorem englishOnlyText_cjk_only (text : jsstr) :
  forallb isCjk text = true -> englishOnlyText text = text.
Proof.
  intros H. unfold englishOnlyText.
  rewrite (trim_cjk _ H).
  destruct text as [|c text]; [reflexivity|].
  cbn [str_truthy negb].
  rewrite split_no_separator.
  2:{ apply forallb_forall; intros x Hx.
      now rewrite (cjk_not_slash _ (proj1 (forallb_forall _ _) H x Hx)). }
  cbn [map]. rewrite (trim_cjk _ H). cbn [filter str_truthy length Nat.ltb Nat.leb].
  rewrite (replaceRuns_single_run _ _ _ H). reflexivity.
Qed.

Lemma englishOnlyText_cjk_only_witness :
  forallb isCjk cjkOnlyText = true /\ englishOnlyText cjkOnlyText = cjkOnlyText.
Proof.
  split; [reflexivity | apply (englishOnlyText_cjk_only cjkOnlyText); reflexivity].
Defined.

(** ** Parameter merge *)

Lemma location_eqb_eq (a b : ParamLocation) : location_eqb a b = true <-> a = b.
Proof. destruct a, b; simpl; split; congruence. Qed.

Lemma sameParameter_iff (param candidate : ParameterObject) :
  sameParameter param candidate = true
  <-> p_name candidate = p_name param /\ p_in candidate = p_in param.
Proof.
  unfold sameParameter; now rewrite andb_true_iff, jsstr_eqb_eq, location_eqb_eq.
Qed.

Lemma sameParameter_refl (param : ParameterObject) : sameParameter param param = true.
Proof. now apply sameParameter_iff. Qed.

(** Two parameters of one identity select the same candidates. *)
Lemma sameParameter_congr (a b c : ParameterObject) :
  sameParameter a b = true -> sameParameter b c = sameParameter a c.
Proof.
  intros H; apply sameParameter_iff in H as [Hn Hl].
  unfold sameParameter; now rewrite Hn, Hl.
Qed.

Lemma findIndexFrom_lower {T : Type} (pred : T -> bool) (l : list T) (i : Z) :
  existsb pred l = true ->
  (i <= findIndexFrom pred i l < i + Z.of_nat (length l))%Z.
Proof.
  revert i; induction l as [|x l IH]; intros i; simpl; [discriminate|].
  destruct (pred x); simpl; intros H; [lia|].
  specialize (IH (i + 1)%Z H); lia.
Qed.

Lemma findIndexFrom_app {T : Type} (pred : T -> bool) (pre suf : list T) (i : Z) :
  existsb pred pre = true ->
  findIndexFrom pred i (pre ++ suf) = findIndexFrom pred i pre.
Proof.
  revert i; induction pre as [|x pre IH]; intros i; simpl; [discriminate|].
  destruct (pred x); simpl; intros H; [reflexivity | now apply IH].
Qed.

Lemma findIndexFrom_skip {T : Type} (pred : T -> bool) (pre suf : list T) (i : Z) :
  existsb pred pre = false ->
  findIndexFrom pred i (pre ++ suf)
  = findIndexFrom pred (i + Z.of_nat (length pre))%Z suf.
Proof.
  revert i; induction pre as [|x pre IH]; intros i; simpl.
  - intros _; f_equal; lia.
  - destruct (pred x); simpl; intros H; [discriminate|].
    rewrite (IH _ H); f_equal; lia.
Qed.

(** The test of the [filter] callback: the element at index [length pre] is
    kept exactly when nothing before it has its identity. *)
Lemma first_occurrence_test (x : ParameterObject) (pre suf : list ParameterObject) :
  (findIndex (sameParameter x) (pre ++ x :: suf) =? Z.of_nat (length pre))%Z
  = negb (existsb (sameParameter x) pre).
Proof.
  unfold findIndex. destruct (existsb (sameParameter x) pre) eqn:E; simpl.
  - rewrite (findIndexFrom_app _ _ _ _ E).
    pose proof (findIndexFrom_lower _ _ 0%Z E). apply Z.eqb_neq; lia.
  - rewrite (findIndexFrom_skip _ _ _ _ E); simpl.
    rewrite sameParameter_refl. apply Z.eqb_eq; lia.
Qed.

(** What is left of one identity after the merge: its first declaration. *)
Lemma unique_filter_from (ref : ParameterObject) (suf pre : list ParameterObject) :
  filter (sameParameter ref)
    (filterIndexedFrom
       (fun param index =>
          (findIndex (sameParameter param) (pre ++ suf) =? index)%Z)
       (Z.of_nat (length pre)) suf)
  = if existsb (sameParameter ref) pre then []
    else match find (sameParameter ref) suf with
         | Some x => [x]
         | None => []
         end.
Proof.
  revert pre; induction suf as [|x suf IH]; intros pre.
  - simpl; now destruct (existsb _ pre).
  - cbn [filterIndexedFrom find].
    rewrite first_occurrence_test.
    specialize (IH (pre ++ [x])).
    rewrite <- app_assoc in IH; cbn [app] in IH.
    rewrite length_app in IH; cbn [length] in IH.
    replace (Z.of_nat (length pre + 1)) with (Z.of_nat (length pre) + 1)%Z in IH by lia.
    rewrite existsb_app in IH; cbn [existsb] in IH; rewrite orb_false_r in IH.
    destruct (sameParameter ref x) eqn:Ex.
    + assert (Epre : existsb (sameParameter x) pre = existsb (sameParameter ref) pre).
      { apply eq_true_iff_eq; rewrite !existsb_exists.
        split; intros [y [Hy Hs]]; exists y; split; trivial.
        - now rewrite <- (sameParameter_congr _ _ _ Ex).
        - now rewrite (sameParameter_congr _ _ _ Ex). }
      rewrite Epre. rewrite orb_true_r in IH.
      destruct (existsb (sameParameter ref) pre); cbn [negb]; [exact IH|].
      cbn [filter]; rewrite Ex, IH; reflexivity.
    + rewrite orb_false_r in IH.
      destruct (negb (existsb (sameParameter x) pre)); [cbn [filter]; rewrite Ex|];
        exact IH.
Qed.

Lemma uniqueParameters_filter (ref : ParameterObject) (merged : list ParameterObject) :
  filter (sameParameter ref) (uniqueParameters merged)
  = match find (sameParameter ref) merged with
    | Some x => [x]
    | None => []
    end.
Proof. exact (unique_filter_from ref merged []). Qed.

Lemma find_app_first {T : Type} (pred : T -> bool) (l r : list T) (x : T) :
  In x l -> pred x = true -> exists y, find pred l = Some y /\ find pred (l ++ r) = Some y.
Proof.
  induction l as [|a l IH]; simpl; [tauto|].
  intros [->|Hin] Hp.
  - rewrite Hp; eauto.
  - destruct (pred a); eauto.
Qed.

Lemma filter_map_swap {A B : Type} (f : B -> bool) (g : A -> B) (l : list A) :
  filter f (map g l) = map g (filter (fun x => f (g x)) l).
Proof.
  induction l as [|x l IH]; simpl; [reflexivity|].
  destruct (f (g x)); simpl; now rewrite IH.
Qed.

(** C1, as stated, fails: with [{name: "id", in: "path"}] on the path and
    [{name: "id", in: "path", required: true}] on the operation, the one
    parameter that is left is the declaration of the path, [required = false];
    the declaration of the operation, which would give [required = true], is
    the one dropped. *)
Lemma operation_level_declaration_dropped :
  po_parameters
    (normalizeOperation [] (lit "/items/{id}") dedupPathItem GET dedupOperation)
  = [ {| pp_name := lit "id"; pp_required := false; pp_location := InPath;
         pp_description := []; pp_type := lit "string"; pp_defaultValue := [] |} ]
  /\ pp_required (parseParameter [] (parameterOf "id" InPath (Some true))) = true.
Proof. split; reflexivity. Qed.

(** C1 (amended): for every operation whose path level and operation level
    both declare a parameter with the same (name, location) pair, the
    normalized operation contains exactly one parameter for that pair, and it
    is the first declaration of the pair at the path level: the first
    occurrence in the merged list is kept and the operation-level duplicate
    is dropped. *)
Theorem path_level_declaration_kept
    (schemas : Record SchemaObject) (path : jsstr) (pathItem : PathItemObject)
    (method : HttpMethod) (op : OperationObject)
    (pathParam opParam : ParameterObject) :
  In pathParam (orElse (pi_parameters pathItem) []) ->
  In opParam (orElse (o_parameters op) []) ->
  sameParameter pathParam opParam = true ->
  exists first,
    find (sameParameter pathParam) (orElse (pi_parameters pathItem) []) = Some first
    /\ filter (hasIdentity (p_name pathParam) (p_in pathParam))
         (po_parameters (normalizeOperation schemas path pathItem method op))
       = [parseParameter schemas first].
Proof.
  intros Hpath _ _.
  destruct (find_app_first (sameParameter pathParam) _
              (orElse (o_parameters op) []) pathParam Hpath
              (sameParameter_refl pathParam)) as [first [Hfirst Hmerged]].
  exists first; split; [exact Hfirst|].
  cbn [normalizeOperation po_parameters].
  rewrite filter_map_swap.
  change (fun x => hasIdentity (p_name pathParam) (p_in pathParam)
                     (parseParameter schemas x))
    with (sameParameter pathParam).
  rewrite uniqueParameters_filter.
  unfold mergedParameters; now rewrite Hmerged.
Qed.

Lemma path_level_declaration_kept_witness :
  exists first,
    find (sameParameter (parameterOf "id" InPath None))
      (orElse (pi_parameters dedupPathItem) []) = Some first
    /\ filter (hasIdentity (lit "id") InPath)
         (po_parameters
            (normalizeOperation [] (lit "/items/{id}") dedupPathItem GET dedupOperation))
       = [parseParameter [] first].
Proof.
  apply (path_level_declaration_kept [] (lit "/items/{id}") dedupPathItem GET
           dedupOperation (parameterOf "id" InPath None)
           (parameterOf "id" InPath (Some true))).
  - simpl; left; reflexivity.
  - simpl; left; reflexivity.
  - reflexivity.
Defined.

(** ** Authentication flag *)

(** C2, as stated, fails: an operation that declares an empty security list
    is normalized with [requiresAuth = true]. *)
Lemma empty_security_requires_auth :
  o_security emptySecurityOperation = Some []
  /\ po_requiresAuth
       (normalizeOperation [] (lit "/ping") (pathItemOf None emptySecurityOperation)
          GET emptySecurityOperation) = true.
Proof. split; reflexivity. Qed.

(** C2 (amended): for every operation declaration, the normalized operation's
    requiresAuth flag is true if and only if the operation declares a
    security-requirement list, empty or not; an operation that declares no
    security field has requiresAuth = false. *)
Theorem requiresAuth_iff_security_declared
    (schemas : Record SchemaObject) (path : jsstr) (pathItem : PathItemObject)
    (method : HttpMethod) (op : OperationObject) :
  (po_requiresAuth (normalizeOperation schemas path pathItem method op) = true
   <-> exists requirements, o_security op = Some requirements)
  /\ (o_security op = None ->
      po_requiresAuth (normalizeOperation schemas path pathItem method op) = false).
Proof.
  cbn [normalizeOperation po_requiresAuth]; unfold requiresAuthOf.
  destruct (o_security op) as [l|]; split; try split; intros; eauto;
    try discriminate.
  destruct H; discriminate.
Qed.

Lemma requiresAuth_iff_security_declared_witness :
  po_requiresAuth
    (normalizeOperation [] (lit "/items/{id}") dedupPathItem GET dedupOperation)
  = false.
Proof.
  apply (proj2 (requiresAuth_iff_security_declared [] (lit "/items/{id}")
                  dedupPathItem GET dedupOperation)).
  reflexivity.
Defined.

(** ** Example synthesis: termination *)

Lemma fold_bind_ext {A B : Type} (f g : option A -> B -> option A) (l : list B)
    (a : option A) :
  (forall acc x, f acc x = g acc x) -> fold_left f l a = fold_left g l a.
Proof.
  intros H; revert a; induction l as [|x l IH]; intros a; simpl; [reflexivity|].
  now rewrite H, IH.
Qed.

Lemma fold_bind_pure {A B C : Type} (g : B -> C) (h : A -> B -> C -> A)
    (l : list B) (a0 : A) :
  fold_left
    (fun acc item => a <- acc ;; value <- Some (g item) ;; Some (h a item value))
    l (Some a0)
  = Some (fold_left (fun a item => h a item (g item)) l a0).
Proof. revert a0; induction l as [|x l IH]; intros a0; simpl; auto. Qed.

(** The type switch and the chain depend on the recursive call only through
    its values. *)
Lemma synthesizeByType_ext (r1 r2 : option SchemaObject -> option Json)
    (resolved : SchemaObject) :
  (forall x, r1 x = r2 x) ->
  synthesizeByType r1 resolved = synthesizeByType r2 resolved.
Proof.
  intros H. unfold synthesizeByType.
  rewrite (fold_bind_ext
             (fun acc kv => o <- acc ;; value <- r1 (Some (snd kv)) ;;
                            Some (objSet o (fst kv) value))
             (fun acc kv => o <- acc ;; value <- r2 (Some (snd kv)) ;;
                            Some (objSet o (fst kv) value)))
    by (intros; now rewrite H).
  rewrite (H (s_items resolved)).
  destruct (typeIs (s_type resolved) "object"); [|reflexivity].
  destruct (fold_left _ _ _) as [[|? ?]|]; cbn [bind]; try reflexivity.
  destruct (s_additionalProperties resolved) as [[?|?]|]; rewrite ?H; reflexivity.
Qed.

Lemma synthesizeResolved_ext (r1 r2 : option SchemaObject -> option Json)
    (resolved : SchemaObject) :
  (forall x, r1 x = r2 x) ->
  synthesizeResolved r1 resolved = synthesizeResolved r2 resolved.
Proof.
  intros H. unfold synthesizeResolved.
  rewrite (synthesizeByType_ext r1 r2 resolved H).
  destruct (s_example resolved); [reflexivity|].
  destruct (s_default resolved); [reflexivity|].
  destruct (s_enum resolved) as [[|? ?]|]; try reflexivity.
  all: destruct (s_oneOf resolved) as [[|? ?]|]; try apply H.
  all: destruct (s_anyOf resolved) as [[|? ?]|]; try apply H.
  all: destruct (s_allOf resolved) as [[|? ?]|]; try reflexivity.
  all: rewrite (fold_bind_ext
             (fun acc item => a <- acc ;; value <- r1 (Some item) ;;
                              Some (mergeMember a value))
             (fun acc item => a <- acc ;; value <- r2 (Some item) ;;
                              Some (mergeMember a value)));
       [reflexivity | intros; now rewrite H].
Qed.

(** With a recursive call that always answers, the type switch and the chain
    answer. *)
Lemma synthesizeByType_pure (g : option SchemaObject -> Json)
    (resolved : SchemaObject) :
  exists value, synthesizeByType (fun x => Some (g x)) resolved = Some value.
Proof.
  unfold synthesizeByType.
  rewrite (fold_bind_pure (fun kv => g (Some (snd kv)))
             (fun o kv value => objSet o (fst kv) value)).
  cbn [bind].
  destruct (typeIs (s_type resolved) "object").
  - destruct (fold_left _ _ _) as [|? ?];
      [destruct (s_additionalProperties resolved) as [[?|?]|]|]; eauto.
  - repeat match goal with
           | |- context [if ?b then _ else _] => destruct b
           end; eauto.
Qed.

Lemma synthesizeResolved_pure (g : option SchemaObject -> Json)
    (resolved : SchemaObject) :
  exists value, synthesizeResolved (fun x => Some (g x)) resolved = Some value.
Proof.
  unfold synthesizeResolved.
  destruct (s_example resolved); [eauto|].
  destruct (s_default resolved); [eauto|].
  destruct (s_enum resolved) as [[|? ?]|]; eauto.
  all: destruct (s_oneOf resolved) as [[|? ?]|]; eauto.
  all: destruct (s_anyOf resolved) as [[|? ?]|]; eauto.
  all: destruct (s_allOf resolved) as [[|? ?]|];
       try apply synthesizeByType_pure.
  all: rewrite (fold_bind_pure (fun item => g (Some item))
                  (fun a _ value => mergeMember a value));
       cbn [bind]; eauto.
Qed.

Lemma synthesizeNode_ext (schemas : Record SchemaObject)
    (r1 r2 : option SchemaObject -> option Json) (s : SchemaObject) :
  (forall x, r1 x = r2 x) -> synthesizeNode r1 schemas s = synthesizeNode r2 schemas s.
Proof. apply synthesizeResolved_ext. Qed.

Lemma synthesizeNode_total (schemas : Record SchemaObject)
    (recur : option SchemaObject -> option Json) (s : SchemaObject) :
  (forall x, exists value, recur x = Some value) ->
  exists value, synthesizeNode recur schemas s = Some value.
Proof.
  intros H.
  rewrite (synthesizeNode_ext schemas recur
             (fun x => Some (orElse (recur x) JNull))).
  - apply synthesizeResolved_pure.
  - intros x; destruct (H x) as [v ->]; reflexivity.
Qed.

Lemma buildExampleFromSchema_fuel_total (schemas : Record SchemaObject) (fuel : nat) :
  forall (schema : option SchemaObject) (depth : nat),
    6 - depth < fuel ->
    exists value, buildExampleFromSchema_fuel fuel schema schemas depth = Some value.
Proof.
  induction fuel as [|fuel IH]; intros schema depth Hfuel; [lia|].
  cbn [buildExampleFromSchema_fuel].
  destruct schema as [s|]; [|eauto].
  destruct (5 <? depth) eqn:Hcap; [eauto|].
  apply Nat.ltb_ge in Hcap.
  apply synthesizeNode_total; intros x; apply IH; lia.
Qed.

(** Past [6 - depth] nested calls the fuel is not looked at any more. *)
Lemma buildExampleFromSchema_fuel_stable (schemas : Record SchemaObject) (fuel : nat) :
  forall (fuel' : nat) (schema : option SchemaObject) (depth : nat),
    6 - depth < fuel -> 6 - depth < fuel' ->
    buildExampleFromSchema_fuel fuel schema schemas depth
    = buildExampleFromSchema_fuel fuel' schema schemas depth.
Proof.
  induction fuel as [|fuel IH]; intros fuel' schema depth H1 H2; [lia|].
  destruct fuel' as [|fuel']; [lia|].
  cbn [buildExampleFromSchema_fuel].
  destruct schema as [s|]; [|reflexivity].
  destruct (5 <? depth) eqn:Hcap; [reflexivity|].
  apply Nat.ltb_ge in Hcap.
  apply synthesizeNode_ext; intros x; apply IH; lia.
Qed.

Lemma buildExampleFromSchema_fuel_eq (schemas : Record SchemaObject)
    (schema : option SchemaObject) (depth fuel : nat) :
  6 - depth < fuel ->
  buildExampleFromSchema_fuel fuel schema schemas depth
  = Some (buildExampleFromSchema schema schemas depth).
Proof.
  intros H. unfold buildExampleFromSchema.
  rewrite (buildExampleFromSchema_fuel_stable schemas fuel (S (6 - depth)))
    by lia.
  destruct (buildExampleFromSchema_fuel_total schemas (S (6 - depth)) schema depth)
    as [v ->]; [lia | reflexivity].
Qed.

(** The recursion equation of the source, for a node within the cap. *)
Lemma buildExampleFromSchema_unfold (schemas : Record SchemaObject)
    (s : SchemaObject) (depth : nat) :
  depth <= 5 ->
  synthesizeNode (fun x => Some (buildExampleFromSchema x schemas (depth + 1)))
    schemas s
  = Some (buildExampleFromSchema (Some s) schemas depth).
Proof.
  intros Hcap.
  rewrite <- (buildExampleFromSchema_fuel_eq schemas (Some s) depth (S (6 - depth)))
    by lia.
  cbn [buildExampleFromSchema_fuel].
  replace (5 <? depth) with false by (symmetry; apply Nat.ltb_ge; lia).
  apply synthesizeNode_ext; intros x.
  symmetry; apply buildExampleFromSchema_fuel_eq; lia.
Qed.

Example self_reference_is_cut_at_the_cap :
  buildExampleFromSchema (Some (refTo "Node")) cyclicSchemas 0
  = nested (lit "child") 6.
Proof. reflexivity. Qed.

Example reference_cycle_is_cut_at_the_cap :
  buildExampleFromSchema (Some (refTo "Ping")) cyclicSchemas 0
  = JObj [(lit "pong", JObj [(lit "ping", JObj [(lit "pong",
      JObj [(lit "ping", JObj [(lit "pong", JObj [(lit "ping", JObj [])])])])])])].
Proof. reflexivity. Qed.

(** C5: example synthesis of any schema, self-referential and cyclic ones
    included, terminates with a value: whatever the schema and the schema
    table, every run that is allowed more than [6 - depth] nested calls
    returns the same value, so the recursion never goes deeper than the cap
    of 5 allows, and past the cap the value is the empty object. *)
Theorem buildExampleFromSchema_terminates
    (schema : option SchemaObject) (schemas : Record SchemaObject) (depth : nat) :
  (forall fuel, 6 - depth < fuel ->
     buildExampleFromSchema_fuel fuel schema schemas depth
     = Some (buildExampleFromSchema schema schemas depth))
  /\ (5 < depth -> buildExampleFromSchema schema schemas depth = JObj []).
Proof.
  split.
  - intros fuel; apply buildExampleFromSchema_fuel_eq.
  - intros Hcap. unfold buildExampleFromSchema; cbn [buildExampleFromSchema_fuel].
    destruct schema; [|reflexivity].
    replace (5 <? depth) with true by (symmetry; apply Nat.ltb_lt; lia).
    reflexivity.
Qed.

Lemma buildExampleFromSchema_terminates_witness :
  buildExampleFromSchema_fuel 7 (Some (refTo "Node")) cyclicSchemas 0
  = Some (buildExampleFromSchema (Some (refTo "Node")) cyclicSchemas 0)
  /\ buildExampleFromSchema (Some (refTo "Node")) cyclicSchemas 6 = JObj [].
Proof.
  split.
  - apply (proj1 (buildExampleFromSchema_terminates
                    (Some (refTo "Node")) cyclicSchemas 0) 7); simpl; lia.
  - apply (proj2 (buildExampleFromSchema_terminates
                    (Some (refTo "Node")) cyclicSchemas 6)); lia.
Defined.

(** ** Example synthesis: priority order *)

Lemma lookup_app {T : Type} (key : jsstr) (a b : Record T) :
  lookup key (a ++ b)
  = match lookup key a with Some v => Some v | None => lookup key b end.
Proof.
  induction a as [|[k v] a IH]; simpl; [reflexivity|].
  destruct (jsstr_eqb k key); [reflexivity | exact IH].
Qed.

Lemma lookup_replaceEntry {T : Type} (key k : jsstr) (v : T) (entries : Record T) :
  lookup k entries <> None ->
  lookup key (replaceEntry k v entries)
  = if jsstr_eqb k key then Some v else lookup key entries.
Proof.
  induction entries as [|[k' v'] entries IH]; simpl; [congruence|].
  destruct (jsstr_eqb k' k) eqn:E.
  - intros _. apply jsstr_eqb_eq in E; subst k'. simpl.
    destruct (jsstr_eqb k key); reflexivity.
  - intros H; simpl. destruct (jsstr_eqb k' key) eqn:E'.
    + apply jsstr_eqb_eq in E'; subst k'.
      destruct (jsstr_eqb k key) eqn:E''; [|reflexivity].
      apply jsstr_eqb_eq in E''; subst k. now rewrite jsstr_eqb_refl in E.
    + now apply IH.
Qed.

Lemma lookup_insertIndexKey {T : Type} (key k : jsstr) (n : N) (v : T)
    (entries : Record T) :
  lookup k entries = None ->
  lookup key (insertIndexKey n k v entries)
  = if jsstr_eqb k key then Some v else lookup key entries.
Proof.
  induction entries as [|[k' v'] entries IH]; simpl; [reflexivity|].
  destruct (jsstr_eqb k' k) eqn:E; [discriminate|]. intros H.
  assert (Hhere : lookup key ((k, v) :: (k', v') :: entries)
                  = if jsstr_eqb k key then Some v
                    else if jsstr_eqb k' key then Some v' else lookup key entries)
    by reflexivity.
  destruct (arrayIndex k') as [m|]; [destruct (m <? n)%N|]; try exact Hhere.
  simpl. rewrite (IH H).
  destruct (jsstr_eqb k' key) eqn:E'; [|reflexivity].
  destruct (jsstr_eqb k key) eqn:E''; [|reflexivity].
  apply jsstr_eqb_eq in E', E''; subst. now rewrite jsstr_eqb_refl in E.
Qed.

(** Reading a key after [obj[k] = v]. *)
Lemma lookup_objSet {T : Type} (key k : jsstr) (v : T) (entries : Record T) :
  lookup key (objSet entries k v)
  = if jsstr_eqb k key then Some v else lookup key entries.
Proof.
  unfold objSet. destruct (lookup k entries) eqn:E.
  - apply lookup_replaceEntry; congruence.
  - destruct (arrayIndex k); [now apply lookup_insertIndexKey|].
    rewrite lookup_app; simpl.
    destruct (jsstr_eqb k key) eqn:E'.
    + apply jsstr_eqb_eq in E'; subst; now rewrite E.
    + now destruct (lookup key entries).
Qed.

(** Reading a key after [Object.assign(acc, value)]: the last entry of
    [value] for the key, else what [acc] had. *)
Lemma lookup_objAssign {T : Type} (key : jsstr) (value acc : Record T) :
  lookup key (objAssign acc value)
  = match lookup key (rev value) with
    | Some v => Some v
    | None => lookup key acc
    end.
Proof.
  unfold objAssign; revert acc; induction value as [|[k v] value IH]; intros acc;
    simpl; [reflexivity|].
  rewrite IH, lookup_app, lookup_objSet; simpl.
  destruct (lookup key (rev value)); [reflexivity|].
  now destruct (jsstr_eqb k key).
Qed.





Section PriorityChain.

Variable recur : option SchemaObject -> option Json.
Variable resolved : SchemaObject.




Hypothesis no_example : s_example resolved = None.
Hypothesis no_default : s_default resolved = None.
Hypothesis no_enum : noList (s_enum resolved).


Hypothesis no_oneOf : noList (s_oneOf resolved).


Hypothesis no_anyOf : noList (s_anyOf resolved).


Hypothesis no_allOf : noList (s_allOf resolved).


End PriorityChain.



Example allOf_composition :
  buildExampleFromSchema
    (Some {| s_type := None; s_format := None; s_properties := None;
             s_items := None; s_enum := None; s_default := None;
             s_example := None; s_oneOf := None; s_anyOf := None;
             s_allOf := Some [objectWith [(lit "a", annotatedSchema)];
                              objectWith [(lit "b", emptySchema)]];
             s_additionalProperties := None; s_ref := None |}) [] 0
  = JObj [(lit "a", JStr (lit "a")); (lit "b", JStr (lit "string"))].
Proof. reflexivity. Qed.

(** ** Response codes and examples *)

Lemma includes_In (codes : list jsstr) (code : jsstr) :
  includes codes code = true <-> In code codes.
Proof.
  unfold includes; rewrite existsb_exists; split.
  - intros [x [Hx E]]; apply jsstr_eqb_eq in E; now subst.
  - intros H; exists code; split; [exact H | apply jsstr_eqb_refl].
Qed.

Lemma includes_not_In (codes : list jsstr) (code : jsstr) :
  ~ In code codes -> includes codes code = false.
Proof.
  intros H; destruct (includes codes code) eqn:E; [|reflexivity].
  now apply includes_In in E.
Qed.

Lemma find_first {T : Type} (pred : T -> bool) (pre post : list T) (x : T) :
  (forall y, In y pre -> pred y = false) -> pred x = true ->
  find pred (pre ++ x :: post) = Some x.
Proof.
  induction pre as [|a pre IH]; simpl; intros Hpre Hx.
  - now rewrite Hx.
  - rewrite (Hpre a (or_introl eq_refl)); apply IH; auto.
Qed.

Lemma find_none {T : Type} (pred : T -> bool) (l : list T) :
  (forall y, In y l -> pred y = false) -> find pred l = None.
Proof.
  induction l as [|a l IH]; simpl; intros H; [reflexivity|].
  rewrite (H a (or_introl eq_refl)); apply IH; auto.
Qed.

(** C8: for every operation, the success example code is "200" when
    declared, else the first declared response code; the error example code
    is "422" when declared, else the first declared code starting with "4" or
    "5", else the success code; the two examples are taken from the responses
    of these codes.  In particular, with only "201" and "500" declared the
    success example comes from "201" and the error example from "500". *)
Theorem response_example_codes
    (schemas : Record SchemaObject) (path : jsstr) (pathItem : PathItemObject)
    (method : HttpMethod) (op : OperationObject) :
  let responses := o_responses op in
  let codes := keys responses in
  let parsed := normalizeOperation schemas path pathItem method op in
  (In (lit "200") codes -> successCodeOf codes = lit "200")
  /\ (~ In (lit "200") codes ->
      forall first rest, codes = first :: rest -> successCodeOf codes = first)
  /\ (In (lit "422") codes -> errorCodeOf codes = lit "422")
  /\ (~ In (lit "422") codes ->
      forall pre code post,
        codes = pre ++ code :: post ->
        (forall c, In c pre -> isErrorCode c = false) ->
        isErrorCode code = true ->
        errorCodeOf codes = code)
  /\ (~ In (lit "422") codes ->
      (forall c, In c codes -> isErrorCode c = false) ->
      errorCodeOf codes = successCodeOf codes)
  /\ po_responseCodes parsed = codes
  /\ po_successExample parsed
     = responseExample responses (successCodeOf codes) schemas
  /\ po_errorExample parsed
     = responseExample responses (errorCodeOf codes) schemas
  /\ (forall code response example,
        lookup code responses = Some response ->
        getExampleFromMedia (r_content response) schemas = Some example ->
        responseExample responses code schemas = example)
  /\ (codes = [lit "201"; lit "500"] ->
      po_successExample parsed = responseExample responses (lit "201") schemas
      /\ po_errorExample parsed = responseExample responses (lit "500") schemas).
Proof.
  intros responses codes parsed.
  assert (Hparticular : codes = [lit "201"; lit "500"] ->
            successCodeOf codes = lit "201" /\ errorCodeOf codes = lit "500")
    by (intros ->; split; reflexivity).
  split; [|split; [|split; [|split; [|split; [|split; [|split; [|split;
    [|split]]]]]]]].
  - intros H; unfold successCodeOf. now rewrite (proj2 (includes_In _ _) H).
  - intros H first rest E; unfold successCodeOf.
    now rewrite (includes_not_In _ _ H), E.
  - intros H; unfold errorCodeOf. now rewrite (proj2 (includes_In _ _) H).
  - intros H pre code post E Hpre Hcode; unfold errorCodeOf.
    now rewrite (includes_not_In _ _ H), E, (find_first _ _ _ _ Hpre Hcode).
  - intros H Hnone; unfold errorCodeOf.
    now rewrite (includes_not_In _ _ H), (find_none _ _ Hnone).
  - reflexivity.
  - reflexivity.
  - reflexivity.
  - intros code response example Hcode Hexample; unfold responseExample.
    rewrite Hcode; cbn [bind]; now rewrite Hexample.
  - intros H; destruct (Hparticular H) as [<- <-]; split; reflexivity.
Qed.

Lemma response_example_codes_witness :
  po_successExample
    (normalizeOperation [] (lit "/items") (pathItemOf None createdOrFailed) POST
       createdOrFailed) = JStr (lit "created")
  /\ po_errorExample
       (normalizeOperation [] (lit "/items") (pathItemOf None createdOrFailed) POST
          createdOrFailed) = JStr (lit "failed").
Proof.
  pose proof (response_example_codes [] (lit "/items")
                (pathItemOf None createdOrFailed) POST createdOrFailed) as H.
  cbv zeta in H.
  destruct H as (_ & _ & _ & _ & _ & _ & _ & _ & Hfrom & Hparticular).
  destruct (Hparticular eq_refl) as [Hs He].
  split.
  - rewrite Hs. apply (Hfrom (lit "201") (responseWith "created")); reflexivity.
  - rewrite He. apply (Hfrom (lit "500") (responseWith "failed")); reflexivity.
Defined.

(** ** The catalog: order *)

Lemma ordered_nth {A : Type} (R : A -> A -> Prop) (l : list A) :
  ForallOrdPairs R l ->
  forall i j a b,
    i < j -> nth_error l i = Some a -> nth_error l j = Some b -> R a b.
Proof.
  induction 1 as [|x l Hx _ IH]; intros i j a b Hij Ha Hb;
    [destruct i; discriminate|].
  destruct j as [|j]; [lia|]. cbn [nth_error] in Hb.
  destruct i as [|i]; cbn [nth_error] in Ha.
  - injection Ha as <-. apply nth_error_In in Hb.
    exact (proj1 (Forall_forall _ _) Hx b Hb).
  - apply (IH i j); [lia | assumption..].
Qed.

Lemma methodName_injective (m m' : HttpMethod) : methodName m = methodName m' -> m = m'.
Proof.
  destruct m, m'; intros H; try reflexivity; vm_compute in H; discriminate H.
Qed.

(** Code units compared in order: a strict total order on all strings. *)
Lemma codeUnitCompare_eq (x y : jsstr) : codeUnitCompare x y = 0%Z -> x = y.
Proof.
  revert y; induction x as [|c x IH]; intros [|d y]; cbn [codeUnitCompare];
    try reflexivity; try discriminate.
  destruct (N.ltb_spec c d) as [|Hcd]; [discriminate|].
  destruct (N.ltb_spec d c) as [|Hdc]; [discriminate|].
  intros Heq. f_equal; [lia | now apply IH].
Qed.

Lemma codeUnitCompare_sign (x y : jsstr) :
  (codeUnitCompare x y < 0)%Z <-> (0 < codeUnitCompare y x)%Z.
Proof.
  revert y; induction x as [|c x IH]; intros [|d y]; cbn [codeUnitCompare];
    try lia.
  destruct (N.ltb_spec c d); destruct (N.ltb_spec d c); try lia. apply IH.
Qed.

Lemma codeUnitCompare_trans (x y z : jsstr) :
  (codeUnitCompare x y < 0)%Z -> (codeUnitCompare y z < 0)%Z ->
  (codeUnitCompare x z < 0)%Z.
Proof.
  revert y z; induction x as [|c x IH]; intros [|d y] [|e z];
    cbn [codeUnitCompare]; try lia.
  destruct (N.ltb_spec c d); destruct (N.ltb_spec d c);
    destruct (N.ltb_spec d e); destruct (N.ltb_spec e d);
    destruct (N.ltb_spec c e); destruct (N.ltb_spec e c); try lia.
  apply IH.
Qed.

Lemma codeUnitCompare_order (strings : list jsstr) :
  isTotalOrderOn codeUnitCompare strings.
Proof.
  split; [|split].
  - intros x y _ _. apply codeUnitCompare_eq.
  - intros x y _ _. apply codeUnitCompare_sign.
  - intros x y z _ _ _. apply codeUnitCompare_trans.
Qed.

Section CatalogProperties.

Variable localeCompare : jsstr -> jsstr -> Z.

Lemma insertOperation_perm (x : ParsedOperation) (l : list ParsedOperation) :
  Permutation (insertOperation localeCompare x l) (x :: l).
Proof.
  induction l as [|y l IH]; simpl; [reflexivity|].
  destruct (compareOperations localeCompare x y <=? 0)%Z; [reflexivity|].
  rewrite IH; apply perm_swap.
Qed.

(** Sorting moves the operations and changes none. *)
Lemma sortOperations_perm (l : list ParsedOperation) :
  Permutation (sortOperations localeCompare l) l.
Proof.
  induction l as [|x l IH]; simpl; [reflexivity|].
  rewrite insertOperation_perm; now constructor.
Qed.

(** The strings that are compared, and the collation on them. *)
Variable strings : list jsstr.
Hypothesis collation : isTotalOrderOn localeCompare strings.

Lemma collation_refl (x : jsstr) : In x strings -> localeCompare x x = 0%Z.
Proof.
  intros Hx. destruct collation as [_ [Hsign _]].
  destruct (Hsign x x Hx Hx) as [H1 H2]. lia.
Qed.

Lemma precedes_irrefl (x y : jsstr) :
  In x strings -> x = y -> ~ precedes localeCompare x y.
Proof.
  intros Hx <- H. unfold precedes in H. rewrite (collation_refl x Hx) in H. lia.
Qed.

(** The comparison function of the source decides the lexicographic order of
    the triples. *)
Lemma compareOperations_keyLe (a b : ParsedOperation) :
  keysIn strings a -> keysIn strings b ->
  (compareOperations localeCompare a b <= 0)%Z <-> keyLe localeCompare a b.
Proof.
  intros [Hta [Hpa Hma]] [Htb [Hpb Hmb]].
  destruct collation as [Htie _].
  pose proof (Htie _ _ Hta Htb) as Tt.
  pose proof (Htie _ _ Hpa Hpb) as Tp.
  pose proof (Htie _ _ Hma Hmb) as Tm.
  pose proof (precedes_irrefl (po_tag a) (po_tag b) Hta) as It.
  pose proof (precedes_irrefl (po_path a) (po_path b) Hpa) as Ip.
  unfold compareOperations, keyLe. unfold precedes in *.
  destruct (jsstr_eqb (po_tag a) (po_tag b)) eqn:Et; cbn [negb].
  - apply jsstr_eqb_eq in Et.
    destruct (jsstr_eqb (po_path a) (po_path b)) eqn:Ep; cbn [negb].
    + apply jsstr_eqb_eq in Ep. split.
      * intros Hle. right; split; [exact Et|]. right; split; [exact Ep|].
        destruct (Z.eq_dec (localeCompare (methodName (po_method a))
                              (methodName (po_method b))) 0) as [E|E].
        -- left. apply methodName_injective. now apply Tm.
        -- right. lia.
      * intros [H|[_ [H|[_ [H|H]]]]].
        -- exfalso. now apply It.
        -- exfalso. now apply Ip.
        -- rewrite H, (collation_refl _ Hmb). lia.
        -- lia.
    + apply jsstr_eqb_neq in Ep. split.
      * intros Hle. right; split; [exact Et|]. left.
        destruct (Z.eq_dec (localeCompare (po_path a) (po_path b)) 0) as [E|E];
          [exfalso; now apply Ep, Tp | lia].
      * intros [H|[_ [H|[H _]]]]; [exfalso; now apply It | lia | contradiction].
  - apply jsstr_eqb_neq in Et. split.
    + intros Hle. left.
      destruct (Z.eq_dec (localeCompare (po_tag a) (po_tag b)) 0) as [E|E];
        [exfalso; now apply Et, Tt | lia].
    + intros [H|[H _]]; [lia | contradiction].
Qed.

Lemma keyLe_total (a b : ParsedOperation) :
  keysIn strings a -> keysIn strings b ->
  (0 < compareOperations localeCompare a b)%Z -> keyLe localeCompare b a.
Proof.
  intros Ha Hb H. apply (compareOperations_keyLe b a Hb Ha).
  destruct Ha as [Hta [Hpa Hma]], Hb as [Htb [Hpb Hmb]].
  destruct collation as [_ [Hsign _]].
  unfold compareOperations in *.
  rewrite (jsstr_eqb_sym (po_tag b)), (jsstr_eqb_sym (po_path b)).
  destruct (negb (jsstr_eqb (po_tag a) (po_tag b)));
    [|destruct (negb (jsstr_eqb (po_path a) (po_path b)))];
    apply Z.lt_le_incl; apply Hsign; assumption.
Qed.

Lemma lex_step (x y z : jsstr) (P Q R : Prop) :
  In x strings -> In y strings -> In z strings ->
  (P -> Q -> R) ->
  precedes localeCompare x y \/ (x = y /\ P) ->
  precedes localeCompare y z \/ (y = z /\ Q) ->
  precedes localeCompare x z \/ (x = z /\ R).
Proof.
  intros Hx Hy Hz HPQ Hxy Hyz. destruct collation as [_ [_ Htrans]].
  destruct Hxy as [Hxy|[Exy HP]]; destruct Hyz as [Hyz|[Eyz HQ]].
  - left. exact (Htrans x y z Hx Hy Hz Hxy Hyz).
  - left. now rewrite <- Eyz.
  - left. now rewrite Exy.
  - right. split; [congruence | auto].
Qed.

Lemma keyLe_trans (a b c : ParsedOperation) :
  keysIn strings a -> keysIn strings b -> keysIn strings c ->
  keyLe localeCompare a b -> keyLe localeCompare b c -> keyLe localeCompare a c.
Proof.
  intros [Hta [Hpa Hma]] [Htb [Hpb Hmb]] [Htc [Hpc Hmc]]. unfold keyLe.
  apply lex_step; try assumption.
  apply lex_step; try assumption.
  destruct collation as [_ [_ Htrans]].
  intros [E1|H1] [E2|H2].
  - left. congruence.
  - right. now rewrite E1.
  - right. now rewrite <- E2.
  - right. exact (Htrans _ _ _ Hma Hmb Hmc H1 H2).
Qed.

Lemma insertOperation_sorted (x : ParsedOperation) (l : list ParsedOperation) :
  keysIn strings x -> Forall (keysIn strings) l ->
  ForallOrdPairs (keyLe localeCompare) l ->
  ForallOrdPairs (keyLe localeCompare) (insertOperation localeCompare x l).
Proof.
  intros Hx. induction l as [|y r IH]; intros Hl Hs.
  - cbn. constructor; constructor.
  - inversion Hl as [|y' r' Hy Hr]; subst.
    inversion Hs as [|y' r' Hyr Hsr]; subst.
    cbn [insertOperation].
    destruct (compareOperations localeCompare x y <=? 0)%Z eqn:E.
    + apply Z.leb_le, (compareOperations_keyLe x y Hx Hy) in E.
      constructor; [|exact Hs]. constructor; [exact E|].
      apply Forall_forall. intros z Hz.
      apply (keyLe_trans x y z Hx Hy); [|exact E|].
      * exact (proj1 (Forall_forall _ _) Hr z Hz).
      * exact (proj1 (Forall_forall _ _) Hyr z Hz).
    + apply Z.leb_gt in E. constructor; [|now apply IH].
      apply (Permutation_Forall (Permutation_sym (insertOperation_perm x r))).
      constructor; [apply (keyLe_total x y Hx Hy); lia | exact Hyr].
Qed.

Lemma sortOperations_sorted (l : list ParsedOperation) :
  Forall (keysIn strings) l ->
  ForallOrdPairs (keyLe localeCompare) (sortOperations localeCompare l).
Proof.
  induction l as [|x l IH]; intros Hl; [constructor|].
  inversion Hl as [|x' l' Hx Hrest]; subst. cbn [sortOperations fold_right].
  apply insertOperation_sorted; [exact Hx | | now apply IH].
  exact (Permutation_Forall (Permutation_sym (sortOperations_perm l)) Hrest).
Qed.

End CatalogProperties.

Lemma collectOperations_keysIn (spec : OpenApiSpec) :
  Forall (keysIn (catalogStrings spec)) (collectOperations spec).
Proof.
  apply Forall_forall. intros o Ho. unfold keysIn, catalogStrings.
  repeat split; apply in_flat_map; exists o; (split; [exact Ho|]); cbn [In]; auto.
Qed.

(** The catalog of a host that puts [alpha] before [Beta] is not in the
    order of the code units, in which [Beta] comes first. *)
Lemma catalog_not_in_code_unit_order :
  exists a b,
    nth_error (parseOperations alphabeticalCompare caseSpec) 0 = Some a
    /\ nth_error (parseOperations alphabeticalCompare caseSpec) 1 = Some b
    /\ po_tag a = lit "alpha" /\ po_tag b = lit "Beta"
    /\ ~ lexicographicLe a b.
Proof.
  eexists; eexists.
  split; [reflexivity|]. split; [reflexivity|].
  split; [reflexivity|]. split; [reflexivity|].
  unfold lexicographicLe, stringLt. intros [H|[H _]]; vm_compute in H; discriminate H.
Qed.

(** C6 (amended): the catalog is sorted by the collation of the host, not by
    the code units of the strings.  For every input document and every
    collation that is a strict total order on the tags, the paths and the
    method names of its operations, every operation [a] that comes before an
    operation [b] in the catalog, the one next to it in particular, satisfies
    (a.tag, a.path, a.method) <= (b.tag, b.path, b.method), lexicographically
    on the triple and each component in the order of the collation. *)
Theorem catalog_sorted (localeCompare : jsstr -> jsstr -> Z) (spec : OpenApiSpec)
    (i j : nat) (a b : ParsedOperation) :
  isTotalOrderOn localeCompare (catalogStrings spec) ->
  i < j ->
  nth_error (parseOperations localeCompare spec) i = Some a ->
  nth_error (parseOperations localeCompare spec) j = Some b ->
  keyLe localeCompare a b.
Proof.
  intros Hcollation Hij Ha Hb.
  exact (ordered_nth _ _
           (sortOperations_sorted localeCompare (catalogStrings spec) Hcollation
              (collectOperations spec) (collectOperations_keysIn spec))
           i j a b Hij Ha Hb).
Qed.

(** On the strings of [caseSpec] the collation is a strict total order. *)
Lemma alphabeticalCompare_order_caseSpec :
  isTotalOrderOn alphabeticalCompare (catalogStrings caseSpec).
Proof.
  assert (HK : catalogStrings caseSpec
               = [lit "Beta"; lit "/b"; lit "get"; lit "alpha"; lit "/a"; lit "get"])
    by reflexivity.
  rewrite HK. split; [|split].
  - intros x y Hx Hy. cbn [In] in Hx, Hy.
    repeat (destruct Hx as [<-|Hx]); try contradiction;
      repeat (destruct Hy as [<-|Hy]); try contradiction;
      intros H; try reflexivity; vm_compute in H; discriminate H.
  - intros x y Hx Hy. cbn [In] in Hx, Hy.
    repeat (destruct Hx as [<-|Hx]); try contradiction;
      repeat (destruct Hy as [<-|Hy]); try contradiction;
      vm_compute; split; intros H; (reflexivity || discriminate H).
  - intros x y z Hx Hy Hz. cbn [In] in Hx, Hy, Hz.
    repeat (destruct Hx as [<-|Hx]); try contradiction;
      repeat (destruct Hy as [<-|Hy]); try contradiction;
      repeat (destruct Hz as [<-|Hz]); try contradiction;
      intros H1 H2; vm_compute in H1, H2 |- *;
      (reflexivity || discriminate H1 || discriminate H2).
Qed.

Lemma catalog_sorted_witness :
  exists a b,
    nth_error (parseOperations alphabeticalCompare caseSpec) 0 = Some a
    /\ nth_error (parseOperations alphabeticalCompare caseSpec) 1 = Some b
    /\ po_tag a = lit "alpha" /\ po_tag b = lit "Beta"
    /\ keyLe alphabeticalCompare a b.
Proof.
  eexists; eexists.
  split; [reflexivity|]. split; [reflexivity|].
  split; [reflexivity|]. split; [reflexivity|].
  apply (catalog_sorted alphabeticalCompare caseSpec 0 1);
    [apply alphabeticalCompare_order_caseSpec | lia | reflexivity | reflexivity].
Defined.

Example sampleSpec_catalog_order :
  map (fun o => (po_path o, po_method o)) (parseOperations codeUnitCompare sampleSpec)
  = [(lit "/items", GET); (lit "/users", GET); (lit "/users", POST)].
Proof. reflexivity. Qed.

(** ** The catalog: identifiers *)

Lemma map_flat_map_swap {A B C : Type} (f : B -> C) (g : A -> list B) (l : list A) :
  map f (flat_map g l) = flat_map (fun x => map f (g x)) l.
Proof.
  induction l as [|x l IH]; simpl; [reflexivity|]. now rewrite map_app, IH.
Qed.

Lemma flat_map_flat_map {A B C : Type} (h : B -> list C) (g : A -> list B)
    (l : list A) :
  flat_map h (flat_map g l) = flat_map (fun x => flat_map h (g x)) l.
Proof.
  induction l as [|x l IH]; simpl; [reflexivity|]. now rewrite flat_map_app, IH.
Qed.

Lemma flat_map_pointwise {A B : Type} (g h : A -> list B) (l : list A) :
  (forall x, g x = h x) -> flat_map g l = flat_map h l.
Proof.
  intros H; induction l as [|x l IH]; simpl; [reflexivity|]. now rewrite H, IH.
Qed.

(** The identifier that [parseOperations] gives to a declared operation. *)
Lemma collectOperations_ids (spec : OpenApiSpec) :
  map po_id (collectOperations spec)
  = map (fun d => orElse (o_operationId (snd d))
                    (synthesizedId (snd (fst d)) (fst (fst d))))
      (declaredOperations spec).
Proof.
  unfold collectOperations, declaredOperations.
  rewrite !map_flat_map_swap. apply flat_map_pointwise; intros entry.
  rewrite !map_flat_map_swap. apply flat_map_pointwise; intros method.
  now destruct (pi_operation (snd entry) method).
Qed.

(** The identifiers of the walk are the declared ones and the synthesized
    ones, interleaved. *)
Lemma ids_split {A : Type} (f : A -> option jsstr) (g : A -> jsstr) (l : list A) :
  Permutation (map (fun d => orElse (f d) (g d)) l)
    (flat_map (fun d => match f d with Some id => [id] | None => [] end) l
     ++ flat_map (fun d => match f d with Some _ => [] | None => [g d] end) l).
Proof.
  induction l as [|d l IH]; simpl; [reflexivity|].
  destruct (f d); simpl.
  - now constructor.
  - now apply Permutation_cons_app.
Qed.

Lemma synthesizedId_injective (m m' : HttpMethod) (p p' : jsstr) :
  synthesizedId m p = synthesizedId m' p' -> m = m' /\ p = p'.
Proof.
  unfold synthesizedId; destruct m, m'; cbn; intros H;
    first [discriminate H | now (split; [reflexivity | congruence])].
Qed.

Lemma synthesizedIds_by_path (spec : OpenApiSpec) :
  synthesizedIds spec
  = flat_map (fun entry => synthesizedUnder entry SUPPORTED_METHODS) (spec_paths spec).
Proof.
  unfold synthesizedIds, declaredOperations, synthesizedUnder.
  rewrite flat_map_flat_map. apply flat_map_pointwise; intros entry.
  rewrite flat_map_flat_map. apply flat_map_pointwise; intros method.
  destruct (pi_operation (snd entry) method) as [op|]; [|reflexivity].
  cbn. now rewrite app_nil_r.
Qed.

Lemma synthesizedUnder_In (entry : jsstr * PathItemObject)
    (methods : list HttpMethod) (id : jsstr) :
  In id (synthesizedUnder entry methods) ->
  exists method, In method methods /\ id = synthesizedId method (fst entry).
Proof.
  unfold synthesizedUnder; rewrite in_flat_map; intros [method [Hm Hid]].
  exists method; split; [exact Hm|].
  destruct (pi_operation (snd entry) method) as [op|]; [|contradiction].
  destruct (o_operationId op); [contradiction|].
  destruct Hid as [<-|[]]; reflexivity.
Qed.

Lemma synthesizedUnder_NoDup (entry : jsstr * PathItemObject)
    (methods : list HttpMethod) :
  NoDup methods -> NoDup (synthesizedUnder entry methods).
Proof.
  induction 1 as [|method methods Hnew Hrest IH]; [constructor|].
  change (synthesizedUnder entry (method :: methods))
    with (match pi_operation (snd entry) method with
          | Some op =>
              match o_operationId op with
              | Some _ => []
              | None => [synthesizedId method (fst entry)]
              end
          | None => []
          end ++ synthesizedUnder entry methods).
  destruct (pi_operation (snd entry) method) as [op|]; [|exact IH].
  destruct (o_operationId op); [exact IH|].
  constructor; [|exact IH].
  intros Hin; apply synthesizedUnder_In in Hin as [m' [Hm' E]].
  apply synthesizedId_injective in E as [-> _]; contradiction.
Qed.

Lemma SUPPORTED_METHODS_NoDup : NoDup SUPPORTED_METHODS.
Proof.
  unfold SUPPORTED_METHODS.
  repeat (constructor; [simpl; intuition discriminate|]). constructor.
Qed.

Lemma synthesizedIds_NoDup (spec : OpenApiSpec) :
  NoDup (keys (spec_paths spec)) -> NoDup (synthesizedIds spec).
Proof.
  rewrite synthesizedIds_by_path.
  induction (spec_paths spec) as [|entry paths IH]; intros H; [constructor|].
  cbn [flat_map]. change (NoDup (fst entry :: keys paths)) in H.
  apply NoDup_cons_iff in H as [Hnew Hrest].
  apply NoDup_app.
  - apply synthesizedUnder_NoDup, SUPPORTED_METHODS_NoDup.
  - exact (IH Hrest).
  - intros id Hhere Hthere.
    apply synthesizedUnder_In in Hhere as [m [_ ->]].
    apply in_flat_map in Hthere as [entry' [Hentry' Hid]].
    apply synthesizedUnder_In in Hid as [m' [_ E]].
    apply synthesizedId_injective in E as [_ E].
    apply Hnew; rewrite E; unfold keys; now apply in_map.
Qed.

(** C4, as stated, fails: two operations that declare the same operation
    identifier are both kept under it, whatever the collation. *)
Lemma duplicate_operationId_kept :
  map po_id (collectOperations duplicateIdSpec) = [lit "dup"; lit "dup"]
  /\ ~ NoDup (map po_id (parseOperations codeUnitCompare duplicateIdSpec))
  /\ forall localeCompare,
       ~ NoDup (map po_id (parseOperations localeCompare duplicateIdSpec)).
Proof.
  assert (H : forall localeCompare,
             ~ NoDup (map po_id (parseOperations localeCompare duplicateIdSpec))).
  { intros localeCompare Hnodup.
    apply (Permutation_NoDup
             (Permutation_map po_id
                (sortOperations_perm localeCompare
                   (collectOperations duplicateIdSpec)))) in Hnodup.
    cbn in Hnodup. apply NoDup_cons_iff in Hnodup as [Hnew _].
    apply Hnew; left; reflexivity. }
  split; [reflexivity|]. split; [apply H | exact H].
Qed.

(** C4 (amended): for every input document (with distinct path keys) whose
    explicit operation identifiers are pairwise distinct and differ from every
    identifier synthesized as <method>_<path> for an operation that declares
    none, no two operations of the catalog share the same id.  The compiler
    itself does nothing to make identifiers distinct. *)
Theorem catalog_ids_unique (localeCompare : jsstr -> jsstr -> Z) (spec : OpenApiSpec) :
  NoDup (keys (spec_paths spec)) ->
  NoDup (explicitIds spec) ->
  (forall id, In id (explicitIds spec) -> ~ In id (synthesizedIds spec)) ->
  NoDup (map po_id (parseOperations localeCompare spec)).
Proof.
  intros Hpaths Hexplicit Hdisjoint.
  apply (Permutation_NoDup
           (Permutation_sym
              (Permutation_map po_id
                 (sortOperations_perm localeCompare (collectOperations spec))))).
  rewrite collectOperations_ids.
  apply (Permutation_NoDup
           (Permutation_sym
              (ids_split (fun d => o_operationId (snd d))
                 (fun d => synthesizedId (snd (fst d)) (fst (fst d)))
                 (declaredOperations spec)))).
  apply NoDup_app; [exact Hexplicit | now apply synthesizedIds_NoDup | exact Hdisjoint].
Qed.

Lemma catalog_ids_unique_witness :
  NoDup (map po_id (parseOperations codeUnitCompare sampleSpec)).
Proof.
  apply (catalog_ids_unique codeUnitCompare sampleSpec).
  - cbv; repeat (constructor; [simpl; intuition discriminate|]); constructor.
  - cbv; repeat (constructor; [simpl; intuition discriminate|]); constructor.
  - simpl; intros id [<-|[]] [H|[H|[]]]; discriminate H.
Defined.

Example sampleSpec_ids :
  map po_id (parseOperations codeUnitCompare sampleSpec)
  = [lit "get_/items"; lit "listUsers"; lit "post_/users"].
Proof. reflexivity. Qed.

(** ** The relay *)

Section RelayProperties.

Variable JSON_parse : jsstr -> option ProxyPayload.
Variable parseURL : jsstr -> option URL.
Variable toUpperCase : jsstr -> jsstr.
Variable toLowerCase : jsstr -> jsstr.
Variable fetch : jsstr -> RequestInit -> FetchOutcome.

Lemma hostAllowed_iff (targetUrl : URL) :
  hostAllowed targetUrl = true
  <-> protocol targetUrl = lit "https:" /\ In (hostname targetUrl) ALLOWED_HOSTS.
Proof.
  unfold hostAllowed; rewrite andb_true_iff, jsstr_eqb_eq, existsb_exists.
  split; intros [Hp Hh]; split; trivial.
  - destruct Hh as [h [Hin E]]; apply jsstr_eqb_eq in E; now subst.
  - exists (hostname targetUrl); split; [exact Hh | apply jsstr_eqb_refl].
Qed.

(** The host test comes before anything is read of the method, the headers
    or the body of the payload. *)
Lemma validate_disallowed_host (payload : ProxyPayload) (text : jsstr)
    (targetUrl : URL) :
  option_map trim (url payload) = Some text -> text <> [] ->
  parseURL text = Some targetUrl ->
  ~ (protocol targetUrl = lit "https:" /\ In (hostname targetUrl) ALLOWED_HOSTS) ->
  validate parseURL toUpperCase toLowerCase payload = inl disallowedHostResponse.
Proof.
  intros Hurl Hne Hparse Hhost. unfold validate. rewrite Hurl.
  destruct text as [|c text]; [congruence|]. rewrite Hparse.
  destruct (hostAllowed targetUrl) eqn:E; [|reflexivity].
  now apply hostAllowed_iff in E.
Qed.

(** C9: for every relay payload whose target URL (the URL that [new URL]
    makes of the payload's [url]) is not an HTTPS URL with a hostname in the
    fixed allow-list, both handlers reject the request with the
    disallowed-host error (HTTP 403), whatever the method, the headers and
    the body of the payload, and no upstream request is made. *)
Theorem relay_rejects_disallowed_host
    (target : jsstr) (payloadMethod : option jsstr)
    (payloadHeaders : option (Record jsstr)) (payloadBody : option jsstr)
    (targetUrl : URL) :
  let payload := {| url := Some target; method := payloadMethod;
                    headers := payloadHeaders; body := payloadBody |} in
  trim target <> [] ->
  parseURL (trim target) = Some targetUrl ->
  ~ (protocol targetUrl = lit "https:" /\ In (hostname targetUrl) ALLOWED_HOSTS) ->
  (forall text, JSON_parse text = Some payload ->
     handler_fetch_api JSON_parse parseURL toUpperCase toLowerCase fetch
       (lit "POST") text = disallowedHostResponse)
  /\ (forall text, JSON_parse text = Some payload ->
        handler JSON_parse parseURL toUpperCase toLowerCase fetch
          (Some (lit "POST")) (BodyText text) = disallowedHostResponse)
  /\ handler JSON_parse parseURL toUpperCase toLowerCase fetch
       (Some (lit "POST")) (BodyObject payload) = disallowedHostResponse
  /\ resp_status (fst disallowedHostResponse) = 403%Z
  /\ snd disallowedHostResponse = [].
Proof.
  intros payload Hne Hparse Hhost.
  pose proof (validate_disallowed_host payload (trim target) targetUrl
                eq_refl Hne Hparse Hhost) as Hv.
  repeat split.
  - intros text Htext. unfold handler_fetch_api.
    change (negb (jsstr_eqb (lit "POST") (lit "POST"))) with false.
    cbv iota. now rewrite Htext, Hv.
  - intros text Htext. unfold handler.
    change (negb (jsstr_eqb (lit "POST") (lit "POST"))) with false.
    cbv iota. now rewrite Htext, Hv.
  - unfold handler.
    change (negb (jsstr_eqb (lit "POST") (lit "POST"))) with false.
    cbv iota. now rewrite Hv.
Qed.

End RelayProperties.

Lemma relay_rejects_disallowed_host_witness :
  handler (fun _ => Some evilPayload) parseEvilUrl (fun s => s) (fun s => s)
    (fun _ _ => OtherError) (Some (lit "POST")) (BodyObject evilPayload)
  = disallowedHostResponse.
Proof.
  apply (relay_rejects_disallowed_host (fun _ => Some evilPayload) parseEvilUrl
           (fun s => s) (fun s => s) (fun _ _ => OtherError)
           (lit "https://evil.example.com/x") (Some (lit "delete"))
           (Some [(lit "Host", lit "api.tikhub.io")]) (Some (lit "{}")) evilUrl).
  - discriminate.
  - reflexivity.
  - simpl; intros [_ [H|[H|[]]]]; discriminate H.
Defined.

(** ** URL construction *)

Example buildUrl_example :
  buildUrl
    {| po_id := lit "listPosts"; po_tag := lit "Users"; po_method := GET;
       po_path := lit "/users/{id}/posts"; po_summary := []; po_description := [];
       po_requiresAuth := false;
       po_parameters :=
         [ {| pp_name := lit "id"; pp_required := true; pp_location := InPath;
              pp_description := []; pp_type := lit "string"; pp_defaultValue := [] |};
           {| pp_name := lit "limit"; pp_required := false; pp_location := InQuery;
              pp_description := []; pp_type := lit "integer";
              pp_defaultValue := lit "1" |} ];
       po_requestBodyType := None; po_requestBodyRaw := None;
       po_responseCodes := []; po_successExample := JObj [];
       po_errorExample := JObj [] |}
    (lit "https://api.example.com/")
    [(lit "id", lit "42")] [(lit "limit", lit "10")]
  = Some (lit "https://api.example.com/users/42/posts?limit=10").
Proof. reflexivity. Qed.

Example withPathParams_missing :
  withPathParams (lit "/users/{id}/posts") [] = Some (lit "/users/%7Bid%7D/posts").
Proof. reflexivity. Qed.

Example withPathParams_unpaired_surrogate :
  withPathParams (lit "/u/{" ++ [55296%N] ++ lit "}") [] = None.
Proof. reflexivity. Qed.

Example encodeURIComponent_utf8 :
  encodeURIComponent [233; 8364; 55357; 56832; 32]%N
  = Some (lit "%C3%A9%E2%82%AC%F0%9F%98%80%20").
Proof. reflexivity. Qed.

Lemma replace_outside (callback : jsstr -> option jsstr) (pre rest : jsstr) :
  existsb (N.eqb 123) pre = false ->
  replacePlaceholders callback None (pre ++ rest)
  = (r <- replacePlaceholders callback None rest ;; Some (pre ++ r)).
Proof.
  induction pre as [|c pre IH]; cbn [app existsb replacePlaceholders]; intros H.
  - now destruct (replacePlaceholders callback None rest).
  - apply orb_false_iff in H as [Hc Hpre]. rewrite N.eqb_sym in Hc.
    rewrite Hc, (IH Hpre).
    now destruct (replacePlaceholders callback None rest).
Qed.



















(* ================================================================== *)
(** * Part III: further properties of the sources                     *)
(* ================================================================== *)

(** ** [trim] *)

Lemma dropWhile_split (p : codeUnit -> bool) (s : jsstr) :
  exists dropped, s = dropped ++ dropWhile p s /\ forallb p dropped = true.
Proof.
  induction s as [|c s [dropped [E H]]]; [exists []; split; reflexivity|].
  simpl. destruct (p c) eqn:Ec.
  - exists (c :: dropped); split; [simpl; congruence | simpl; now rewrite Ec].
  - exists []; split; reflexivity.
Qed.

Lemma dropWhile_startsClean (s : jsstr) : startsClean (dropWhile isWhitespace s).
Proof.
  induction s as [|c s IH]; simpl; [exact I|].
  destruct (isWhitespace c) eqn:E; [exact IH | exact E].
Qed.

Lemma startsClean_dropWhile (s : jsstr) :
  startsClean s -> dropWhile isWhitespace s = s.
Proof. destruct s as [|c s]; simpl; [reflexivity | now intros ->]. Qed.

Lemma startsClean_prefix (a b : jsstr) :
  startsClean (a ++ b) -> startsClean a.
Proof. destruct a; simpl; auto. Qed.

(** What [trim] returns is trimmed, and a trimmed string is left alone. *)
Lemma trim_isTrimmed (s : jsstr) : isTrimmed (trim s).
Proof.
  unfold isTrimmed, trim, trimEnd, trimStart. split.
  - destruct (dropWhile_split isWhitespace (rev (dropWhile isWhitespace s)))
      as [dropped [E _]].
    apply (f_equal (@rev _)) in E. rewrite rev_involutive, rev_app_distr in E.
    apply (startsClean_prefix _ (rev dropped)). rewrite <- E.
    apply dropWhile_startsClean.
  - rewrite rev_involutive. apply dropWhile_startsClean.
Qed.

Lemma isTrimmed_trim (s : jsstr) : isTrimmed s -> trim s = s.
Proof.
  intros [Hhead Hlast]. unfold trim, trimEnd, trimStart.
  rewrite (startsClean_dropWhile _ Hhead), (startsClean_dropWhile _ Hlast).
  apply rev_involutive.
Qed.

Lemma trim_idempotent (s : jsstr) : trim (trim s) = trim s.
Proof. apply isTrimmed_trim, trim_isTrimmed. Qed.

Lemma dropWhile_In (p : codeUnit -> bool) (s : jsstr) (c : codeUnit) :
  In c (dropWhile p s) -> In c s.
Proof.
  destruct (dropWhile_split p s) as [dropped [E _]]. intros H.
  rewrite E. apply in_or_app; now right.
Qed.

Lemma dropWhile_keeps (p : codeUnit -> bool) (s : jsstr) (c : codeUnit) :
  In c s -> p c = false -> In c (dropWhile p s).
Proof.
  destruct (dropWhile_split p s) as [dropped [E Hdropped]]. intros H Hc.
  rewrite E in H. apply in_app_or in H as [H|H]; [|exact H].
  rewrite (proj1 (forallb_forall _ _) Hdropped c H) in Hc. discriminate.
Qed.

Lemma trim_In (s : jsstr) (c : codeUnit) : In c (trim s) -> In c s.
Proof.
  unfold trim, trimEnd, trimStart. intros H.
  rewrite <- in_rev in H. apply dropWhile_In in H. rewrite <- in_rev in H.
  now apply dropWhile_In in H.
Qed.

Lemma trim_keeps (s : jsstr) (c : codeUnit) :
  In c s -> isWhitespace c = false -> In c (trim s).
Proof.
  unfold trim, trimEnd, trimStart. intros H Hc.
  rewrite <- in_rev. apply dropWhile_keeps; [|exact Hc].
  rewrite <- in_rev. now apply dropWhile_keeps.
Qed.

(** ** [englishOnlyText]: further properties *)

Lemma slashPartsOf_trimmed (value part : jsstr) :
  In part (slashPartsOf value) -> part <> [] /\ isTrimmed part.
Proof.
  unfold slashPartsOf. intros H. apply filter_In in H as [H Hne].
  split; [now destruct part|].
  apply in_map_iff in H as [raw [<- _]]. apply trim_isTrimmed.
Qed.

Lemma split_In (sep : codeUnit) (s part : jsstr) (c : codeUnit) :
  In part (split sep s) -> In c part -> In c s.
Proof.
  revert part; induction s as [|x s IH]; intros part; simpl.
  - intros [<-|[]] [].
  - destruct (x =? sep)%N.
    + intros [<-|H] Hc; [destruct Hc | right; eauto].
    + destruct (split sep s) as [|p ps] eqn:E.
      * intros [<-|[]] [<-|[]]; now left.
      * intros [<-|H] Hc.
        -- destruct Hc as [<-|Hc]; [now left | right].
           apply (IH p); [now left | exact Hc].
        -- right. apply (IH part); [now right | exact Hc].
Qed.

Lemma slashPartsOf_In (value part : jsstr) (c : codeUnit) :
  In part (slashPartsOf value) -> In c part -> In c value.
Proof.
  unfold slashPartsOf. intros H Hc. apply filter_In in H as [H _].
  apply in_map_iff in H as [raw [<- Hraw]].
  apply trim_In in Hc. apply trim_In. exact (split_In _ _ _ _ Hraw Hc).
Qed.

(** The value that [englishOnlyText] returns is one of four. *)
Lemma englishOnlyText_cases (value : jsstr) :
  (trim value = [] /\ englishOnlyText value = [])
  \/ trim value <> []
     /\ (In (englishOnlyText value) (slashPartsOf value)
         \/ (englishOnlyText value
             = trim (replaceRuns isWhitespace (replaceRuns isCjk (trim value)))
             /\ englishOnlyText value <> [])
         \/ englishOnlyText value = trim value).
Proof.
  unfold englishOnlyText. fold (slashPartsOf value).
  destruct (trim value) as [|t0 trimmed] eqn:Et; [left; split; reflexivity|].
  right; split; [discriminate|]. cbn [str_truthy negb].
  set (choice := if (1 <? length (slashPartsOf value))%nat then _ else None).
  assert (Hchoice : forall part, choice = Some part -> In part (slashPartsOf value)).
  { intros part. unfold choice.
    destruct (1 <? length (slashPartsOf value))%nat; [|discriminate].
    destruct (find _ (slashPartsOf value)) as [p|] eqn:E1.
    - intros [= <-]. exact (proj1 (find_some _ _ E1)).
    - destruct (find (fun part0 => negb (hasCjk part0)) (slashPartsOf value))
        as [p|] eqn:E2.
      + intros [= <-]. exact (proj1 (find_some _ _ E2)).
      + intros E3. exact (proj1 (find_some _ _ E3)). }
  destruct choice as [[|c part]|].
  - destruct (slashPartsOf_trimmed value [] (Hchoice _ eq_refl)) as [H _].
    congruence.
  - left. exact (Hchoice _ eq_refl).
  - destruct (trim (replaceRuns isWhitespace (replaceRuns isCjk (t0 :: trimmed))))
      as [|s0 stripped]; cbn [str_truthy]; [right; right; reflexivity|].
    right; left; split; [reflexivity | discriminate].
Qed.

(** X1: [englishOnlyText] returns the empty string exactly for a blank
    input: a text with anything but white space in it never gets an empty
    label. *)
Theorem englishOnlyText_empty_iff_blank (value : jsstr) :
  englishOnlyText value = [] <-> trim value = [].
Proof.
  destruct (englishOnlyText_cases value) as [[Ht Hr] | [Ht H]]; [tauto|].
  split; [|contradiction]. intros Hr.
  destruct H as [H | [[_ H] | H]]; [|contradiction|congruence].
  rewrite Hr in H. now destruct (slashPartsOf_trimmed value [] H).
Qed.

(** X2: the text that [englishOnlyText] returns has no white space at either
    end: trimming it again changes nothing. *)
Theorem englishOnlyText_trimmed (value : jsstr) :
  isTrimmed (englishOnlyText value)
  /\ trim (englishOnlyText value) = englishOnlyText value.
Proof.
  assert (H : isTrimmed (englishOnlyText value)).
  { destruct (englishOnlyText_cases value) as [[_ ->] | [_ [H | [[-> _] | ->]]]].
    - split; exact I.
    - exact (proj2 (slashPartsOf_trimmed _ _ H)).
    - apply trim_isTrimmed.
    - apply trim_isTrimmed. }
  split; [exact H | now apply isTrimmed_trim].
Qed.

Lemma replaceRunsFrom_In (p : codeUnit -> bool) (s : jsstr) (inRun : bool)
    (c : codeUnit) :
  In c (replaceRunsFrom p inRun s) -> c = 32%N \/ (In c s /\ p c = false).
Proof.
  revert inRun; induction s as [|x s IH]; intros inRun; simpl; [tauto|].
  destruct (p x) eqn:Ex.
  - destruct inRun; [|intros [<-|H]; [now left|]];
      intros; destruct (IH _ ltac:(eassumption)) as [->|[? ?]]; auto.
  - intros [<-|H]; [right; split; [now left | exact Ex]|].
    destruct (IH _ H) as [->|[? ?]]; auto.
Qed.

Lemma replaceRunsFrom_keeps (p : codeUnit -> bool) (s : jsstr) (inRun : bool)
    (c : codeUnit) :
  In c s -> p c = false -> In c (replaceRunsFrom p inRun s).
Proof.
  revert inRun; induction s as [|x s IH]; intros inRun; simpl; [tauto|].
  intros [->|H] Hc.
  - rewrite Hc; now left.
  - destruct (p x); [destruct inRun|]; simpl; auto.
Qed.

(** X3: for a text without a slash that has a code unit that is neither CJK
    nor white space, [englishOnlyText] returns the text with its CJK runs
    replaced, its white space collapsed and trimmed; the result is not empty
    and has no CJK character left. *)
Theorem englishOnlyText_strips_cjk (value : jsstr) (kept : codeUnit) :
  existsb (N.eqb 47) value = false ->
  In kept value -> isCjk kept = false -> isWhitespace kept = false ->
  englishOnlyText value
  = trim (replaceRuns isWhitespace (replaceRuns isCjk (trim value)))
  /\ englishOnlyText value <> []
  /\ hasCjk (englishOnlyText value) = false.
Proof.
  intros Hslash Hin Hcjk Hws.
  set (stripped := trim (replaceRuns isWhitespace (replaceRuns isCjk (trim value)))).
  assert (Hkept : In kept stripped).
  { apply trim_keeps; [|exact Hws].
    apply replaceRunsFrom_keeps; [|exact Hws].
    apply replaceRunsFrom_keeps; [|exact Hcjk].
    now apply trim_keeps. }
  assert (Hparts : slashPartsOf value = [trim value]).
  { unfold slashPartsOf. rewrite split_no_separator.
    - cbn [map]. rewrite trim_idempotent. cbn [filter].
      destruct (trim value) eqn:E; [|reflexivity].
      exfalso. apply (trim_keeps value kept Hin) in Hws. now rewrite E in Hws.
    - apply forallb_forall; intros x Hx. apply trim_In in Hx.
      apply negb_true_iff, N.eqb_neq; intros ->.
      assert (existsb (N.eqb 47) value = true)
        by (apply existsb_exists; exists 47%N; split; [exact Hx | reflexivity]).
      congruence. }
  assert (Hresult : englishOnlyText value = stripped).
  { unfold englishOnlyText. fold (slashPartsOf value). rewrite Hparts.
    cbn [length Nat.ltb Nat.leb]. fold stripped.
    destruct (trim value) eqn:E.
    - exfalso. apply (trim_keeps value kept Hin) in Hws. now rewrite E in Hws.
    - cbn [str_truthy negb]. destruct stripped; [destruct Hkept | reflexivity]. }
  rewrite Hresult. split; [reflexivity|]. split.
  - intros E; now rewrite E in Hkept.
  - apply not_true_iff_false; intros H. apply existsb_exists in H as [x [Hx Hc]].
    apply trim_In in Hx.
    apply replaceRunsFrom_In in Hx as [->|[Hx _]]; [discriminate|].
    apply replaceRunsFrom_In in Hx as [->|[_ Hx]]; [discriminate|congruence].
Qed.

Lemma englishOnlyText_strips_cjk_witness :
  englishOnlyText ([20165; 20013] ++ lit " user")%N = lit "user".
Proof.
  destruct (englishOnlyText_strips_cjk ([20165; 20013] ++ lit " user")%N 117%N
              eq_refl ltac:(simpl; tauto) eq_refl eq_refl) as [H _].
  rewrite H; reflexivity.
Defined.

Lemma find_pointwise {A : Type} (f g : A -> bool) (l : list A) :
  (forall x, In x l -> f x = g x) -> find f l = find g l.
Proof.
  induction l as [|x l IH]; intros H; simpl; [reflexivity|].
  rewrite (H x (or_introl eq_refl)). destruct (g x); [reflexivity|].
  apply IH; intros; apply H; now right.
Qed.

Lemma slashParts_nonblank (value : jsstr) :
  slashPartsOf value <> [] -> trim value <> [].
Proof. unfold slashPartsOf; intros H E; rewrite E in H; now apply H. Qed.

(** X4: for a text with a slash and no CJK character, [englishOnlyText]
    returns one part only, the first with a Latin letter (the first one when
    there is no Latin letter at all): what follows the slash is dropped. *)
Theorem englishOnlyText_keeps_one_slash_part (value : jsstr) :
  hasCjk value = false ->
  1 < length (slashPartsOf value) ->
  englishOnlyText value
  = orElse (find hasLatin (slashPartsOf value)) (hd [] (slashPartsOf value)).
Proof.
  intros Hcjk Hlen.
  assert (Hparts : forall part, In part (slashPartsOf value) -> hasCjk part = false).
  { intros part Hpart. apply not_true_iff_false; intros H.
    apply existsb_exists in H as [c [Hc Hyes]].
    assert (hasCjk value = true); [|congruence].
    apply existsb_exists; exists c; split; [|exact Hyes].
    exact (slashPartsOf_In _ _ _ Hpart Hc). }
  assert (Hne : trim value <> []).
  { apply slashParts_nonblank; intros E; rewrite E in Hlen; simpl in Hlen; lia. }
  unfold englishOnlyText. fold (slashPartsOf value).
  destruct (trim value) as [|t0 trimmed]; [congruence|]. cbn [str_truthy negb].
  replace (1 <? length (slashPartsOf value)) with true
    by (symmetry; now apply Nat.ltb_lt).
  rewrite (find_pointwise (fun part => hasLatin part && negb (hasCjk part)) hasLatin)
    by (intros x Hx; rewrite (Hparts x Hx); apply andb_true_r).
  destruct (find hasLatin (slashPartsOf value)) as [p|] eqn:E1.
  - destruct (slashPartsOf_trimmed value p (proj1 (find_some _ _ E1))) as [Hp _].
    now destruct p.
  - destruct (slashPartsOf value) as [|p0 parts] eqn:E0; [simpl in Hlen; lia|].
    cbn [find hd orElse]. rewrite (Hparts p0 (or_introl eq_refl)). cbn [negb].
    assert (In p0 (slashPartsOf value)) by (rewrite E0; now left).
    destruct (slashPartsOf_trimmed value p0 H) as [Hp _]. now destruct p0.
Qed.

Lemma englishOnlyText_keeps_one_slash_part_witness :
  englishOnlyText (lit "Search users and/or posts") = lit "Search users and".
Proof.
  rewrite (englishOnlyText_keeps_one_slash_part (lit "Search users and/or posts"));
    [reflexivity | reflexivity | simpl; lia].
Defined.

(** X5: when the text has several slash parts and one of them has a Latin
    letter and no CJK character, [englishOnlyText] returns such a part: the
    label has a Latin letter and no CJK character. *)
Theorem englishOnlyText_prefers_english (value english : jsstr) :
  1 < length (slashPartsOf value) ->
  In english (slashPartsOf value) ->
  hasLatin english = true -> hasCjk english = false ->
  In (englishOnlyText value) (slashPartsOf value)
  /\ hasLatin (englishOnlyText value) = true
  /\ hasCjk (englishOnlyText value) = false.
Proof.
  intros Hlen Hin Hlatin Hcjk.
  assert (Hne : trim value <> []).
  { apply slashParts_nonblank; intros E; rewrite E in Hlen; simpl in Hlen; lia. }
  unfold englishOnlyText. fold (slashPartsOf value).
  destruct (trim value) as [|t0 trimmed]; [congruence|]. cbn [str_truthy negb].
  replace (1 <? length (slashPartsOf value)) with true
    by (symmetry; now apply Nat.ltb_lt).
  destruct (find (fun part => hasLatin part && negb (hasCjk part))
              (slashPartsOf value)) as [p|] eqn:E.
  - destruct (find_some _ _ E) as [Hp Hok].
    apply andb_true_iff in Hok as [H1 H2]. apply negb_true_iff in H2.
    destruct (slashPartsOf_trimmed value p Hp) as [Hnonempty _].
    destruct p; [congruence|]. auto.
  - pose proof (List.find_none _ _ E english Hin) as H. cbv beta in H.
    rewrite Hlatin, Hcjk in H. discriminate.
Qed.

Lemma englishOnlyText_prefers_english_witness :
  hasCjk (englishOnlyText
            ([33719; 21462; 29992; 25143; 20449; 24687] ++ lit " / Get user info")%N)
  = false.
Proof.
  apply (englishOnlyText_prefers_english
           ([33719; 21462; 29992; 25143; 20449; 24687] ++ lit " / Get user info")%N
           (lit "Get user info")).
  - simpl; lia.
  - simpl; tauto.
  - reflexivity.
  - reflexivity.
Defined.

(** ** Schema references *)

Lemma split_nonempty (sep : codeUnit) (s : jsstr) : split sep s <> [].
Proof.
  destruct s as [|c s]; simpl; [discriminate|].
  destruct (c =? sep)%N; [discriminate|]. destruct (split sep s); discriminate.
Qed.

Lemma split_at_separator (sep : codeUnit) (a b : jsstr) :
  split sep (a ++ sep :: b) = split sep a ++ split sep b.
Proof.
  induction a as [|c a IH]; simpl.
  - now rewrite N.eqb_refl.
  - destruct (c =? sep)%N; [now rewrite IH|].
    rewrite IH. pose proof (split_nonempty sep a).
    destruct (split sep a); [congruence | reflexivity].
Qed.

Lemma getRefName_last_segment (prefix name : jsstr) :
  existsb (N.eqb 47) name = false ->
  getRefName (prefix ++ lit "/" ++ name) = name.
Proof.
  intros H. unfold getRefName.
  change (prefix ++ lit "/" ++ name) with (prefix ++ 47%N :: name).
  rewrite split_at_separator, (split_no_separator 47%N name), last_last;
    [reflexivity|].
  apply forallb_forall; intros x Hx. apply negb_true_iff, N.eqb_neq; intros ->.
  assert (existsb (N.eqb 47) name = true)
    by (apply existsb_exists; exists 47%N; split; [exact Hx | reflexivity]).
  congruence.
Qed.

(** X6: a reference is resolved by the last segment of its [$ref] alone,
    whatever comes before the last slash: the node resolves to the entry of
    the schema table under that name, and to itself when there is none (a
    dangling reference raises nothing).  The name is not an inherited one. *)
Theorem resolveSchema_by_last_segment
    (schema : SchemaObject) (schemas : Record SchemaObject) (prefix name : jsstr) :
  s_ref schema = Some (prefix ++ lit "/" ++ name) ->
  existsb (N.eqb 47) name = false ->
  isInherited name = false ->
  resolveSchema (Some schema) schemas
  = Some (orElse (lookup name schemas) schema).
Proof.
  intros Href Hname _. unfold resolveSchema. rewrite Href.
  destruct (prefix ++ lit "/" ++ name) as [|c r] eqn:E.
  - destruct prefix; discriminate.
  - rewrite <- E, (getRefName_last_segment _ _ Hname). reflexivity.
Qed.

Lemma resolveSchema_by_last_segment_witness :
  resolveSchema (Some (referenceNode (lit "#/components/parameters/Node")))
    cyclicSchemas
  = Some (objectWith [(lit "child", refTo "Node")]).
Proof.
  rewrite (resolveSchema_by_last_segment
             (referenceNode (lit "#/components/parameters/Node")) cyclicSchemas
             (lit "#/components/parameters") (lit "Node") eq_refl eq_refl eq_refl).
  reflexivity.
Defined.

(** X7: a node that is nothing but a dangling reference (its name is not in
    the schema table) is synthesized, within the depth cap, as the string
    ["string"]. *)
Theorem dangling_reference_example
    (ref : jsstr) (schemas : Record SchemaObject) (depth : nat) :
  depth <= 5 ->
  lookup (getRefName ref) schemas = None ->
  buildExampleFromSchema (Some (referenceNode ref)) schemas depth
  = JStr (lit "string").
Proof.
  intros Hcap Hdangling.
  pose proof (buildExampleFromSchema_unfold schemas (referenceNode ref) depth Hcap)
    as H.
  assert (Hself : resolveSchema (Some (referenceNode ref)) schemas
                  = Some (referenceNode ref)).
  { unfold resolveSchema; cbn [referenceNode s_ref].
    destruct ref as [|c r]; [reflexivity | now rewrite Hdangling]. }
  unfold synthesizeNode in H. rewrite Hself in H. cbn in H.
  now injection H as <-.
Qed.

Lemma dangling_reference_example_witness :
  buildExampleFromSchema (Some (referenceNode (lit "#/components/schemas/Missing")))
    cyclicSchemas 0
  = JStr (lit "string").
Proof.
  apply (dangling_reference_example (lit "#/components/schemas/Missing")
           cyclicSchemas 0); [lia | reflexivity].
Defined.

(** X8: a reference is followed one step only.  A node that is nothing but a
    reference to a table entry that is itself nothing but a reference is
    synthesized, within the depth cap, as the string ["string"], whatever the
    second reference leads to. *)
Theorem reference_to_reference_example
    (ref target : jsstr) (schemas : Record SchemaObject) (depth : nat) :
  depth <= 5 ->
  ref <> [] ->
  lookup (getRefName ref) schemas = Some (referenceNode target) ->
  buildExampleFromSchema (Some (referenceNode ref)) schemas depth
  = JStr (lit "string").
Proof.
  intros Hcap Hne Halias.
  pose proof (buildExampleFromSchema_unfold schemas (referenceNode ref) depth Hcap)
    as H.
  assert (Hstep : resolveSchema (Some (referenceNode ref)) schemas
                  = Some (referenceNode target)).
  { unfold resolveSchema; cbn [referenceNode s_ref].
    destruct ref as [|c r]; [congruence | now rewrite Halias]. }
  unfold synthesizeNode in H. rewrite Hstep in H. cbn in H.
  now injection H as <-.
Qed.

Lemma reference_to_reference_example_witness :
  buildExampleFromSchema (Some (referenceNode (lit "#/components/schemas/Alias")))
    aliasSchemas 0
  = JStr (lit "string").
Proof.
  apply (reference_to_reference_example (lit "#/components/schemas/Alias")
           (lit "#/components/schemas/Node") aliasSchemas 0);
    [lia | discriminate | reflexivity].
Defined.

(** ** [parseBaseUrls] *)

Lemma matchBaseUrls_In (s : jsstr) :
  forall (skip : nat) (u : jsstr),
    In u (matchBaseUrls skip s) -> In u DEFAULT_BASE_URLS.
Proof.
  induction s as [|c r IH]; intros skip u; cbn [matchBaseUrls]; [intros []|].
  destruct skip as [|k]; [|apply IH].
  destruct (startsWithText BASE_URL_IO (c :: r)).
  - intros [<-|H]; [left; reflexivity | exact (IH _ _ H)].
  - destruct (startsWithText BASE_URL_DEV (c :: r)).
    + intros [<-|H]; [right; left; reflexivity | exact (IH _ _ H)].
    + apply IH.
Qed.

Lemma uniqueStrings_from (l : list jsstr) :
  forall seen : list jsstr,
    NoDup seen ->
    let out :=
      fold_left (fun seen x => if includes seen x then seen else seen ++ [x]) l seen in
    NoDup out /\ forall x, In x out <-> In x seen \/ In x l.
Proof.
  induction l as [|a l IH]; intros seen Hseen; cbn [fold_left].
  - split; [assumption | intros x; simpl; tauto].
  - destruct (includes seen a) eqn:E.
    + destruct (IH seen Hseen) as [Hn Hi]. split; [assumption|].
      intros x; rewrite Hi. apply includes_In in E. simpl.
      intuition (subst; auto).
    + assert (Hfresh : ~ In a seen)
        by (intros H; apply includes_In in H; congruence).
      assert (Hn' : NoDup (seen ++ [a])).
      { apply (Permutation_NoDup (Permutation_cons_append seen a)).
        now constructor. }
      destruct (IH (seen ++ [a]) Hn') as [Hn Hi]. split; [assumption|].
      intros x; rewrite Hi, in_app_iff. simpl. tauto.
Qed.

Lemma DEFAULT_BASE_URLS_NoDup : NoDup DEFAULT_BASE_URLS.
Proof.
  constructor; [|constructor; [intros [] | constructor]].
  intros [H|[]]; vm_compute in H; discriminate H.
Qed.

Lemma DEFAULT_BASE_URLS_hosts (u : jsstr) :
  In u DEFAULT_BASE_URLS ->
  exists host, In host ALLOWED_HOSTS /\ u = lit "https://" ++ host.
Proof.
  intros [<-|[<-|[]]].
  - exists (lit "api.tikhub.io"); split; [left; reflexivity | reflexivity].
  - exists (lit "api.tikhub.dev"); split; [right; left; reflexivity | reflexivity].
Qed.

(** X9: the base URLs read from the description of the document are never
    empty, hold no URL twice, and each of them is [https://] followed by a
    host that the relay allows, whatever the description says (absent, empty
    or without a match: the two default URLs). *)
Theorem parseBaseUrls_allowed (infoDescription : option jsstr) :
  parseBaseUrls infoDescription <> []
  /\ NoDup (parseBaseUrls infoDescription)
  /\ forall u, In u (parseBaseUrls infoDescription) ->
       exists host, In host ALLOWED_HOSTS /\ u = lit "https://" ++ host.
Proof.
  assert (Hdefault :
    DEFAULT_BASE_URLS <> [] /\ NoDup DEFAULT_BASE_URLS
    /\ forall u, In u DEFAULT_BASE_URLS ->
         exists host, In host ALLOWED_HOSTS /\ u = lit "https://" ++ host).
  { split; [discriminate|]. split; [apply DEFAULT_BASE_URLS_NoDup|].
    apply DEFAULT_BASE_URLS_hosts. }
  unfold parseBaseUrls. destruct infoDescription as [[|c text]|]; try exact Hdefault.
  destruct (uniqueStrings_from (matchBaseUrls 0 (c :: text)) [] (NoDup_nil _))
    as [Hn Hi].
  fold (uniqueStrings (matchBaseUrls 0 (c :: text))) in Hn, Hi.
  destruct (uniqueStrings (matchBaseUrls 0 (c :: text))) as [|u unique];
    [exact Hdefault|].
  split; [discriminate|]. split; [exact Hn|].
  intros v Hv. apply DEFAULT_BASE_URLS_hosts.
  apply Hi in Hv as [[]|Hv]. exact (matchBaseUrls_In _ _ _ Hv).
Qed.

(** ** [inferApp] *)

Lemma APP_KEYWORDS_names (candidate : jsstr * list jsstr) :
  In candidate APP_KEYWORDS -> fst candidate <> lit "Other".
Proof.
  intros Hin.
  assert (H : forallb (fun c => negb (jsstr_eqb (fst c) (lit "Other"))) APP_KEYWORDS
              = true) by (vm_compute; reflexivity).
  rewrite forallb_forall in H. specialize (H _ Hin).
  now apply negb_true_iff, jsstr_eqb_neq in H.
Qed.

(** X10: the application inferred for an operation is ["Other"] exactly when
    none of the keywords of the table occurs in the lower-cased text
    [tag path operationId]. *)
Theorem inferApp_other_iff
    (toLowerCase : jsstr -> jsstr) (tag path operationId : jsstr) :
  inferApp toLowerCase tag path operationId = lit "Other"
  <-> forall candidate key,
        In candidate APP_KEYWORDS -> In key (snd candidate) ->
        includesText key
          (toLowerCase (tag ++ lit " " ++ path ++ lit " " ++ operationId)) = false.
Proof.
  unfold inferApp.
  set (raw := toLowerCase (tag ++ lit " " ++ path ++ lit " " ++ operationId)).
  destruct (find _ APP_KEYWORDS) as [found|] eqn:E.
  - apply find_some in E as [Hin Hex]. split.
    + intros Heq. exfalso. exact (APP_KEYWORDS_names _ Hin Heq).
    + intros Hall. exfalso. apply existsb_exists in Hex as [key [Hk Hinc]].
      rewrite (Hall _ _ Hin Hk) in Hinc. discriminate.
  - split; [|reflexivity]. intros _ candidate key Hc Hk.
    pose proof (List.find_none _ _ E candidate Hc) as Hnone. cbv beta in Hnone.
    destruct (includesText key raw) eqn:Hinc; [|reflexivity].
    assert (existsb (fun key => includesText key raw) (snd candidate) = true)
      by (apply existsb_exists; exists key; split; assumption).
    congruence.
Qed.

(** ** The normalized operation *)

Lemma NoDup_by_filter {A B : Type} (f : A -> B) (same : A -> A -> bool) (l : list A) :
  (forall x y, same x y = true <-> f y = f x) ->
  (forall x, length (filter (same x) l) <= 1) ->
  NoDup (map f l).
Proof.
  intros Hsame. induction l as [|a l IH]; intros Hlen; simpl; constructor.
  - intros Hin. apply in_map_iff in Hin as [y [Hy Hiny]].
    specialize (Hlen a). simpl in Hlen.
    assert (Ha : same a a = true) by (apply Hsame; reflexivity).
    rewrite Ha in Hlen.
    assert (Hy' : In y (filter (same a) l))
      by (apply filter_In; split; [assumption | apply Hsame; assumption]).
    destruct (filter (same a) l); [contradiction | simpl in Hlen; lia].
  - apply IH. intros x. specialize (Hlen x). simpl in Hlen.
    destruct (same x a); simpl in Hlen; lia.
Qed.

(** X11: in a normalized operation no two parameters have the same name and
    location, and every (name, location) pair declared at the path level or
    at the operation level is the identity of one of its parameters. *)
Theorem normalized_parameters_distinct
    (schemas : Record SchemaObject) (path : jsstr) (pathItem : PathItemObject)
    (method : HttpMethod) (op : OperationObject) :
  let parameters :=
    po_parameters (normalizeOperation schemas path pathItem method op) in
  NoDup (map parameterIdentity parameters)
  /\ forall p, In p (mergedParameters pathItem op) ->
       In (p_name p, p_in p) (map parameterIdentity parameters).
Proof.
  unfold normalizeOperation; cbn [po_parameters]. cbv zeta.
  set (merged := mergedParameters pathItem op).
  rewrite map_map.
  change (fun x => parameterIdentity (parseParameter schemas x))
    with (fun p : ParameterObject => (p_name p, p_in p)).
  split.
  - apply (NoDup_by_filter _ sameParameter).
    + intros x y. rewrite sameParameter_iff. split.
      * intros [-> ->]; reflexivity.
      * intros H; injection H; auto.
    + intros x. rewrite uniqueParameters_filter.
      destruct (find (sameParameter x) merged); simpl; lia.
  - intros p Hp.
    pose proof (uniqueParameters_filter p merged) as Hf.
    destruct (find (sameParameter p) merged) as [x|] eqn:E.
    + assert (Hx : In x (filter (sameParameter p) (uniqueParameters merged)))
        by (rewrite Hf; left; reflexivity).
      apply filter_In in Hx as [Hx Hsame].
      apply sameParameter_iff in Hsame as [Hn Hl].
      apply in_map_iff. exists x. split; [now rewrite Hn, Hl | exact Hx].
    + pose proof (List.find_none _ _ E p Hp) as Hnone.
      rewrite sameParameter_refl in Hnone. discriminate.
Qed.

(** X12: a normalized operation has a request body type exactly when it has a
    request body example.  Both are absent exactly when the operation
    declares no request body, no content or an empty content; otherwise the
    type is the first key of the content and the example exists. *)
Theorem requestBody_type_iff_example
    (schemas : Record SchemaObject) (path : jsstr) (pathItem : PathItemObject)
    (method : HttpMethod) (op : OperationObject) :
  let o := normalizeOperation schemas path pathItem method op in
  let content := bind (o_requestBody op) rb_content in
  (po_requestBodyType o = None <-> po_requestBodyRaw o = None)
  /\ (po_requestBodyType o = None <-> noList content)
  /\ (forall key media rest,
        content = Some ((key, media) :: rest) ->
        po_requestBodyType o = Some key
        /\ exists example, po_requestBodyRaw o = Some example).
Proof.
  unfold normalizeOperation; cbn [po_requestBodyType po_requestBodyRaw]. cbv zeta.
  unfold noList.
  destruct (bind (o_requestBody op) rb_content) as [[|[k m] c]|]; cbn [bind].
  - cbn. split; [intuition auto|]. split; [intuition auto|].
    intros key media rest H; discriminate H.
  - match goal with
    | |- context [getExampleFromMedia ?content schemas] =>
        assert (Hraw : exists example,
                   getExampleFromMedia content schemas = Some example)
    end.
    { unfold getExampleFromMedia; cbn [values map snd].
      destruct (m_example m); [eauto|].
      destruct (m_examples m) as [ex|]; [|eauto].
      destruct (values ex) as [|[e|] r]; eauto. }
    destruct Hraw as [example Hraw]. rewrite Hraw. cbn [keys map fst hd_error].
    split; [split; discriminate|].
    split; [split; [discriminate | intros [H|H]; discriminate H]|].
    intros key media rest H. injection H as <- _ _. split; [reflexivity | eauto].
  - cbn. split; [intuition auto|]. split; [intuition auto|].
    intros key media rest H; discriminate H.
Qed.

Lemma lookup_In {T : Type} (key : jsstr) (rec : Record T) (v : T) :
  lookup key rec = Some v -> In (key, v) rec.
Proof.
  induction rec as [|[k w] r IH]; simpl; [discriminate|].
  destruct (jsstr_eqb k key) eqn:E.
  - intros H; injection H as <-. apply jsstr_eqb_eq in E as <-. now left.
  - intros H; right; exact (IH H).
Qed.

Lemma getExampleFromMedia_no_content (content : option (Record MediaTypeObject))
    (schemas : Record SchemaObject) :
  noList content -> getExampleFromMedia content schemas = None.
Proof. intros [->| ->]; reflexivity. Qed.

(** X13: when no declared response of an operation has a media entry (no
    content, or an empty one), and in particular when it declares no response
    at all, the success example and the error example of the normalized
    operation are both the empty object. *)
Theorem examples_without_content
    (schemas : Record SchemaObject) (path : jsstr) (pathItem : PathItemObject)
    (method : HttpMethod) (op : OperationObject) :
  (forall code r, In (code, r) (o_responses op) -> noList (r_content r)) ->
  let o := normalizeOperation schemas path pathItem method op in
  po_successExample o = JObj [] /\ po_errorExample o = JObj [].
Proof.
  intros Hnone.
  assert (H : forall preferred,
             responseExample (o_responses op) preferred schemas = JObj []).
  { intros preferred. unfold responseExample.
    assert (Hp : getExampleFromMedia
                   (bind (lookup preferred (o_responses op)) r_content) schemas
                 = None).
    { destruct (lookup preferred (o_responses op)) as [r|] eqn:E; [|reflexivity].
      apply getExampleFromMedia_no_content, (Hnone preferred), lookup_In, E. }
    rewrite Hp.
    assert (Hf : getExampleFromMedia
                   (bind (hd_error (values (o_responses op))) r_content) schemas
                 = None).
    { destruct (o_responses op) as [|[k r] rest]; [reflexivity|].
      apply getExampleFromMedia_no_content, (Hnone k). now left. }
    now rewrite Hf. }
  unfold normalizeOperation; cbn [po_successExample po_errorExample]. cbv zeta.
  split; apply H.
Qed.

Lemma examples_without_content_witness :
  let o := normalizeOperation [] (lit "/items/{id}")
             (pathItemOf None deleteOperation) DELETE deleteOperation in
  po_successExample o = JObj [] /\ po_errorExample o = JObj [].
Proof.
  apply (examples_without_content [] (lit "/items/{id}")
           (pathItemOf None deleteOperation) DELETE deleteOperation).
  intros code r [H|[]]. injection H as _ <-. left; reflexivity.
Defined.

(** ** The catalog: its operations *)

Lemma flat_map_length_pointwise {A B C : Type} (g : A -> list B) (h : A -> list C)
    (l : list A) :
  (forall x, length (g x) = length (h x)) ->
  length (flat_map g l) = length (flat_map h l).
Proof.
  intros H. induction l as [|a l IH]; simpl; [reflexivity|].
  now rewrite !length_app, H, IH.
Qed.

Lemma SUPPORTED_METHODS_all (method : HttpMethod) : In method SUPPORTED_METHODS.
Proof. destruct method; simpl; tauto. Qed.

(** X14: the catalog holds exactly the normalizations of the operations that
    the document declares: one entry for each (path, method) pair under which
    an operation is declared, none lost and none made up by the sort. *)
Theorem catalog_operations (localeCompare : jsstr -> jsstr -> Z) (spec : OpenApiSpec) :
  length (parseOperations localeCompare spec) = length (declaredOperations spec)
  /\ forall o,
       In o (parseOperations localeCompare spec)
       <-> exists path pathItem method op,
             In (path, pathItem) (spec_paths spec)
             /\ pi_operation pathItem method = Some op
             /\ o = normalizeOperation (orElse (spec_schemas spec) [])
                      path pathItem method op.
Proof.
  unfold parseOperations.
  pose proof (sortOperations_perm localeCompare (collectOperations spec)) as Hperm.
  split.
  - rewrite (Permutation_length Hperm).
    unfold collectOperations, declaredOperations.
    apply flat_map_length_pointwise; intros entry.
    apply flat_map_length_pointwise; intros method.
    now destruct (pi_operation (snd entry) method).
  - intros o. split.
    + intros Hin. apply (Permutation_in _ Hperm) in Hin.
      unfold collectOperations in Hin.
      apply in_flat_map in Hin as [[path pathItem] [Hentry Hin]].
      apply in_flat_map in Hin as [method [_ Hin]]. cbn [fst snd] in Hin.
      destruct (pi_operation pathItem method) as [op|] eqn:E; [|destruct Hin].
      destruct Hin as [<-|[]]. now exists path, pathItem, method, op.
    + intros [path [pathItem [method [op [Hentry [Hop ->]]]]]].
      apply (Permutation_in _ (Permutation_sym Hperm)).
      unfold collectOperations.
      apply in_flat_map. exists (path, pathItem). split; [exact Hentry|].
      apply in_flat_map. exists method. split; [apply SUPPORTED_METHODS_all|].
      cbn [fst snd]. rewrite Hop. now left.
Qed.

(** ** URL construction: the path and the base *)

Lemma buildUrl_queryOf (operation : ParsedOperation) (baseUrl : jsstr)
    (pathValues queryValues : Record jsstr) :
  buildUrl operation baseUrl pathValues queryValues
  = (path <- withPathParams (po_path operation) pathValues ;;
     Some (dropTrailingSlash baseUrl ++ path
           ++ querySuffix (queryOf operation queryValues))).
Proof. reflexivity. Qed.

Lemma withPathParams_plain (path : jsstr) (pathValues : Record jsstr) :
  existsb (N.eqb 123) path = false -> withPathParams path pathValues = Some path.
Proof.
  intros H. unfold withPathParams.
  rewrite <- (app_nil_r path) at 1. rewrite (replace_outside _ _ _ H).
  cbn. now rewrite app_nil_r.
Qed.

(** X15: a path template without an opening brace is taken as it is: the
    path values are not read, nothing is encoded and no error is raised, and
    the URL is the base (less one trailing slash), the path and the query.
    No query parameter has an inherited name. *)
Theorem buildUrl_plain_path (operation : ParsedOperation) (baseUrl : jsstr)
    (pathValues queryValues : Record jsstr) :
  ownNames InQuery operation = true ->
  existsb (N.eqb 123) (po_path operation) = false ->
  buildUrl operation baseUrl pathValues queryValues
  = Some (dropTrailingSlash baseUrl ++ po_path operation
          ++ querySuffix (queryOf operation queryValues)).
Proof.
  intros _ H. rewrite buildUrl_queryOf, (withPathParams_plain _ _ H). reflexivity.
Qed.

Lemma buildUrl_plain_path_witness :
  buildUrl searchOperation (lit "https://api.tikhub.io/")
    [(lit "id", [55296%N])] [(lit "q", lit "a b")]
  = Some (lit "https://api.tikhub.io/search?q=a+b").
Proof.
  rewrite (buildUrl_plain_path searchOperation (lit "https://api.tikhub.io/")
             [(lit "id", [55296%N])] [(lit "q", lit "a b")] eq_refl eq_refl).
  reflexivity.
Defined.

Lemma dropTrailingSlash_added (baseUrl : jsstr) :
  dropTrailingSlash (baseUrl ++ lit "/") = baseUrl.
Proof.
  unfold dropTrailingSlash. rewrite rev_app_distr. cbn. apply rev_involutive.
Qed.

Lemma dropTrailingSlash_none (baseUrl : jsstr) :
  last baseUrl 0%N <> 47%N -> dropTrailingSlash baseUrl = baseUrl.
Proof.
  intros H. unfold dropTrailingSlash.
  destruct (rev baseUrl) as [|c r] eqn:E; [reflexivity|].
  destruct (c =? 47)%N eqn:Ec; [|reflexivity].
  apply N.eqb_eq in Ec; subst c. exfalso; apply H.
  rewrite <- (rev_involutive baseUrl), E. cbn [rev]. apply last_last.
Qed.

(** X16: one trailing slash of the base URL makes no difference: a base that
    does not end in a slash and the same base with a slash added give the
    same URL. *)
Theorem buildUrl_trailing_slash (operation : ParsedOperation) (baseUrl : jsstr)
    (pathValues queryValues : Record jsstr) :
  last baseUrl 0%N <> 47%N ->
  buildUrl operation (baseUrl ++ lit "/") pathValues queryValues
  = buildUrl operation baseUrl pathValues queryValues.
Proof.
  intros H. rewrite !buildUrl_queryOf, dropTrailingSlash_added,
    (dropTrailingSlash_none _ H). reflexivity.
Qed.

Lemma buildUrl_trailing_slash_witness :
  buildUrl searchOperation (lit "https://api.tikhub.io" ++ lit "/") []
    [(lit "q", lit "a b")]
  = Some (lit "https://api.tikhub.io/search?q=a+b").
Proof.
  rewrite (buildUrl_trailing_slash searchOperation (lit "https://api.tikhub.io") []
             [(lit "q", lit "a b")] ltac:(discriminate)).
  reflexivity.
Defined.

(** ** URL construction: the query *)

Lemma searchParamsSet_unfold (query : list (jsstr * jsstr)) (name value : jsstr) :
  searchParamsSet query name value
  = match lookup name query with
    | None => query ++ [(name, value)]
    | Some _ => replaceFirst name value false query
    end.
Proof. reflexivity. Qed.

Lemma lookup_None_keys {T : Type} (key : jsstr) (rec : Record T) :
  lookup key rec = None <-> ~ In key (map fst rec).
Proof.
  induction rec as [|[k v] r IH]; simpl; [tauto|].
  destruct (jsstr_eqb k key) eqn:E.
  - apply jsstr_eqb_eq in E. split; [discriminate | intros H; exfalso; auto].
  - apply jsstr_eqb_neq in E. rewrite IH. tauto.
Qed.

Lemma replaceFirst_In (name value : jsstr) :
  forall (l : list (jsstr * jsstr)) (seen : bool) (n v : jsstr),
    In (n, v) (replaceFirst name value seen l)
    <-> (n <> name /\ In (n, v) l)
        \/ (seen = false /\ n = name /\ v = value /\ In name (map fst l)).
Proof.
  induction l as [|[k w] r IH]; intros seen n v.
  - simpl. tauto.
  - cbn [replaceFirst]. destruct (jsstr_eqb k name) eqn:E.
    + apply jsstr_eqb_eq in E; subst k. destruct seen.
      * rewrite IH. cbn [In map fst]. split.
        -- intros [[Hne Hin]|[Hf _]]; [left; tauto | discriminate].
        -- intros [[Hne [Heq|Hin]]|[Hf _]];
             [injection Heq as ? ?; congruence | left; tauto | discriminate].
      * cbn [In map fst]. rewrite IH. split.
        -- intros [Heq|[[Hne Hin]|[Hf _]]].
           ++ injection Heq as <- <-. right. repeat split; auto.
           ++ left; tauto.
           ++ discriminate.
        -- intros [[Hne [Heq|Hin]]|[_ [-> [-> _]]]].
           ++ injection Heq as ? ?; congruence.
           ++ right; left; tauto.
           ++ left; reflexivity.
    + apply jsstr_eqb_neq in E. cbn [In map fst]. rewrite IH. split.
      * intros [Heq|[[Hne Hin]|[Hf [Hn [Hv Hin]]]]].
        -- injection Heq as <- <-. left; split; [exact E | left; reflexivity].
        -- left; tauto.
        -- right; tauto.
      * intros [[Hne [Heq|Hin]]|[Hf [Hn [Hv [Hk|Hin]]]]].
        -- left; exact Heq.
        -- right; left; tauto.
        -- exfalso; exact (E Hk).
        -- right; right; tauto.
Qed.

Lemma replaceFirst_keys (name value : jsstr) :
  forall (l : list (jsstr * jsstr)) (seen : bool) (k : jsstr),
    In k (map fst (replaceFirst name value seen l)) -> In k (map fst l).
Proof.
  induction l as [|[k' w] r IH]; intros seen k; [intros []|].
  cbn [replaceFirst]. destruct (jsstr_eqb k' name); [destruct seen|];
    cbn [In map fst]; intros H.
  - right; exact (IH _ _ H).
  - destruct H as [H|H]; [left; exact H | right; exact (IH _ _ H)].
  - destruct H as [H|H]; [left; exact H | right; exact (IH _ _ H)].
Qed.

Lemma replaceFirst_NoDup (name value : jsstr) :
  forall (l : list (jsstr * jsstr)) (seen : bool),
    NoDup (map fst l) -> NoDup (map fst (replaceFirst name value seen l)).
Proof.
  induction l as [|[k w] r IH]; intros seen Hn; [constructor|].
  cbn [map fst] in Hn. inversion Hn as [|x xs Hfresh Hrest]; subst.
  cbn [replaceFirst]. destruct (jsstr_eqb k name); [destruct seen|];
    cbn [map fst]; try (apply IH; assumption);
    (constructor; [intros Hin; apply replaceFirst_keys in Hin; contradiction
                  | apply IH; assumption]).
Qed.

Lemma searchParamsSet_In (query : list (jsstr * jsstr)) (name value n v : jsstr) :
  In (n, v) (searchParamsSet query name value)
  <-> (n <> name /\ In (n, v) query) \/ (n = name /\ v = value).
Proof.
  rewrite searchParamsSet_unfold. destruct (lookup name query) as [old|] eqn:E.
  - rewrite replaceFirst_In.
    assert (Hk : In name (map fst query)).
    { apply lookup_In in E. apply in_map_iff. now exists (name, old). }
    tauto.
  - rewrite in_app_iff. apply lookup_None_keys in E. cbn [In]. split.
    + intros [Hin|[Heq|[]]].
      * left; split; [|exact Hin]. intros ->. apply E.
        apply in_map_iff. now exists (name, v).
      * injection Heq as <- <-. right; split; reflexivity.
    + intros [[_ Hin]|[-> ->]]; auto.
Qed.

Lemma searchParamsSet_NoDup (query : list (jsstr * jsstr)) (name value : jsstr) :
  NoDup (map fst query) -> NoDup (map fst (searchParamsSet query name value)).
Proof.
  intros Hn. rewrite searchParamsSet_unfold.
  destruct (lookup name query) as [old|] eqn:E.
  - now apply replaceFirst_NoDup.
  - rewrite map_app. cbn [map fst].
    apply (Permutation_NoDup (Permutation_cons_append _ name)).
    constructor; [now apply lookup_None_keys | exact Hn].
Qed.

Lemma queryOf_from (queryValues : Record jsstr) (ps : list ParsedParameter) :
  forall (query : list (jsstr * jsstr)) (done : list ParsedParameter),
    NoDup (map fst query) ->
    (forall n v,
       In (n, v) query
       <-> (exists p, In p done /\ pp_name p = n)
           /\ lookup n queryValues = Some v /\ v <> []) ->
    let out :=
      fold_left
        (fun q p =>
           match lookup (pp_name p) queryValues with
           | Some (c :: val) => searchParamsSet q (pp_name p) (c :: val)
           | _ => q
           end)
        ps query in
    NoDup (map fst out)
    /\ forall n v,
         In (n, v) out
         <-> (exists p, In p (done ++ ps) /\ pp_name p = n)
             /\ lookup n queryValues = Some v /\ v <> [].
Proof.
  induction ps as [|p ps IH]; intros query done Hn Hq; cbn [fold_left].
  - rewrite app_nil_r. split; assumption.
  - assert (Hskip :
      (lookup (pp_name p) queryValues = None
       \/ lookup (pp_name p) queryValues = Some []) ->
      forall n v,
        In (n, v) query
        <-> (exists p', In p' (done ++ [p]) /\ pp_name p' = n)
            /\ lookup n queryValues = Some v /\ v <> []).
    { intros Hnone n v. rewrite Hq. split.
      - intros [[p' [Hin Hp']] Hrest]. split; [|exact Hrest].
        exists p'. split; [apply in_app_iff; now left | exact Hp'].
      - intros [[p' [Hin Hp']] [Hl Hv]]. split; [|now split].
        apply in_app_iff in Hin as [Hin|[<-|[]]]; [now exists p'|].
        exfalso. rewrite Hp' in Hnone. destruct Hnone as [H|H]; congruence. }
    replace (done ++ p :: ps) with ((done ++ [p]) ++ ps)
      by (rewrite <- app_assoc; reflexivity).
    destruct (lookup (pp_name p) queryValues) as [[|c val]|] eqn:E.
    + apply IH; [exact Hn | apply Hskip; now right].
    + apply IH; [now apply searchParamsSet_NoDup|].
      intros n v. rewrite searchParamsSet_In, Hq. split.
      * intros [[Hne [[p' [Hin Hp']] Hrest]]|[-> ->]].
        -- split; [|exact Hrest].
           exists p'. split; [apply in_app_iff; now left | exact Hp'].
        -- split; [|split; [exact E | discriminate]].
           exists p. split; [apply in_app_iff; right; now left | reflexivity].
      * intros [[p' [Hin Hp']] [Hl Hv]].
        destruct (jsstr_eq_dec n (pp_name p)) as [->|Hne].
        -- right. split; [reflexivity | congruence].
        -- left. split; [exact Hne|]. split; [|now split].
           apply in_app_iff in Hin as [Hin|[<-|[]]]; [now exists p' | congruence].
    + apply IH; [exact Hn | apply Hskip; now left].
Qed.

(** X17: the query of a URL holds one entry for each name of a declared query
    parameter for which a non-empty value is supplied, with that value, and
    nothing else: no name twice, no parameter of another location, no empty
    value.  No query parameter has an inherited name. *)
Theorem buildUrl_query_entries (operation : ParsedOperation) (baseUrl : jsstr)
    (pathValues queryValues : Record jsstr) :
  ownNames InQuery operation = true ->
  buildUrl operation baseUrl pathValues queryValues
  = (path <- withPathParams (po_path operation) pathValues ;;
     Some (dropTrailingSlash baseUrl ++ path
           ++ querySuffix (queryOf operation queryValues)))
  /\ NoDup (map fst (queryOf operation queryValues))
  /\ forall n v,
       In (n, v) (queryOf operation queryValues)
       <-> (exists p, In p (po_parameters operation)
                      /\ pp_location p = InQuery /\ pp_name p = n)
           /\ lookup n queryValues = Some v /\ v <> [].
Proof.
  intros _. split; [reflexivity|].
  destruct (queryOf_from queryValues
              (filter (fun p => location_eqb (pp_location p) InQuery)
                 (po_parameters operation))
              [] [] (NoDup_nil _)) as [Hn Hq].
  { intros n v. split; [intros [] | intros [[p [[] _]] _]]. }
  split; [exact Hn|].
  intros n v. unfold queryOf. rewrite Hq. cbn [app].
  split; intros [[p Hp] Hrest]; (split; [exists p | exact Hrest]).
  - destruct Hp as [Hin Hname]. apply filter_In in Hin as [Hin Hloc].
    apply location_eqb_eq in Hloc. now repeat split.
  - destruct Hp as [Hin [Hloc Hname]]. split; [|exact Hname].
    apply filter_In. split; [exact Hin | now apply location_eqb_eq].
Qed.

Lemma buildUrl_query_entries_witness :
  NoDup (map fst (queryOf searchOperation
                    [(lit "q", lit "a"); (lit "page", []); (lit "x", lit "y")]))
  /\ In (lit "q", lit "a")
       (queryOf searchOperation
          [(lit "q", lit "a"); (lit "page", []); (lit "x", lit "y")]).
Proof.
  destruct (buildUrl_query_entries searchOperation (lit "https://api.tikhub.io") []
              [(lit "q", lit "a"); (lit "page", []); (lit "x", lit "y")] eq_refl)
    as [_ [Hn Hq]].
  split; [exact Hn|]. apply Hq. split; [|split; [reflexivity | discriminate]].
  eexists. split; [left; reflexivity | split; reflexivity].
Defined.

(** X18: when no non-empty value is supplied for a declared query parameter,
    the URL ends with the path: no question mark is written.  No query
    parameter has an inherited name. *)
Theorem buildUrl_without_query (operation : ParsedOperation) (baseUrl : jsstr)
    (pathValues queryValues : Record jsstr) :
  ownNames InQuery operation = true ->
  (forall p, In p (po_parameters operation) -> pp_location p = InQuery ->
     lookup (pp_name p) queryValues = None
     \/ lookup (pp_name p) queryValues = Some []) ->
  buildUrl operation baseUrl pathValues queryValues
  = (path <- withPathParams (po_path operation) pathValues ;;
     Some (dropTrailingSlash baseUrl ++ path)).
Proof.
  intros _ Hnone. rewrite buildUrl_queryOf.
  assert (Hq : queryOf operation queryValues = []).
  { unfold queryOf.
    assert (H : forall ps : list ParsedParameter,
              (forall p, In p ps ->
                 lookup (pp_name p) queryValues = None
                 \/ lookup (pp_name p) queryValues = Some []) ->
              fold_left
                (fun q p =>
                   match lookup (pp_name p) queryValues with
                   | Some (c :: val) => searchParamsSet q (pp_name p) (c :: val)
                   | _ => q
                   end) ps [] = []).
    { induction ps as [|p ps IH]; intros Hps; [reflexivity|]. cbn [fold_left].
      destruct (Hps p (or_introl eq_refl)) as [-> | ->];
        apply IH; intros p' Hp'; apply Hps; now right. }
    apply H. intros p Hp. apply filter_In in Hp as [Hin Hloc].
    apply Hnone; [exact Hin | now apply location_eqb_eq]. }
  rewrite Hq. unfold querySuffix. cbn [searchParamsToString str_truthy].
  destruct (withPathParams (po_path operation) pathValues); cbn [bind];
    [now rewrite app_nil_r | reflexivity].
Qed.

Lemma buildUrl_without_query_witness :
  buildUrl searchOperation (lit "https://api.tikhub.io") []
    [(lit "q", []); (lit "sid", lit "x")]
  = Some (lit "https://api.tikhub.io/search").
Proof.
  rewrite (buildUrl_without_query searchOperation (lit "https://api.tikhub.io") []
             [(lit "q", []); (lit "sid", lit "x")] eq_refl).
  - reflexivity.
  - intros p [<-|[<-|[<-|[]]]] Hloc;
      [right; reflexivity | left; reflexivity | discriminate Hloc].
Defined.

(** ** URL construction: the query string *)

Lemma hexDigit_range (d : N) : (48 <= hexDigit d <= 57)%N \/ (65 <= hexDigit d)%N.
Proof.
  unfold hexDigit. destruct (d <? 10)%N eqn:E;
    [apply N.ltb_lt in E | apply N.ltb_ge in E]; lia.
Qed.

Lemma percentOctet_chars (b : N) (c : codeUnit) :
  In c (percentOctet b) -> c = 37%N \/ (48 <= c <= 57)%N \/ (65 <= c)%N.
Proof.
  unfold percentOctet. intros [<-|[<-|[<-|[]]]];
    [left; reflexivity | right; apply hexDigit_range..].
Qed.

Lemma formOctet_chars (b : N) (c : codeUnit) :
  In c (formOctet b) -> c <> 38%N /\ c <> 61%N.
Proof.
  unfold formOctet. destruct (b =? 32)%N.
  - intros [<-|[]]; split; discriminate.
  - destruct (isAlnum b || existsb (N.eqb b) [42; 45; 46; 95]%N) eqn:E.
    + intros [<-|[]]. split; intros ->; vm_compute in E; discriminate.
    + intros H. apply percentOctet_chars in H. lia.
Qed.

Lemma formEncode_no (sep : codeUnit) (s : jsstr) :
  sep = 38%N \/ sep = 61%N ->
  forallb (fun c => negb (c =? sep)%N) (formEncode s) = true.
Proof.
  intros Hsep. apply forallb_forall. intros c Hc.
  unfold formEncode in Hc. apply in_flat_map in Hc as [b [_ Hc]].
  apply formOctet_chars in Hc.
  apply negb_true_iff, N.eqb_neq. destruct Hsep; subst sep; tauto.
Qed.

Lemma queryItem_split (kv : jsstr * jsstr) :
  split 61%N (queryItem kv) = [formEncode (fst kv); formEncode (snd kv)].
Proof.
  unfold queryItem.
  rewrite split_at_separator, !split_no_separator
    by (apply formEncode_no; now right).
  reflexivity.
Qed.

Lemma queryItem_whole (kv : jsstr * jsstr) : split 38%N (queryItem kv) = [queryItem kv].
Proof.
  apply split_no_separator. unfold queryItem.
  rewrite forallb_app. cbn [forallb].
  rewrite !formEncode_no by now left. reflexivity.
Qed.

Lemma searchParamsToString_items (query : list (jsstr * jsstr)) :
  query <> [] -> split 38%N (searchParamsToString query) = map queryItem query.
Proof.
  induction query as [|[k v] r IH]; [congruence|]. intros _.
  cbn [searchParamsToString map].
  change (formEncode k ++ 61%N :: formEncode v) with (queryItem (k, v)).
  destruct r as [|kv r]; [apply queryItem_whole|].
  rewrite split_at_separator, queryItem_whole, IH by discriminate. reflexivity.
Qed.

(** X19: the query string of a URL can be taken apart again: cut at every
    [&] it gives one item for each entry of the query, in order, and each
    item cut at [=] gives exactly the encoded name and the encoded value (an
    ampersand or an equals sign of a name or of a value is always encoded).
    No query parameter has an inherited name. *)
Theorem buildUrl_query_string (operation : ParsedOperation)
    (queryValues : Record jsstr) :
  ownNames InQuery operation = true ->
  queryOf operation queryValues <> [] ->
  querySuffix (queryOf operation queryValues)
  = 63%N :: searchParamsToString (queryOf operation queryValues)
  /\ split 38%N (searchParamsToString (queryOf operation queryValues))
     = map queryItem (queryOf operation queryValues)
  /\ forall kv, In kv (queryOf operation queryValues) ->
       split 61%N (queryItem kv) = [formEncode (fst kv); formEncode (snd kv)].
Proof.
  intros _ Hne. split; [|split].
  - unfold querySuffix.
    destruct (queryOf operation queryValues) as [|[k v] r]; [congruence|].
    cbn [searchParamsToString].
    destruct (formEncode k ++ 61%N :: formEncode v) as [|c s] eqn:E;
      [destruct (formEncode k); discriminate|].
    now destruct r.
  - now apply searchParamsToString_items.
  - intros kv _. apply queryItem_split.
Qed.

Lemma buildUrl_query_string_witness :
  querySuffix (queryOf searchOperation [(lit "q", lit "a&b=c"); (lit "page", lit "2")])
  = lit "?q=a%26b%3Dc&page=2"
  /\ split 38%N
       (searchParamsToString
          (queryOf searchOperation [(lit "q", lit "a&b=c"); (lit "page", lit "2")]))
     = [lit "q=a%26b%3Dc"; lit "page=2"].
Proof.
  destruct (buildUrl_query_string searchOperation
              [(lit "q", lit "a&b=c"); (lit "page", lit "2")] eq_refl
              ltac:(discriminate))
    as [Hs [Hi _]].
  rewrite Hs, Hi. split; reflexivity.
Defined.

(** ** The cookie header *)

Lemma unreserved_chars (c : codeUnit) :
  isUnreserved c = true -> c <> 59%N /\ c <> 32%N /\ c <> 61%N.
Proof. intros H. repeat split; intros ->; vm_compute in H; discriminate. Qed.

Lemma percentOctets_chars (octets : list N) (c : codeUnit) :
  In c (percentOctets octets) -> c <> 59%N /\ c <> 32%N /\ c <> 61%N.
Proof.
  unfold percentOctets. rewrite in_flat_map. intros [b [_ H]].
  apply percentOctet_chars in H. lia.
Qed.

Lemma encodeURIComponent_chars (n : nat) :
  forall (s e : jsstr),
    length s <= n -> encodeURIComponent s = Some e ->
    forall c, In c e -> c <> 59%N /\ c <> 32%N /\ c <> 61%N.
Proof.
  induction n as [|n IH]; intros s e Hlen He c Hc.
  - destruct s; [|simpl in Hlen; lia]. injection He as <-. destruct Hc.
  - destruct s as [|x r]; [injection He as <-; destruct Hc|].
    cbn [encodeURIComponent] in He. cbn [length] in Hlen.
    destruct (isUnreserved x) eqn:U.
    + destruct (encodeURIComponent r) as [rest|] eqn:R; [|discriminate].
      cbn [bind] in He. injection He as <-.
      destruct Hc as [<-|Hc]; [now apply unreserved_chars|].
      apply (IH r rest); [lia | exact R | exact Hc].
    + destruct (isLeadSurrogate x).
      * destruct r as [|d r']; [discriminate|].
        destruct (isTrailSurrogate d); [|discriminate].
        destruct (encodeURIComponent r') as [rest|] eqn:R; [|discriminate].
        cbn [bind] in He. injection He as <-.
        apply in_app_iff in Hc as [Hc|Hc]; [now apply percentOctets_chars in Hc|].
        apply (IH r' rest); [cbn [length] in Hlen; lia | exact R | exact Hc].
      * destruct (isTrailSurrogate x); [discriminate|].
        destruct (encodeURIComponent r) as [rest|] eqn:R; [|discriminate].
        cbn [bind] in He. injection He as <-.
        apply in_app_iff in Hc as [Hc|Hc]; [now apply percentOctets_chars in Hc|].
        apply (IH r rest); [lia | exact R | exact Hc].
Qed.

Lemma encodeURIComponent_count (s e : jsstr) (c : codeUnit) :
  encodeURIComponent s = Some e ->
  c = 59%N \/ c = 32%N \/ c = 61%N ->
  occurrences c e = 0.
Proof.
  intros He Hc. apply count_occ_not_In. intros Hin.
  pose proof (encodeURIComponent_chars (length s) s e (le_n _) He c Hin). lia.
Qed.

Lemma cookiePair_cases (cookieValues : Record jsstr) (param : ParsedParameter) :
  (str_truthy (suppliedValue cookieValues (pp_name param)) = false
   /\ cookiePair cookieValues param = Some [])
  \/ (str_truthy (suppliedValue cookieValues (pp_name param)) = true
      /\ cookiePair cookieValues param
         = (n <- encodeURIComponent (pp_name param) ;;
            v <- encodeURIComponent (suppliedValue cookieValues (pp_name param)) ;;
            Some (n ++ lit "=" ++ v))).
Proof.
  unfold cookiePair, suppliedValue.
  destruct (option_map trim (lookup (pp_name param) cookieValues)) as [[|c value]|];
    cbn [orElse str_truthy]; auto.
Qed.

Lemma cookiePairs_items (cookieValues : Record jsstr) :
  forall (l : list ParsedParameter) (pairs : list jsstr),
    mapThrowing (cookiePair cookieValues) l = Some pairs ->
    Forall2 (isCookieItem cookieValues)
      (filter (fun p => str_truthy (suppliedValue cookieValues (pp_name p))) l)
      (filter str_truthy pairs).
Proof.
  induction l as [|p l IH]; intros pairs H; cbn [mapThrowing] in H.
  - injection H as <-. constructor.
  - destruct (cookiePair cookieValues p) as [pair|] eqn:Ep; [|discriminate].
    cbn [bind] in H.
    destruct (mapThrowing (cookiePair cookieValues) l) as [rest|] eqn:El;
      [|discriminate].
    cbn [bind] in H. injection H as <-. cbn [filter].
    destruct (cookiePair_cases cookieValues p) as [[Hb Hc]|[Hb Hc]];
      rewrite Hb; rewrite Hc in Ep.
    + injection Ep as <-. cbn [str_truthy]. now apply IH.
    + destruct (encodeURIComponent (pp_name p)) as [n|] eqn:En; [|discriminate].
      destruct (encodeURIComponent (suppliedValue cookieValues (pp_name p)))
        as [v|] eqn:Ev; [|discriminate].
      cbn [bind] in Ep. injection Ep as <-.
      assert (Hitem : isCookieItem cookieValues p (n ++ lit "=" ++ v))
        by now exists n, v.
      destruct n; (constructor; [exact Hitem | now apply IH]).
Qed.

Lemma filter_andb {A : Type} (a b : A -> bool) (l : list A) :
  filter (fun x => a x && b x) l = filter b (filter a l).
Proof.
  induction l as [|x l IH]; [reflexivity|]. cbn [filter].
  destruct (a x); cbn [andb filter]; [destruct (b x)|]; now rewrite IH.
Qed.

Lemma Forall2_In_r {A B : Type} (R : A -> B -> Prop) (l : list A) (r : list B) (y : B) :
  Forall2 R l r -> In y r -> exists x, In x l /\ R x y.
Proof.
  induction 1 as [|x y' l r Hxy _ IH]; [intros []|].
  intros [<-|Hin]; [exists x; split; [now left | exact Hxy]|].
  destruct (IH Hin) as [x' [Hx' Hr]]. exists x'. split; [now right | exact Hr].
Qed.

Lemma cookieItem_counts (cookieValues : Record jsstr) (param : ParsedParameter)
    (item : jsstr) :
  isCookieItem cookieValues param item ->
  occurrences 59%N item = 0 /\ occurrences 32%N item = 0 /\ occurrences 61%N item = 1.
Proof.
  intros [n [v [Hn [Hv ->]]]].
  pose proof (fun c => encodeURIComponent_count _ _ c Hn) as Cn.
  pose proof (fun c => encodeURIComponent_count _ _ c Hv) as Cv.
  unfold occurrences in *.
  rewrite !count_occ_app, !Cn, !Cv by tauto.
  repeat split; reflexivity.
Qed.

(** X20: the cookie header is made of one [name=value] item for each cookie
    parameter with a non-blank supplied value, in order, joined by ["; "];
    names and values are percent-encoded, so that no item holds a semicolon
    or a space and each holds exactly one equals sign; the header is empty
    exactly when no cookie parameter has a non-blank value.  No cookie
    parameter has an inherited name. *)
Theorem cookie_header_items (operation : ParsedOperation)
    (cookieValues : Record jsstr) (header : jsstr) :
  ownNames InCookie operation = true ->
  buildCookieHeader operation cookieValues = Some header ->
  exists items,
    header = join (lit "; ") items
    /\ Forall2 (isCookieItem cookieValues) (suppliedCookies operation cookieValues)
         items
    /\ (forall item, In item items ->
          occurrences 59%N item = 0 /\ occurrences 32%N item = 0
          /\ occurrences 61%N item = 1)
    /\ (header = [] <-> suppliedCookies operation cookieValues = []).
Proof.
  intros _. unfold buildCookieHeader.
  destruct (mapThrowing _ _) as [pairs|] eqn:E; [|discriminate].
  cbn [bind]. intros H; injection H as <-.
  assert (Hitems : Forall2 (isCookieItem cookieValues)
                     (suppliedCookies operation cookieValues)
                     (filter str_truthy pairs)).
  { unfold suppliedCookies. rewrite filter_andb. now apply cookiePairs_items. }
  assert (Hcounts : forall item, In item (filter str_truthy pairs) ->
            occurrences 59%N item = 0 /\ occurrences 32%N item = 0
            /\ occurrences 61%N item = 1).
  { intros item Hin. destruct (Forall2_In_r _ _ _ _ Hitems Hin) as [p [_ Hp]].
    exact (cookieItem_counts _ _ _ Hp). }
  exists (filter str_truthy pairs). repeat split; try assumption;
    try (now apply Hcounts).
  - intros Hempty.
    destruct (filter str_truthy pairs) as [|item rest] eqn:Ef.
    + now inversion Hitems.
    + exfalso. destruct (Hcounts item (or_introl eq_refl)) as [_ [_ H61]].
      cbn [join] in Hempty.
      assert (item = []) by (destruct rest; [exact Hempty|];
                             now destruct item).
      subst item. discriminate H61.
  - intros Hnone. rewrite Hnone in Hitems. inversion Hitems. reflexivity.
Qed.

Lemma cookie_header_items_witness :
  exists items,
    lit "sid=a%3Bb" = join (lit "; ") items
    /\ Forall2 (isCookieItem [(lit "sid", lit " a;b ")])
         (suppliedCookies searchOperation [(lit "sid", lit " a;b ")]) items
    /\ (forall item, In item items ->
          occurrences 59%N item = 0 /\ occurrences 32%N item = 0
          /\ occurrences 61%N item = 1)
    /\ (lit "sid=a%3Bb" = [] <-> suppliedCookies searchOperation
                                   [(lit "sid", lit " a;b ")] = []).
Proof.
  apply (cookie_header_items searchOperation [(lit "sid", lit " a;b ")]
           (lit "sid=a%3Bb")); reflexivity.
Defined.

(** ** The request headers *)

Lemma addHeaderParameters_lookup (headerValues : Record jsstr) (key : jsstr)
    (ps : list ParsedParameter) :
  (forall p, In p ps -> pp_location p = InHeader -> pp_name p <> key) ->
  forall headers : Record jsstr,
    lookup key
      (fold_left
         (fun acc param =>
            if negb (location_eqb (pp_location param) InHeader) then acc
            else match option_map trim (lookup (pp_name param) headerValues) with
                 | Some (c :: value) => objSet acc (pp_name param) (c :: value)
                 | _ => acc
                 end)
         ps headers)
    = lookup key headers.
Proof.
  induction ps as [|p ps IH]; intros Hps headers; [reflexivity|].
  cbn [fold_left]. rewrite IH by (intros q Hq; apply Hps; now right).
  destruct (location_eqb (pp_location p) InHeader) eqn:L; cbn [negb]; [|reflexivity].
  destruct (option_map trim (lookup (pp_name p) headerValues)) as [[|c value]|];
    try reflexivity.
  rewrite lookup_objSet. apply location_eqb_eq in L.
  destruct (jsstr_eqb (pp_name p) key) eqn:E; [|reflexivity].
  apply jsstr_eqb_eq in E. exfalso. exact (Hps p (or_introl eq_refl) L E).
Qed.

(** X21: unless a header parameter is itself named [Authorization], the
    headers of a request carry [Authorization: Bearer <key>] exactly when the
    operation requires authentication, with the placeholder [YOUR_API_KEY]
    for an empty key; no header parameter of another name, no content type
    and no cookie changes that.  No header or cookie parameter has an
    inherited name. *)
Theorem buildHeaders_authorization (operation : ParsedOperation) (key : jsstr)
    (headerValues cookieValues headers : Record jsstr) :
  ownNames InHeader operation = true ->
  ownNames InCookie operation = true ->
  (forall p, In p (po_parameters operation) -> pp_location p = InHeader ->
     pp_name p <> lit "Authorization") ->
  buildHeaders operation key headerValues cookieValues = Some headers ->
  lookup (lit "Authorization") headers
  = if po_requiresAuth operation
    then Some (lit "Bearer " ++ (if str_truthy key then key else lit "YOUR_API_KEY"))
    else None.
Proof.
  intros _ _ Hps H. unfold buildHeaders in H.
  destruct (buildCookieHeader operation cookieValues) as [cookie|]; [|discriminate].
  cbn [bind] in H. injection H as <-.
  assert (Hcookie : jsstr_eqb (lit "Cookie") (lit "Authorization") = false)
    by reflexivity.
  assert (Htype : jsstr_eqb (lit "Content-Type") (lit "Authorization") = false)
    by reflexivity.
  assert (Hcore :
    forall base : Record jsstr,
      lookup (lit "Authorization")
        (if str_truthy cookie
         then objSet (addHeaderParameters operation headerValues base)
                (lit "Cookie") cookie
         else addHeaderParameters operation headerValues base)
      = lookup (lit "Authorization") base).
  { intros base. destruct (str_truthy cookie);
      [rewrite lookup_objSet, Hcookie|];
      apply (addHeaderParameters_lookup _ _ _ Hps). }
  rewrite Hcore.
  destruct (po_requestBodyType operation) as [[|c type]|];
    rewrite ?lookup_objSet, ?Htype;
    destruct (po_requiresAuth operation);
    rewrite ?lookup_objSet; reflexivity.
Qed.

Lemma buildHeaders_authorization_witness :
  lookup (lit "Authorization")
    [(lit "accept", lit "application/json");
     (lit "Authorization", lit "Bearer YOUR_API_KEY")]
  = Some (lit "Bearer YOUR_API_KEY").
Proof.
  apply (buildHeaders_authorization searchOperation [] [] []
           [(lit "accept", lit "application/json");
            (lit "Authorization", lit "Bearer YOUR_API_KEY")] eq_refl eq_refl).
  - intros p [<-|[<-|[<-|[]]]] Hloc; discriminate Hloc.
  - reflexivity.
Defined.

(** ** The relay: what is forwarded and what is answered *)

Section RelayFurther.

Variable JSON_parse : jsstr -> option ProxyPayload.
Variable parseURL : jsstr -> option URL.
Variable toUpperCase : jsstr -> jsstr.
Variable toLowerCase : jsstr -> jsstr.
Variable fetch : jsstr -> RequestInit -> FetchOutcome.

Lemma validate_rejects (payload : ProxyPayload) (rejected : Run) :
  validate parseURL toUpperCase toLowerCase payload = inl rejected ->
  snd rejected = []
  /\ In (resp_status (fst rejected)) [400; 403; 405]%Z
  /\ resp_headers (fst rejected) = [].
Proof.
  unfold validate.
  destruct (option_map trim (url payload)) as [[|c text]|];
    try (intros H; injection H as <-; unfold reject;
         cbn [fst snd resp_status resp_headers In]; tauto).
  destruct (parseURL (c :: text)) as [targetUrl|];
    [|intros H; injection H as <-; unfold reject;
      cbn [fst snd resp_status resp_headers In]; tauto].
  destruct (negb (hostAllowed targetUrl));
    [intros H; injection H as <-; unfold reject;
     cbn [fst snd resp_status resp_headers In]; tauto|].
  destruct (negb (existsb _ ALLOWED_METHODS));
    [intros H; injection H as <-; unfold reject;
     cbn [fst snd resp_status resp_headers In]; tauto | discriminate].
Qed.

Lemma validate_accepts (payload : ProxyPayload) (targetUrl : URL) (init : RequestInit) :
  validate parseURL toUpperCase toLowerCase payload = inr (targetUrl, init) ->
  (exists text, option_map trim (url payload) = Some text
                /\ parseURL text = Some targetUrl)
  /\ protocol targetUrl = lit "https:"
  /\ In (hostname targetUrl) ALLOWED_HOSTS
  /\ In (init_method init) ALLOWED_METHODS
  /\ init_method init = toUpperCase (orElse (method payload) (lit "GET"))
  /\ init_headers init = normalizeHeaders toLowerCase (headers payload)
  /\ init_body init
     = if jsstr_eqb (init_method init) (lit "GET") then None else body payload.
Proof.
  unfold validate.
  destruct (option_map trim (url payload)) as [[|c text]|] eqn:Eurl;
    try discriminate.
  destruct (parseURL (c :: text)) as [u|] eqn:Eparse; [|discriminate].
  destruct (hostAllowed u) eqn:Ehost; cbn [negb]; [|discriminate].
  destruct (existsb _ ALLOWED_METHODS) eqn:Emethod; cbn [negb]; [|discriminate].
  intros H; injection H as <- <-. cbn [init_method init_headers init_body].
  apply hostAllowed_iff in Ehost as [Hp Hh].
  split; [now exists (c :: text)|].
  split; [exact Hp|]. split; [exact Hh|].
  split.
  { apply existsb_exists in Emethod as [m [Hin Hm]].
    apply jsstr_eqb_eq in Hm. now rewrite Hm. }
  split; [reflexivity|]. split; [reflexivity|].
  destruct (body payload); destruct (jsstr_eqb _ (lit "GET")); reflexivity.
Qed.

(** The runs of the two handlers: a rejection before anything is forwarded,
    or one upstream request for an accepted payload. *)
Lemma isRun_cases (run : Run) :
  isRun JSON_parse parseURL toUpperCase toLowerCase fetch run ->
  (snd run = []
   /\ In (resp_status (fst run)) [400; 403; 405]%Z
   /\ resp_headers (fst run) = [])
  \/ (exists payload targetUrl init,
        validate parseURL toUpperCase toLowerCase payload = inr (targetUrl, init)
        /\ snd run = [(href targetUrl, init)]
        /\ (resp_headers (fst run) = []
            \/ exists contentType,
                 fetch (href targetUrl) init
                 = Upstream (resp_status (fst run)) (resp_body (fst run)) contentType
                 /\ resp_headers (fst run) = upstreamHeaders contentType)).
Proof.
  assert (Hreject : forall status text,
            snd (reject status text) = []
            /\ (In status [400; 403; 405]%Z ->
                In (resp_status (fst (reject status text))) [400; 403; 405]%Z)
            /\ resp_headers (fst (reject status text)) = []).
  { intros status text. unfold reject. cbn [fst snd resp_status resp_headers]. tauto. }
  intros [[requestMethod [requestBody ->]]|[requestMethod [requestBody ->]]].
  - unfold handler_fetch_api.
    destruct (negb (jsstr_eqb requestMethod (lit "POST")));
      [left; destruct (Hreject 405%Z "Method Not Allowed"%string) as [? [? ?]];
       cbn [In] in *; tauto|].
    destruct (JSON_parse requestBody) as [payload|];
      [|left; destruct (Hreject 400%Z "Invalid JSON payload"%string) as [? [? ?]];
        cbn [In] in *; tauto].
    destruct (validate parseURL toUpperCase toLowerCase payload)
      as [rejected|[targetUrl init]] eqn:E.
    + left. exact (validate_rejects _ _ E).
    + right. exists payload, targetUrl, init. split; [exact E|].
      cbn [snd fst]. split; [reflexivity|].
      destruct (fetch (href targetUrl) init) as [status text contentType| |];
        [|now left..].
      destruct (responseConstructible status); [|now left].
      right. now exists contentType.
  - unfold handler.
    destruct (negb _);
      [left; destruct (Hreject 405%Z "Method Not Allowed"%string) as [? [? ?]];
       cbn [In] in *; tauto|].
    destruct (match requestBody with
              | BodyText text => JSON_parse text
              | BodyObject payload => Some payload
              | BodyAbsent => Some (mkPayload None None None None)
              end) as [payload|];
      [|left; destruct (Hreject 400%Z "Invalid JSON payload"%string) as [? [? ?]];
        cbn [In] in *; tauto].
    destruct (validate parseURL toUpperCase toLowerCase payload)
      as [rejected|[targetUrl init]] eqn:E.
    + left. exact (validate_rejects _ _ E).
    + right. exists payload, targetUrl, init. split; [exact E|].
      cbn [snd fst]. split; [reflexivity|].
      destruct (fetch (href targetUrl) init) as [status text contentType| |];
        [|now left..].
      right. now exists contentType.
Qed.

(** X22: whatever the request, each handler forwards only to a URL that the
    URL parser accepted, whose protocol is [https:] and whose host is on the
    allow-list, and only with a method of the allow-list. *)
Theorem relay_forwards_allowed_only (run : Run) (target : jsstr) (init : RequestInit) :
  isRun JSON_parse parseURL toUpperCase toLowerCase fetch run ->
  In (target, init) (snd run) ->
  exists targetUrl text,
    parseURL text = Some targetUrl
    /\ target = href targetUrl
    /\ protocol targetUrl = lit "https:"
    /\ In (hostname targetUrl) ALLOWED_HOSTS
    /\ In (init_method init) ALLOWED_METHODS.
Proof.
  intros Hrun Hin.
  destruct (isRun_cases run Hrun) as [[Hnone _]|[payload [u [i [Hv [Hsent _]]]]]].
  - rewrite Hnone in Hin. destruct Hin.
  - rewrite Hsent in Hin. destruct Hin as [Heq|[]]. injection Heq as <- <-.
    destruct (validate_accepts _ _ _ Hv) as [[text [_ Hparse]] [Hp [Hh [Hm _]]]].
    now exists u, text.
Qed.

(** X23: a handler makes at most one upstream request; a response that it
    gives without having made one has the status 400, 403 or 405. *)
Theorem relay_rejections (run : Run) :
  isRun JSON_parse parseURL toUpperCase toLowerCase fetch run ->
  length (snd run) <= 1
  /\ (snd run = [] -> In (resp_status (fst run)) [400; 403; 405]%Z).
Proof.
  intros Hrun.
  destruct (isRun_cases run Hrun)
    as [[Hnone [Hstatus _]]|[payload [u [i [_ [Hsent _]]]]]].
  - rewrite Hnone. split; [cbn; lia | intros _; exact Hstatus].
  - rewrite Hsent. split; [cbn; lia | discriminate].
Qed.

(** X24: the answer of a handler carries no header of the upstream answer
    but its content type; the only other header it may carry is
    [cache-control: no-store]. *)
Theorem relay_response_headers (run : Run) (name value : jsstr) :
  isRun JSON_parse parseURL toUpperCase toLowerCase fetch run ->
  In (name, value) (resp_headers (fst run)) ->
  name = lit "content-type"
  \/ (name = lit "cache-control" /\ value = lit "no-store").
Proof.
  intros Hrun Hin.
  destruct (isRun_cases run Hrun)
    as [[_ [_ Hheaders]]|[payload [u [i [_ [_ [Hheaders|[ct [_ Hheaders]]]]]]]]];
    rewrite Hheaders in Hin; try destruct Hin.
  unfold upstreamHeaders in Hin.
  destruct ct as [[|c ct]|]; cbn [In] in Hin;
    repeat (destruct Hin as [Hin|Hin]; [injection Hin as <- <-; auto|]);
    destruct Hin.
Qed.

(** X25: a request forwarded with the method [GET] carries no body, whatever
    body the payload names. *)
Theorem relay_get_has_no_body (run : Run) (target : jsstr) (init : RequestInit) :
  isRun JSON_parse parseURL toUpperCase toLowerCase fetch run ->
  In (target, init) (snd run) ->
  init_method init = lit "GET" ->
  init_body init = None.
Proof.
  intros Hrun Hin Hget.
  destruct (isRun_cases run Hrun) as [[Hnone _]|[payload [u [i [Hv [Hsent _]]]]]].
  - rewrite Hnone in Hin. destruct Hin.
  - rewrite Hsent in Hin. destruct Hin as [Heq|[]]. injection Heq as <- <-.
    destruct (validate_accepts _ _ _ Hv) as [_ [_ [_ [_ [_ [_ Hbody]]]]]].
    rewrite Hbody, Hget. reflexivity.
Qed.

Lemma fold_left_filter {A B : Type} (keep : B -> bool) (f : A -> B -> A) (l : list B) :
  forall acc : A,
    fold_left (fun a x => if keep x then f a x else a) l acc
    = fold_left f (filter keep l) acc.
Proof.
  induction l as [|x l IH]; intros acc; [reflexivity|]. cbn [fold_left filter].
  destruct (keep x); cbn [fold_left]; apply IH.
Qed.

Lemma normalizeHeaders_objAssign (entries : Record jsstr) :
  normalizeHeaders toLowerCase (Some entries)
  = objAssign []
      (filter (fun entry => negb (isStrippedHeader (toLowerCase (fst entry)))) entries).
Proof.
  unfold normalizeHeaders, objAssign. rewrite <- fold_left_filter.
  generalize (@nil (jsstr * jsstr)).
  induction entries as [|e entries IH]; intros acc; [reflexivity|].
  cbn [fold_left]. rewrite IH. unfold isStrippedHeader.
  now destruct (jsstr_eqb (toLowerCase (fst e)) (lit "host")
                || jsstr_eqb (toLowerCase (fst e)) (lit "origin")
                || jsstr_eqb (toLowerCase (fst e)) (lit "content-length")).
Qed.

Lemma normalizeHeaders_from (input : Record jsstr) (k v : jsstr) :
  lookup k (normalizeHeaders toLowerCase (Some input)) = Some v ->
  isStrippedHeader (toLowerCase k) = false /\ In (k, v) input.
Proof.
  rewrite normalizeHeaders_objAssign, lookup_objAssign. cbn [lookup].
  destruct (lookup k (rev (filter _ input))) as [w|] eqn:E; [|discriminate].
  intros H; injection H as <-.
  apply lookup_In in E. rewrite <- in_rev in E.
  apply filter_In in E as [Hin Hkeep]. cbn [fst] in Hkeep.
  apply negb_true_iff in Hkeep. now split.
Qed.

(** X26: a forwarded request never carries a header named [host], [origin]
    or [content-length], in any letter case. *)
Theorem relay_strips_headers (run : Run) (target : jsstr) (init : RequestInit)
    (name : jsstr) :
  isRun JSON_parse parseURL toUpperCase toLowerCase fetch run ->
  In (target, init) (snd run) ->
  In name (map fst (init_headers init)) ->
  isStrippedHeader (toLowerCase name) = false.
Proof.
  intros Hrun Hin Hname.
  destruct (isRun_cases run Hrun) as [[Hnone _]|[payload [u [i [Hv [Hsent _]]]]]].
  - rewrite Hnone in Hin. destruct Hin.
  - rewrite Hsent in Hin. destruct Hin as [Heq|[]]. injection Heq as <- <-.
    destruct (validate_accepts _ _ _ Hv) as [_ [_ [_ [_ [_ [Hheaders _]]]]]].
    rewrite Hheaders in Hname.
    destruct (lookup name (normalizeHeaders toLowerCase (headers payload)))
      as [value|] eqn:E.
    + destruct (headers payload) as [input|]; [|discriminate].
      exact (proj1 (normalizeHeaders_from _ _ _ E)).
    + apply lookup_None_keys in E. contradiction.
Qed.

Lemma lookup_NoDup_In {T : Type} (rec : Record T) (k : jsstr) (v : T) :
  NoDup (map fst rec) -> In (k, v) rec -> lookup k rec = Some v.
Proof.
  induction rec as [|[k' w] r IH]; intros Hn Hin; [destruct Hin|].
  cbn [map fst] in Hn. inversion Hn as [|x xs Hfresh Hrest]; subst.
  cbn [lookup]. destruct Hin as [Heq|Hin].
  - injection Heq as -> ->. now rewrite jsstr_eqb_refl.
  - destruct (jsstr_eqb k' k) eqn:E; [|now apply IH].
    apply jsstr_eqb_eq in E; subst k'. exfalso. apply Hfresh.
    apply in_map_iff. now exists (k, v).
Qed.

(** X27: every other header is forwarded as it is: for a header map (no name
    twice) and a name, not an inherited one, that does not lower-case to
    [host], [origin] or [content-length], the forwarded headers have under
    that name what the payload has. *)
Theorem normalizeHeaders_keeps (input : Record jsstr) (name : jsstr) :
  NoDup (map fst input) ->
  isInherited name = false ->
  isStrippedHeader (toLowerCase name) = false ->
  lookup name (normalizeHeaders toLowerCase (Some input)) = lookup name input.
Proof.
  intros Hn _ Hkeep.
  destruct (lookup name input) as [v|] eqn:E.
  - rewrite normalizeHeaders_objAssign, lookup_objAssign.
    set (kept := filter _ input).
    assert (Hin : In (name, v) (rev kept)).
    { rewrite <- in_rev. apply filter_In. split; [now apply lookup_In|].
      cbn [fst]. now rewrite Hkeep. }
    assert (Hnk : NoDup (map fst (rev kept))).
    { rewrite map_rev. apply NoDup_rev. unfold kept.
      clear -Hn. induction input as [|[k w] r IH]; [constructor|].
      cbn [map fst] in Hn. inversion Hn as [|x xs Hfresh Hrest]; subst.
      cbn [filter]. destruct (negb _); [|now apply IH].
      cbn [map fst]. constructor; [|now apply IH].
      intros Hin. apply Hfresh. apply in_map_iff in Hin as [e [He Hin]].
      apply filter_In in Hin as [Hin _]. apply in_map_iff. now exists e. }
    now rewrite (lookup_NoDup_In _ _ _ Hnk Hin).
  - destruct (lookup name (normalizeHeaders toLowerCase (Some input))) as [v|] eqn:E';
      [|reflexivity].
    apply normalizeHeaders_from in E' as [_ Hin].
    rewrite (lookup_NoDup_In _ _ _ Hn Hin) in E. discriminate.
Qed.


End RelayFurther.

Lemma goodRun_isRun :
  isRun (fun _ => Some goodPayload) parseGoodUrl asciiUpper asciiLower okFetch goodRun.
Proof. left. exists (lit "POST"), (lit "{}"). reflexivity. Qed.

Lemma goodRun_forwards :
  In (lit "https://api.tikhub.io/api/v1/health", goodInit) (snd goodRun).
Proof. left. reflexivity. Qed.

Lemma relay_forwards_allowed_only_witness :
  exists targetUrl text,
    parseGoodUrl text = Some targetUrl
    /\ lit "https://api.tikhub.io/api/v1/health" = href targetUrl
    /\ protocol targetUrl = lit "https:"
    /\ In (hostname targetUrl) ALLOWED_HOSTS
    /\ In (init_method goodInit) ALLOWED_METHODS.
Proof.
  exact (relay_forwards_allowed_only (fun _ => Some goodPayload) parseGoodUrl
           asciiUpper asciiLower okFetch goodRun
           (lit "https://api.tikhub.io/api/v1/health") goodInit
           goodRun_isRun goodRun_forwards).
Defined.

Lemma relay_rejections_witness :
  length (snd goodRun) <= 1
  /\ (snd goodRun = [] -> In (resp_status (fst goodRun)) [400; 403; 405]%Z).
Proof.
  exact (relay_rejections (fun _ => Some goodPayload) parseGoodUrl
           asciiUpper asciiLower okFetch goodRun goodRun_isRun).
Defined.

Lemma relay_response_headers_witness :
  lit "cache-control" = lit "content-type"
  \/ (lit "cache-control" = lit "cache-control" /\ lit "no-store" = lit "no-store").
Proof.
  apply (relay_response_headers (fun _ => Some goodPayload) parseGoodUrl
           asciiUpper asciiLower okFetch goodRun (lit "cache-control") (lit "no-store")
           goodRun_isRun).
  right; left; reflexivity.
Defined.

Lemma relay_get_has_no_body_witness :
  init_body
    {| init_method := lit "GET"; init_headers := []; init_body := None |}
  = None.
Proof.
  apply (relay_get_has_no_body
           (fun _ => Some (mkPayload (Some (lit "https://api.tikhub.io/api/v1/health"))
                             None None (Some (lit "{}"))))
           parseGoodUrl asciiUpper asciiLower okFetch
           (handler_fetch_api
              (fun _ => Some (mkPayload (Some (lit "https://api.tikhub.io/api/v1/health"))
                                None None (Some (lit "{}"))))
              parseGoodUrl asciiUpper asciiLower okFetch (lit "POST") (lit "{}"))
           (lit "https://api.tikhub.io/api/v1/health")).
  - left. exists (lit "POST"), (lit "{}"). reflexivity.
  - left. reflexivity.
  - reflexivity.
Defined.

Lemma relay_strips_headers_witness :
  isStrippedHeader (asciiLower (lit "Authorization")) = false.
Proof.
  apply (relay_strips_headers (fun _ => Some goodPayload) parseGoodUrl
           asciiUpper asciiLower okFetch goodRun
           (lit "https://api.tikhub.io/api/v1/health") goodInit (lit "Authorization")
           goodRun_isRun goodRun_forwards).
  left. reflexivity.
Defined.

Lemma normalizeHeaders_keeps_witness :
  lookup (lit "Authorization")
    (normalizeHeaders asciiLower
       (Some [(lit "Host", lit "evil.example.com");
              (lit "Authorization", lit "Bearer k")]))
  = Some (lit "Bearer k").
Proof.
  apply (normalizeHeaders_keeps asciiLower
           [(lit "Host", lit "evil.example.com");
            (lit "Authorization", lit "Bearer k")] (lit "Authorization")).
  - constructor; [intros [H|[]]; vm_compute in H; discriminate H|].
    constructor; [intros [] | constructor].
  - reflexivity.
  - reflexivity.
Defined.


(** ** The request form (App.tsx) *)

Lemma uniqueParameters_NoDup (merged : list ParameterObject) :
  NoDup (map (fun p : ParameterObject => (p_name p, p_in p)) (uniqueParameters merged)).
Proof.
  apply (NoDup_by_filter _ sameParameter).
  - intros x y. rewrite sameParameter_iff. split.
    + intros [-> ->]; reflexivity.
    + intros H; injection H; auto.
  - intros x. rewrite uniqueParameters_filter.
    destruct (find (sameParameter x) merged); simpl; lia.
Qed.

Lemma names_NoDup_at (loc : ParamLocation) (ps : list ParsedParameter) :
  NoDup (map parameterIdentity ps) ->
  NoDup (map pp_name (filter (fun p => location_eqb (pp_location p) loc) ps)).
Proof.
  induction ps as [|p ps IH]; intros Hn; [constructor|].
  cbn [map] in Hn. inversion Hn as [|x xs Hfresh Hrest]; subst.
  cbn [filter]. destruct (location_eqb (pp_location p) loc) eqn:L; [|now apply IH].
  cbn [map]. constructor; [|now apply IH].
  intros Hin. apply Hfresh. apply in_map_iff in Hin as [q [Hq Hin]].
  apply filter_In in Hin as [Hin Lq].
  apply location_eqb_eq in L, Lq.
  apply in_map_iff. exists q. split; [|exact Hin].
  unfold parameterIdentity. now rewrite Hq, Lq, L.
Qed.

Lemma initialParamValues_objAssign (operation : ParsedOperation) (loc : ParamLocation) :
  initialParamValues operation loc
  = objAssign []
      (map (fun p => (pp_name p, pp_defaultValue p))
         (filter (fun p => location_eqb (pp_location p) loc)
            (po_parameters operation))).
Proof.
  unfold initialParamValues, objAssign. generalize (@nil (jsstr * jsstr)).
  induction (filter _ (po_parameters operation)) as [|p ps IH]; intros acc;
    [reflexivity|].
  cbn [fold_left map fst snd]. apply IH.
Qed.

(** X29: the request form of a normalized operation starts filled with the
    defaults: under the name of each of its parameters, the initial values of
    the parameter's location hold the parameter's default value.  The
    parameter's name is not an inherited one. *)
Theorem initialParamValues_defaults
    (schemas : Record SchemaObject) (path : jsstr) (pathItem : PathItemObject)
    (method : HttpMethod) (op : OperationObject) (p : ParsedParameter) :
  let o := normalizeOperation schemas path pathItem method op in
  In p (po_parameters o) ->
  isInherited (pp_name p) = false ->
  lookup (pp_name p) (initialParamValues o (pp_location p))
  = Some (pp_defaultValue p).
Proof.
  intros o Hp _. rewrite initialParamValues_objAssign, lookup_objAssign.
  set (l := map (fun q => (pp_name q, pp_defaultValue q))
              (filter (fun q => location_eqb (pp_location q) (pp_location p))
                 (po_parameters o))).
  assert (Hn : NoDup (map fst (rev l))).
  { rewrite map_rev. apply NoDup_rev. unfold l. rewrite map_map. cbn [fst].
    apply names_NoDup_at.
    unfold o, normalizeOperation; cbn [po_parameters]. rewrite map_map.
    apply uniqueParameters_NoDup. }
  assert (Hin : In (pp_name p, pp_defaultValue p) (rev l)).
  { rewrite <- in_rev. unfold l. apply in_map_iff. exists p. split; [reflexivity|].
    apply filter_In. split; [exact Hp | now apply location_eqb_eq]. }
  now rewrite (lookup_NoDup_In _ _ _ Hn Hin).
Qed.

Lemma initialParamValues_defaults_witness :
  lookup (lit "id")
    (initialParamValues
       (normalizeOperation [] (lit "/items/{id}") (pathItemOf None itemOperation)
          GET itemOperation)
       InPath)
  = Some (lit "1").
Proof.
  apply (initialParamValues_defaults [] (lit "/items/{id}")
           (pathItemOf None itemOperation) GET itemOperation idParameter).
  - left. reflexivity.
  - reflexivity.
Defined.
